(** * Nachos: scheduler, open files and file system

    A shallow embedding of [threads/scheduler.cc], [filesys/open_file.cc]
    and [filesys/file_system.cc], with the properties of the
    specification stated over it.

    Integers of the C++ code are [Z]; [unsigned] arithmetic is written
    with its wrap-around modulo [2^32].  A function that can hit an
    [ASSERT], dereference a null pointer or wait for ever on a semaphore
    returns an [outcome]. *)

From Stdlib Require Import ZArith Lia List Bool String Ascii.
From stdpp Require Import base option list gmap strings.

Local Open Scope Z_scope.

Ltac Zify.zify_post_hook ::= Z.div_mod_to_equations.

(* ================================================================== *)
(** * Threads and the ready lists *)
(* ================================================================== *)

Module Threads.

(** [ThreadStatus] of [threads/thread.hh]. *)
Inductive ThreadStatus := JUST_CREATED | RUNNING | READY | BLOCKED.

(** The part of a [Thread] the scheduler looks at. *)
Record Thread := mkThread {
  name     : string;
  priority : Z;
  status   : ThreadStatus
}.

Definition SetStatus (st : ThreadStatus) (t : Thread) : Thread :=
  {| name := name t; priority := priority t; status := st |}.

Definition GetPriority (t : Thread) : Z := priority t.

(** Modelled from the spec: the template [List<Thread *>] of
    [lib/list.hh] is not among the sources.  The spec gives each tier
    as a list kept by sorted-insert on the priority, stable for equal
    keys, whose head is popped.  An element carries its sort key.
    [SortedInsertBy before] puts the new element in front of the first
    element [e] with [before sortKey (key e)]; the list of the code is
    [SortedInsert], which keeps keys in increasing order. *)
Definition ListT := list (Thread * Z).

Fixpoint SortedInsertBy (before : Z -> Z -> bool)
    (item : Thread) (sortKey : Z) (l : ListT) : ListT :=
  match l with
  | [] => [(item, sortKey)]
  | (x, k) :: rest =>
      if before sortKey k then (item, sortKey) :: (x, k) :: rest
      else (x, k) :: SortedInsertBy before item sortKey rest
  end.

Definition SortedInsert := SortedInsertBy Z.ltb.

Definition IsEmpty (l : ListT) : bool :=
  match l with [] => true | _ => false end.

(** [Pop] on a non-empty list; the code calls it only after [IsEmpty]
    answered false. *)
Definition Pop (l : ListT) : option (Thread * ListT) :=
  match l with
  | [] => None
  | (x, _) :: rest => Some (x, rest)
  end.

(** The scheduler: [readyList[0..2]]. *)
Record Scheduler := mkScheduler {
  readyList0 : ListT;
  readyList1 : ListT;
  readyList2 : ListT
}.

Definition readyList (s : Scheduler) (i : Z) : ListT :=
  if i =? 0 then readyList0 s
  else if i =? 1 then readyList1 s
  else if i =? 2 then readyList2 s
  else [].

Definition set_readyList (s : Scheduler) (i : Z) (l : ListT) : Scheduler :=
  if i =? 0 then mkScheduler l (readyList1 s) (readyList2 s)
  else if i =? 1 then mkScheduler (readyList0 s) l (readyList2 s)
  else if i =? 2 then mkScheduler (readyList0 s) (readyList1 s) l
  else s.

(** [Scheduler::Scheduler]. *)
Definition newScheduler : Scheduler := mkScheduler [] [] [].

(** The sort order of the lists is a parameter of [ReadyToRunBy]; the
    scheduler of the code is [ReadyToRun]. *)
Definition ReadyToRunBy (before : Z -> Z -> bool)
    (thread : Thread) (s : Scheduler) : Scheduler :=
  let priority := GetPriority thread in
  let thread := SetStatus READY thread in
  if priority <? 20 then
    set_readyList s 0 (SortedInsertBy before thread priority (readyList s 0))
  else if priority =? 20 then
    set_readyList s 1 (SortedInsertBy before thread priority (readyList s 1))
  else
    set_readyList s 2 (SortedInsertBy before thread priority (readyList s 2)).

(** [Scheduler::ReadyToRun]. *)
Definition ReadyToRun := ReadyToRunBy Z.ltb.

(** The loop [for (i = 2; i >= 0; i--)] of [FindNextToRun], from tier
    [i] downwards; [n] counts the tiers still to visit. *)
Fixpoint FindNextToRun_from (n : nat) (i : Z) (s : Scheduler)
    : option Thread * Scheduler :=
  match n with
  | O => (None, s)
  | S n' =>
      if negb (IsEmpty (readyList s i)) then
        match Pop (readyList s i) with
        | Some (t, rest) => (Some t, set_readyList s i rest)
        | None => (None, s)
        end
      else FindNextToRun_from n' (i - 1) s
  end.

(** [Scheduler::FindNextToRun]: [None] is the null pointer. *)
Definition FindNextToRun (s : Scheduler) : option Thread * Scheduler :=
  FindNextToRun_from 3 2 s.

(** The tier a priority is filed under. *)
Definition tier (p : Z) : Z :=
  if p <? 20 then 0 else if p =? 20 then 1 else 2.

(** Successive calls of [FindNextToRun], at most [n] of them, until it
    answers null: the threads in the order they are handed out. *)
Fixpoint drain (n : nat) (s : Scheduler) : list Thread :=
  match n with
  | O => []
  | S n' =>
      match FindNextToRun s with
      | (Some t, s') => t :: drain n' s'
      | (None, _) => []
      end
  end.

Definition ready_count (s : Scheduler) : nat :=
  (length (readyList0 s) + length (readyList1 s) + length (readyList2 s))%nat.

(** Every thread of an order of arrival is made ready in turn. *)
Definition ready_all (order : list Thread) (s : Scheduler) : Scheduler :=
  fold_left (fun s t => ReadyToRun t s) order s.

(** Threads of the scenarios. *)
Definition tA := mkThread "A" 5 JUST_CREATED.
Definition tB := mkThread "B" 20 JUST_CREATED.
Definition tC := mkThread "C" 25 JUST_CREATED.


Definition tT1 := mkThread "T1" 20 JUST_CREATED.
Definition tT2 := mkThread "T2" 20 JUST_CREATED.

End Threads.


(* ================================================================== *)
(** * Outcomes, machine constants, semaphores *)
(* ================================================================== *)

(** What a call can come to: it returns, an [ASSERT] fails, a null or
    wild pointer is followed, the thread waits on a semaphore nobody
    will signal, or the bound on nested destructor calls is used up. *)
Inductive outcome (A : Type) : Type :=
| Ok (a : A)
| AssertFail
| MemFault
| Blocked
| OutOfFuel.

Arguments Ok {A} a.
Arguments AssertFail {A}.
Arguments MemFault {A}.
Arguments Blocked {A}.
Arguments OutOfFuel {A}.

Definition bind {A B : Type} (m : outcome A) (k : A -> outcome B)
    : outcome B :=
  match m with
  | Ok a => k a
  | AssertFail => AssertFail
  | MemFault => MemFault
  | Blocked => Blocked
  | OutOfFuel => OutOfFuel
  end.

Notation "x <- m ;; k" := (bind m (fun x => k))
  (at level 100, m at next level, right associativity, only parsing).

(** [ASSERT(b)]. *)
Definition ASSERT (b : bool) : outcome unit :=
  if b then Ok tt else AssertFail.

(** [unsigned] is 32 bits wide. *)
Definition u32 (z : Z) : Z := z mod 2 ^ 32.

Module Machine.

(** Modelled from the spec: the constants of [machine/disk.hh],
    [filesys/raw_file_header.hh] and [filesys/directory_entry.hh] are
    not among the sources.  The spec's scenarios take
    [SECTOR_SIZE = 128] and [NUM_DIRECT = 30]; the others are the
    values of the Nachos distribution. *)
Definition SECTOR_SIZE : Z := 128.
Definition NUM_SECTORS : Z := 1024.
Definition NUM_DIRECT : Z := 30.
Definition NUM_DIR_ENTRIES : nat := 10.
Definition FILE_NAME_MAX_LEN : Z := 9.
Definition BITS_IN_BYTE : Z := 8.
Definition sizeof_DirectoryEntry : Z := 20.

Definition DivRoundDown (n s : Z) : Z := n / s.
Definition DivRoundUp (n s : Z) : Z := (n + s - 1) / s.

End Machine.

Module Synch.

(** Modelled from the spec: [Semaphore] of [threads/synch.hh] is not
    among the sources.  A semaphore is its counter; [P] waits until the
    counter is positive and takes one, [V] gives one back.  [P] answers
    [None] where the caller has to wait. *)
Abbreviation Semaphore := Z.

Definition P (s : Semaphore) : option Semaphore :=
  if 0 <? s then Some (s - 1) else None.

Definition V (s : Semaphore) : Semaphore := s + 1.

End Synch.

(* ================================================================== *)
(** * Bitmap, file header, directory, open-file table *)
(* ================================================================== *)

Module Bitmap.

(** Modelled from the spec: [Bitmap] of [lib/bitmap.hh] is not among
    the sources.  A bit per sector; [Find] answers the smallest clear
    bit and marks it, or [-1] when every bit is set. *)
Abbreviation t := (list bool).

Definition new (nitems : Z) : t := replicate (Z.to_nat nitems) false.

Definition Test (m : t) (which : Z) : bool :=
  if which <? 0 then false else default false (m !! Z.to_nat which).

Definition Mark (which : Z) (m : t) : t :=
  if which <? 0 then m else <[Z.to_nat which := true]> m.

Definition Clear (which : Z) (m : t) : t :=
  if which <? 0 then m else <[Z.to_nat which := false]> m.

(** Index of the first clear bit, counted from [i]. *)
Fixpoint first_clear (m : t) (i : Z) : option Z :=
  match m with
  | [] => None
  | b :: rest => if b then first_clear rest (i + 1) else Some i
  end.

Definition Find (m : t) : Z * t :=
  match first_clear m 0 with
  | Some i => (i, Mark i m)
  | None => (-1, m)
  end.

Definition CountClear (m : t) : Z :=
  Z.of_nat (length (filter (fun b => b = false) m)).

(** [n] successive calls of [Find], each of which finds a bit. *)
Fixpoint FindMany (n : nat) (m : t) : list Z * t :=
  match n with
  | O => ([], m)
  | S n' =>
      let '(i, m1) := Find m in
      let '(rest, m2) := FindMany n' m1 in
      (i :: rest, m2)
  end.

End Bitmap.

Module FileHeader.
Import Machine.

(** Modelled from the spec: [FileHeader] of [filesys/file_header.cc]
    is not among the sources.  [dataSectors] lists the sectors in file
    order; an entry past the end of the list reads as 0. *)
Record RawFileHeader := mkRaw {
  numBytes    : Z;
  numSectors  : Z;
  dataSectors : list Z
}.

Definition empty : RawFileHeader := mkRaw 0 0 [].

Definition FileLength (h : RawFileHeader) : Z := numBytes h.

Definition ByteToSector (h : RawFileHeader) (offset : Z) : Z :=
  default 0 (dataSectors h !! Z.to_nat (offset / SECTOR_SIZE)).

(** [Allocate]: succeeds iff [ceil(size/SECTOR_SIZE) <= NUM_DIRECT] and
    that many bits are clear; nothing changes otherwise. *)
Definition Allocate (freeMap : Bitmap.t) (fileSize : Z)
    : option (Bitmap.t * RawFileHeader) :=
  let n := DivRoundUp fileSize SECTOR_SIZE in
  if (n <=? NUM_DIRECT) && (n <=? Bitmap.CountClear freeMap) then
    let '(secs, freeMap') := Bitmap.FindMany (Z.to_nat n) freeMap in
    Some (freeMap', mkRaw fileSize n secs)
  else None.

(** [Extend]: [numBytes] grows by the delta and the sectors the new
    size asks for are appended; nothing changes on failure. *)
Definition Extend (freeMap : Bitmap.t) (h : RawFileHeader) (size : Z)
    : option (Bitmap.t * RawFileHeader) :=
  let newBytes := numBytes h + size in
  let n := DivRoundUp newBytes SECTOR_SIZE in
  let extra := n - numSectors h in
  if (n <=? NUM_DIRECT) && (extra <=? Bitmap.CountClear freeMap) then
    let '(secs, freeMap') := Bitmap.FindMany (Z.to_nat extra) freeMap in
    Some (freeMap',
          mkRaw newBytes (Z.max n (numSectors h))
            (take (Z.to_nat (numSectors h)) (dataSectors h) ++ secs))
  else None.

(** [Deallocate]: clears the bit of every data sector. *)
Definition Deallocate (freeMap : Bitmap.t) (h : RawFileHeader) : Bitmap.t :=
  fold_left (fun m s => Bitmap.Clear s m)
    (take (Z.to_nat (numSectors h)) (dataSectors h)) freeMap.

End FileHeader.

Module Directory.
Import Machine.

(** Modelled from the spec: [Directory] of [filesys/directory.cc] and
    [DirectoryEntry] are not among the sources.  A directory is its
    table of [NUM_DIR_ENTRIES] slots. *)
Record DirectoryEntry := mkEntry {
  inUse  : bool;
  isDir  : bool;
  name   : string;
  sector : Z
}.

Abbreviation t := (list DirectoryEntry).

Definition free_slot : DirectoryEntry := mkEntry false false "" 0.

Definition new (size : nat) : t := replicate size free_slot.

Definition named (n : string) (e : DirectoryEntry) : bool :=
  inUse e && bool_decide (name e = n).

(** [Find(name, asDir)]: the sector of the entry in use under [name]
    whose kind is the one asked for, or [-1]. *)
Definition Find (d : t) (n : string) (asDir : bool) : Z :=
  match filter (fun e => named n e && eqb (isDir e) asDir) d with
  | e :: _ => sector e
  | [] => -1
  end.

(** Index of the first slot that satisfies [f]. *)
Fixpoint index_where (f : DirectoryEntry -> bool) (d : t) : option nat :=
  match d with
  | [] => None
  | e :: rest => if f e then Some O else S <$> index_where f rest
  end.

(** [Add(name, sector, isDir)]: true iff the name is not there yet and
    a slot is free. *)
Definition Add (d : t) (n : string) (newSector : Z) (dir : bool)
    : bool * t :=
  match index_where (named n) d with
  | Some _ => (false, d)
  | None =>
      match index_where (fun e => negb (inUse e)) d with
      | Some i => (true, <[i := mkEntry true dir n newSector]> d)
      | None => (false, d)
      end
  end.

(** [Remove(name)]: the sector that was there, or 0. *)
Definition Remove (d : t) (n : string) : Z * t :=
  match index_where (named n) d with
  | Some i =>
      match d !! i with
      | Some e => (sector e, <[i := mkEntry false (isDir e) (name e) (sector e)]> d)
      | None => (0, d)
      end
  | None => (0, d)
  end.

End Directory.

Module Filetable.

(** Modelled from the spec: the open-file table and its [Filenode] are
    not among the sources.  A node per open file, keyed by the sector
    of the header: the name it was opened under, the number of live
    handles, the deferred-removal flag, the number of active readers
    and the two semaphores, both of which start at 1. *)
Record Filenode := mkNode {
  name      : string;
  sector    : Z;
  users     : Z;
  remove    : bool;
  lectores  : Z;
  Can_Read  : Synch.Semaphore;
  Can_Write : Synch.Semaphore
}.

Abbreviation t := (gmap Z Filenode).

Definition new_node (n : string) (s : Z) : Filenode :=
  mkNode n s 0 false 0 1 1.

Definition find (tb : t) (s : Z) : option Filenode := tb !! s.

(** [add_file] answers the node already there, if any. *)
Definition add_file (tb : t) (n : string) (s : Z) : Filenode * t :=
  match tb !! s with
  | Some node => (node, tb)
  | None => (new_node n s, <[s := new_node n s]> tb)
  end.

Definition remove_node (tb : t) (s : Z) : t := delete s tb.

(** A write through the pointer to the node of sector [s]. *)
Definition store (tb : t) (s : Z) (node : Filenode) : t :=
  <[s := node]> tb.

Definition set_users (u : Z) (n : Filenode) : Filenode :=
  mkNode (name n) (sector n) u (remove n) (lectores n) (Can_Read n)
    (Can_Write n).
Definition set_remove (b : bool) (n : Filenode) : Filenode :=
  mkNode (name n) (sector n) (users n) b (lectores n) (Can_Read n)
    (Can_Write n).
Definition set_lectores (l : Z) (n : Filenode) : Filenode :=
  mkNode (name n) (sector n) (users n) (remove n) l (Can_Read n)
    (Can_Write n).
Definition set_Can_Read (s : Synch.Semaphore) (n : Filenode) : Filenode :=
  mkNode (name n) (sector n) (users n) (remove n) (lectores n) s
    (Can_Write n).
Definition set_Can_Write (s : Synch.Semaphore) (n : Filenode) : Filenode :=
  mkNode (name n) (sector n) (users n) (remove n) (lectores n)
    (Can_Read n) s.

End Filetable.


(* ================================================================== *)
(** * The disk and the kernel state *)
(* ================================================================== *)

Module Disk.
Import Machine FileHeader.

Abbreviation byte := Byte.byte.

(** Modelled from the spec: [SynchDisk] and the serialization of a
    header ([FileHeader::FetchFrom], [WriteBack]) are not among the
    sources.  A sector holds either the image of a header, as
    [WriteBack] left it, or [SECTOR_SIZE] bytes of data; a sector never
    written holds zeros.  Read the other way round, a header is seen
    as its little-endian words and data are decoded as a header. *)
Inductive SectorData :=
| HeaderImage (h : RawFileHeader)
| DataBytes (b : list byte).

Definition byte_of_Z (z : Z) : byte :=
  default Byte.x00 (Byte.of_N (Z.to_N (z mod 256))).
Definition Z_of_byte (b : byte) : Z := Z.of_N (Byte.to_N b).

Definition le32 (z : Z) : list byte :=
  [byte_of_Z z; byte_of_Z (z / 256); byte_of_Z (z / 65536);
   byte_of_Z (z / 16777216)].

Definition un_le32 (bs : list byte) : Z :=
  fold_right (fun b acc => Z_of_byte b + 256 * acc) 0 (take 4 bs).

Fixpoint words (n : nat) (bs : list byte) : list Z :=
  match n with
  | O => []
  | S n' => un_le32 bs :: words n' (drop 4 bs)
  end.

Definition encode (h : RawFileHeader) : list byte :=
  le32 (numBytes h) ++ le32 (numSectors h) ++
  flat_map le32 (take (Z.to_nat NUM_DIRECT)
                   (dataSectors h ++ replicate (Z.to_nat NUM_DIRECT) 0)).

Definition decode (bs : list byte) : RawFileHeader :=
  mkRaw (un_le32 bs) (un_le32 (drop 4 bs))
    (words (Z.to_nat NUM_DIRECT) (drop 8 bs)).

Definition zero_sector : list byte :=
  replicate (Z.to_nat SECTOR_SIZE) Byte.x00.

Abbreviation t := (gmap Z SectorData).

(** [ReadSector] hands out [SECTOR_SIZE] bytes, whatever was put in. *)
Definition ReadSector (d : t) (s : Z) : list byte :=
  resize (Z.to_nat SECTOR_SIZE) Byte.x00
    match d !! s with
    | Some (DataBytes b) => b
    | Some (HeaderImage h) => encode h
    | None => zero_sector
    end.

Definition WriteSector (d : t) (s : Z) (data : list byte) : t :=
  <[s := DataBytes data]> d.

Definition ClearSector (d : t) (s : Z) : t :=
  <[s := DataBytes zero_sector]> d.

(** [FileHeader::FetchFrom(sector)] and [WriteBack(sector)]. *)
Definition FetchFrom (d : t) (s : Z) : RawFileHeader :=
  match d !! s with
  | Some (HeaderImage h) => h
  | Some (DataBytes b) => decode b
  | None => decode zero_sector
  end.

Definition WriteBack (d : t) (s : Z) (h : RawFileHeader) : t :=
  <[s := HeaderImage h]> d.

End Disk.

Module Kernel.
Import Machine.

(** The globals the file system works on: [synchDisk], [filetable],
    the path of [currentThread], and [junk]: the bytes that lie in the
    heap where [CheckRoot] gets the buffer it never initialises.  The
    allocator is not followed any further: no operation changes
    [junk], and every such buffer of a run finds the same bytes.

    Modelled from the spec: [Bitmap::FetchFrom]/[WriteBack] and
    [Directory::FetchFrom]/[WriteBack] are not among the sources; the
    spec has them round-trip through a handle on the file.  What was
    last written back through a handle is kept as the contents of that
    file: [freeMapStore] for the free-map file and [dirStore], keyed by
    the sector of the handle's header, for the directory files.  A
    directory file never written reads as an empty table. *)
Record State := mkState {
  synchDisk    : Disk.t;
  freeMapStore : Bitmap.t;
  dirStore     : gmap Z Directory.t;
  filetable    : Filetable.t;
  currentPath  : string;
  junk         : list ascii
}.

Definition set_synchDisk (d : Disk.t) (st : State) : State :=
  mkState d (freeMapStore st) (dirStore st) (filetable st) (currentPath st)
    (junk st).
Definition set_freeMapStore (m : Bitmap.t) (st : State) : State :=
  mkState (synchDisk st) m (dirStore st) (filetable st) (currentPath st)
    (junk st).
Definition set_dirStore (ds : gmap Z Directory.t) (st : State) : State :=
  mkState (synchDisk st) (freeMapStore st) ds (filetable st) (currentPath st)
    (junk st).
Definition set_filetable (tb : Filetable.t) (st : State) : State :=
  mkState (synchDisk st) (freeMapStore st) (dirStore st) tb (currentPath st)
    (junk st).

Definition set_junk (j : list ascii) (st : State) : State :=
  mkState (synchDisk st) (freeMapStore st) (dirStore st) (filetable st)
    (currentPath st) j.

(** An [OpenFile]: the sector of the header, the header kept in memory
    and the seek position. *)
Record OpenFile := mkOpenFile {
  sector       : Z;
  hdr          : FileHeader.RawFileHeader;
  seekPosition : Z
}.

Definition set_hdr (h : FileHeader.RawFileHeader) (f : OpenFile) : OpenFile :=
  mkOpenFile (sector f) h (seekPosition f).

(** [Bitmap::FetchFrom(freeMapFile)] and [WriteBack(freeMapFile)]. *)
Definition Bitmap_FetchFrom (st : State) : Bitmap.t := freeMapStore st.
Definition Bitmap_WriteBack (m : Bitmap.t) (st : State) : State :=
  set_freeMapStore m st.

(** [Directory::FetchFrom(file)] and [WriteBack(file)]. *)
Definition Directory_FetchFrom (st : State) (file : OpenFile) : Directory.t :=
  default (Directory.new NUM_DIR_ENTRIES) (dirStore st !! sector file).
Definition Directory_WriteBack (d : Directory.t) (file : OpenFile)
    (st : State) : State :=
  set_dirStore (<[sector file := d]> (dirStore st)) st.

End Kernel.


(* ================================================================== *)
(** * The reader/writer protocol of an open-file node *)
(* ================================================================== *)

Module Coordinator.
Import Synch Filetable.

(** The statements [ReadAt] and [WriteAt] run on the node, one by one.
    A [P] answers [None] where the thread has to wait. *)
Definition P_Can_Read (n : Filenode) : option Filenode :=
  cr ← P (Can_Read n); Some (set_Can_Read cr n).
Definition V_Can_Read (n : Filenode) : Filenode :=
  set_Can_Read (V (Can_Read n)) n.
Definition P_Can_Write (n : Filenode) : option Filenode :=
  cw ← P (Can_Write n); Some (set_Can_Write cw n).
Definition V_Can_Write (n : Filenode) : Filenode :=
  set_Can_Write (V (Can_Write n)) n.
Definition inc_lectores (n : Filenode) : Filenode :=
  set_lectores (lectores n + 1) n.
Definition dec_lectores (n : Filenode) : Filenode :=
  set_lectores (lectores n - 1) n.

(** The entry section of [ReadAt], run without interruption:
    [Can_Read->P(); lectores++; if (lectores == 1) Can_Write->P();
     Can_Read->V()]. *)
Definition reader_enter (n : Filenode) : option Filenode :=
  n ← P_Can_Read n;
  let n := inc_lectores n in
  n ← (if lectores n =? 1 then P_Can_Write n else Some n);
  Some (V_Can_Read n).

(** The exit section of [ReadAt]:
    [Can_Read->P(); lectores--; if (lectores == 0) Can_Write->V();
     Can_Read->V()]. *)
Definition reader_exit (n : Filenode) : option Filenode :=
  n ← P_Can_Read n;
  let n := dec_lectores n in
  let n := if lectores n =? 0 then V_Can_Write n else n in
  Some (V_Can_Read n).

(** ** Threads interleaved on one node

    Where a thread stands in [ReadAt] or [WriteAt], named after the
    statement it is about to run. *)
Inductive pc :=
| Idle        (* outside ReadAt and WriteAt *)
| R_P1        (* ReadAt: Can_Read->P() *)
| R_Inc       (* lectores++ *)
| R_Test1     (* if (lectores == 1) *)
| R_Pw        (* Can_Write->P() *)
| R_V1        (* Can_Read->V() *)
| R_Inside    (* inside Internal_ReadAt *)
| R_P2        (* Can_Read->P() *)
| R_Dec       (* lectores-- *)
| R_Test0     (* if (lectores == 0) *)
| R_Vw        (* Can_Write->V() *)
| R_V2        (* Can_Read->V() *)
| W_P         (* WriteAt: Can_Write->P() *)
| W_Inside    (* inside Internal_WriteAt *)
| W_V.        (* Can_Write->V() *)

Definition pc_eqb (a b : pc) : bool :=
  match a, b with
  | Idle, Idle | R_P1, R_P1 | R_Inc, R_Inc | R_Test1, R_Test1
  | R_Pw, R_Pw | R_V1, R_V1 | R_Inside, R_Inside | R_P2, R_P2
  | R_Dec, R_Dec | R_Test0, R_Test0 | R_Vw, R_Vw | R_V2, R_V2
  | W_P, W_P | W_Inside, W_Inside | W_V, W_V => true
  | _, _ => false
  end.

(** One statement of one thread: the places it can go to and the node
    it leaves.  An idle thread may call [ReadAt] or [WriteAt]; a thread
    at a [P] whose semaphore is 0 has no step. *)
Definition next (p : pc) (n : Filenode) : list (pc * Filenode) :=
  match p with
  | Idle     => [(R_P1, n); (W_P, n)]
  | R_P1     => match P_Can_Read n with Some n' => [(R_Inc, n')] | None => [] end
  | R_Inc    => [(R_Test1, inc_lectores n)]
  | R_Test1  => if lectores n =? 1 then [(R_Pw, n)] else [(R_V1, n)]
  | R_Pw     => match P_Can_Write n with Some n' => [(R_V1, n')] | None => [] end
  | R_V1     => [(R_Inside, V_Can_Read n)]
  | R_Inside => [(R_P2, n)]
  | R_P2     => match P_Can_Read n with Some n' => [(R_Dec, n')] | None => [] end
  | R_Dec    => [(R_Test0, dec_lectores n)]
  | R_Test0  => if lectores n =? 0 then [(R_Vw, n)] else [(R_V2, n)]
  | R_Vw     => [(R_V2, V_Can_Write n)]
  | R_V2     => [(Idle, V_Can_Read n)]
  | W_P      => match P_Can_Write n with Some n' => [(W_Inside, n')] | None => [] end
  | W_Inside => [(W_V, n)]
  | W_V      => [(Idle, V_Can_Write n)]
  end.

(** The node and the threads that use it. *)
Record System := mkSystem {
  node    : Filenode;
  threads : list pc
}.

(** Thread [i] runs one statement. *)
Inductive step : System -> System -> Prop :=
| step_thread s i p p' n' :
    threads s !! i = Some p ->
    (p', n') ∈ next p (node s) ->
    step s (mkSystem n' (<[i := p']> (threads s))).

(** A node fresh from [add_file] with [k] threads outside. *)
Definition initial (nm : string) (sec : Z) (k : nat) : System :=
  mkSystem (new_node nm sec) (replicate k Idle).

Inductive reachable (nm : string) (sec : Z) (k : nat) : System -> Prop :=
| reach_init : reachable nm sec k (initial nm sec k)
| reach_step s s' :
    reachable nm sec k s -> step s s' -> reachable nm sec k s'.

(** How many threads stand at [p]. *)
Fixpoint at_pc (p : pc) (l : list pc) : Z :=
  match l with
  | [] => 0
  | q :: rest => (if pc_eqb p q then 1 else 0) + at_pc p rest
  end.

(** A deterministic run of thread [i]: [fuel] statements, taking the
    [ReadAt] branch out of [Idle] when [rd] is set. *)
Fixpoint run_thread (rd : bool) (fuel : nat) (i : nat) (s : System)
    : option System :=
  match fuel with
  | O => Some s
  | S fuel' =>
      p ← threads s !! i;
      match p, next p (node s) with
      | Idle, _ =>
          run_thread rd fuel' i
            (mkSystem (node s) (<[i := if rd then R_P1 else W_P]> (threads s)))
      | _, (p', n') :: _ =>
          run_thread rd fuel' i (mkSystem n' (<[i := p']> (threads s)))
      | _, [] => None
      end
  end.

(** The threads inside an entry or exit section, between the [P] and
    the [V] of [Can_Read]. *)
Definition in_section (l : list pc) : Z :=
  at_pc R_Inc l + at_pc R_Test1 l + at_pc R_Pw l + at_pc R_V1 l
  + at_pc R_Dec l + at_pc R_Test0 l + at_pc R_Vw l + at_pc R_V2 l.

(** The threads counted in [lectores]. *)
Definition counted (l : list pc) : Z :=
  at_pc R_Test1 l + at_pc R_Pw l + at_pc R_V1 l + at_pc R_Inside l
  + at_pc R_P2 l + at_pc R_Dec l.

(** The threads that hold [Can_Write] as writers. *)
Definition writers (l : list pc) : Z := at_pc W_Inside l + at_pc W_V l.

(** The invariant of the interleaved system. *)
Definition Inv (s : System) : Prop :=
  let n := node s in
  let l := threads s in
  0 <= Can_Read n /\ 0 <= Can_Write n /\
  Can_Read n + in_section l = 1 /\
  lectores n = counted l /\
  (0 < at_pc R_Pw l -> lectores n = 1 /\ Can_Write n + writers l = 1) /\
  (0 < at_pc R_Vw l -> lectores n = 0) /\
  (0 < at_pc R_Test1 l ->
     (1 < lectores n -> Can_Write n + writers l = 0) /\
     (lectores n <= 1 -> Can_Write n + writers l = 1)) /\
  (0 < at_pc R_Test0 l + at_pc R_Vw l -> Can_Write n + writers l = 0) /\
  (at_pc R_Pw l = 0 -> at_pc R_Test1 l = 0 ->
   at_pc R_Test0 l + at_pc R_Vw l = 0 ->
     (0 < lectores n -> Can_Write n + writers l = 0) /\
     (lectores n <= 0 -> Can_Write n + writers l = 1)).

(** The invariant of the node between sections: while there are
    readers, [Can_Write] is taken. *)
Definition node_inv (n : Filenode) : Prop :=
  0 <= lectores n /\ 0 <= Can_Write n <= 1 /\
  (0 < lectores n -> Can_Write n = 0).

(** Two threads on the node of ["a"]: the first has gone through the
    entry section and reads, the second has called [WriteAt]. *)
Definition one_reading : System :=
  mkSystem (mkNode "a" 5 0 false 1 1 0) [R_Inside; W_P].

(** A writer is inside [Internal_WriteAt]; a reader has counted itself
    in [lectores] and waits at [Can_Write->P()]. *)
Definition reader_waits : System :=
  mkSystem (mkNode "a" 5 0 false 1 0 0) [W_Inside; R_Pw].

(** A reader has counted itself in [lectores] and has not come to
    [Can_Write->P()] yet. *)
Definition reader_counted : System :=
  mkSystem (mkNode "a" 5 0 false 1 0 1) [R_Test1; Idle].

End Coordinator.

(* ================================================================== *)
(** * Paths *)
(* ================================================================== *)

Module Path.

Definition slash : ascii := "/"%char.
Definition NUL : ascii := "000"%char.

Definition is_slash (c : option ascii) : bool :=
  match c with Some c => Ascii.eqb c slash | None => false end.

(** The string that starts at offset [p] of a buffer: up to the first
    NUL.  Past the end the buffer holds NULs. *)
Fixpoint until_NUL (buf : list ascii) : list ascii :=
  match buf with
  | [] => []
  | c :: rest => if Ascii.eqb c NUL then [] else c :: until_NUL rest
  end.

Definition cstr_at (p : nat) (buf : list ascii) : string :=
  string_of_list_ascii (until_NUL (drop p buf)).

(** The loop of [getName], from index [i] down: the text after the
    last ['/'] at or before [i].  The index is [unsigned], so the test
    [0 <= i] never fails and a scan that finds no ['/'] leaves the
    buffer: [None]. *)
Fixpoint getName_scan (name : list ascii) (i : nat) : option (list ascii) :=
  if is_slash (name !! i) then Some (drop (S i) name)
  else match i with
       | O => None
       | S i' => getName_scan name i'
       end.

(** [getName]: [None] where the code reads outside the string. *)
Definition getName (name : string) : option string :=
  let n := list_ascii_of_string name in
  match n with
  | [] => None
  | _ =>
      let pos := (length n - 1)%nat in
      if is_slash (n !! pos) then
        match pos with
        | O => None
        | S pos' => string_of_list_ascii <$> getName_scan n pos'
        end
      else if negb (is_slash (n !! O)) then Some name
      else string_of_list_ascii <$> getName_scan n pos
  end.

(** [new char[n]] for a path: [n] bytes of whatever lies in the heap,
    [junk]. *)
Definition new_chars (junk : list ascii) (n : nat) : list ascii :=
  map (fun i => default NUL (junk !! i)) (seq 0 n).

(** [strncpy(buf + off, src, strlen(src))]: the characters of [src]
    and no terminator.  [None] where the copy leaves the buffer. *)
Definition strncpy_at (buf : list ascii) (off : nat) (src : list ascii)
    : option (list ascii) :=
  if (off + length src <=? length buf)%nat then
    Some (take off buf ++ src ++ drop (off + length src) buf)
  else None.

(** The string a buffer is read as: up to its first NUL.  [None] where
    no NUL ends it inside the buffer and the reader runs past it. *)
Definition cstring (buf : list ascii) : option string :=
  if existsb (Ascii.eqb NUL) buf then
    Some (string_of_list_ascii (until_NUL buf))
  else None.

(** [CheckRoot]: a path that begins with ['/'] is handed back; any
    other is copied behind the path of the current thread, [cwd], into
    a fresh buffer of [2 * FILE_NAME_MAX_LEN] bytes.  Neither
    [strncpy] writes a terminator, so what the callers read is the
    text copied followed by the bytes the heap held, up to the first
    NUL.  [None] where a copy or the readers leave the buffer, and
    for an empty [cwd], whose [path[len - 1]] lies outside it. *)
Definition CheckRoot (junk : list ascii) (cwd : string) (_path : string)
    : option string :=
  if negb (is_slash (list_ascii_of_string _path !! O)) then
    let path := new_chars junk (Z.to_nat (2 * Machine.FILE_NAME_MAX_LEN)) in
    let c := list_ascii_of_string cwd in
    let len := length c in
    path ← strncpy_at path 0 c;
    match len with
    | O => None
    | S last =>
        r ← (if negb (is_slash (path !! last)) then
               if (len <? length path)%nat then
                 Some (<[len := slash]> path, S len)
               else None
             else Some (path, len));
        path ← strncpy_at r.1 r.2 (list_ascii_of_string _path);
        cstring path
    end
  else Some _path.

End Path.


(* ================================================================== *)
(** * [OpenFile] and [FileSystem] *)
(* ================================================================== *)

Module FS.
Import Machine FileHeader Disk Kernel.

Definition FREE_MAP_SECTOR : Z := 0.
Definition DIRECTORY_SECTOR : Z := 1.
Definition FREE_MAP_FILE_SIZE : Z := NUM_SECTORS / BITS_IN_BYTE.
Definition DIRECTORY_FILE_SIZE : Z :=
  sizeof_DirectoryEntry * Z.of_nat NUM_DIR_ENTRIES.

(** [OpenFile::OpenFile(sector)]. *)
Definition OpenFile_new (st : State) (_sector : Z) : OpenFile :=
  mkOpenFile _sector (FetchFrom (synchDisk st) _sector) 0.

(** The two files the file system keeps open. *)
Definition freeMapFile (st : State) : OpenFile :=
  OpenFile_new st FREE_MAP_SECTOR.
Definition directoryFile (st : State) : OpenFile :=
  OpenFile_new st DIRECTORY_SECTOR.

(** [FileSystem::Expand]. *)
Definition Expand (st : State) (sec : Z) (size : Z) : bool * State :=
  let header := FetchFrom (synchDisk st) sec in
  let freeMap := Bitmap_FetchFrom st in
  match Extend freeMap header size with
  | Some (freeMap', header') =>
      let st := Bitmap_WriteBack freeMap' st in
      let st := set_synchDisk (WriteBack (synchDisk st) sec header') st in
      (true, st)
  | None => (false, st)
  end.

(** [OpenFile::Seek]. *)
Definition Seek (f : OpenFile) (position : Z) : OpenFile :=
  mkOpenFile (sector f) (hdr f) position.

(** [OpenFile::Length]: the header kept in memory is read again. *)
Definition Length (st : State) (f : OpenFile) : Z * OpenFile :=
  let f := set_hdr (FetchFrom (synchDisk st) (sector f)) f in
  (FileLength (hdr f), f).

(** A statement on the node of [sec], if there is one. *)
Definition on_node (sec : Z) (g : Filetable.Filenode -> option Filetable.Filenode)
    (st : State) : outcome State :=
  match Filetable.find (filetable st) sec with
  | None => Ok st
  | Some n =>
      match g n with
      | Some n' =>
          Ok (set_filetable (Filetable.store (filetable st) sec n') st)
      | None => Blocked
      end
  end.

Section Heap.

(** What a fresh [new char[n]] holds is whatever lies in the heap. *)
Variable heap : list byte.

Definition new_char (n : Z) : list byte :=
  map (fun i => default Byte.x00 (heap !! i)) (seq 0 (Z.to_nat n)).

(** [memcpy(&buf[off], data, |data|)]. *)
Definition overlay (buf : list byte) (off : Z) (data : list byte)
    : list byte :=
  take (Z.to_nat off) buf ++ data
  ++ drop (Z.to_nat off + length data) buf.

(** The loop of [Internal_ReadAt]: the sectors [first .. last] of the
    file, one after the other. *)
Definition read_sectors (st : State) (f : OpenFile) (first last : Z)
    : list byte :=
  flat_map
    (fun i => ReadSector (synchDisk st)
                (ByteToSector (hdr f) (u32 (i * SECTOR_SIZE))))
    (seqZ first (last - first + 1)).

(** [OpenFile::Internal_ReadAt]: the bytes copied into [into] and the
    count returned.  A copy that leaves the sectors read is a
    [MemFault]. *)
Definition Internal_ReadAt (st : State) (f : OpenFile)
    (numBytes position : Z) : outcome (list byte * Z) :=
  if numBytes =? 0 then Ok ([], numBytes)
  else
    let fileLength := FileLength (hdr f) in
    if fileLength <=? position then Ok ([], 0)
    else
      let numBytes :=
        if fileLength <? u32 (position + numBytes)
        then u32 (fileLength - position) else numBytes in
      let firstSector := DivRoundDown position SECTOR_SIZE in
      let lastSector :=
        DivRoundDown (u32 (position + numBytes - 1)) SECTOR_SIZE in
      let buf := read_sectors st f firstSector lastSector in
      let off := u32 (position - firstSector * SECTOR_SIZE) in
      if off + numBytes <=? Z.of_nat (length buf) then
        Ok (take (Z.to_nat numBytes) (drop (Z.to_nat off) buf), numBytes)
      else MemFault.

(** The loop of [Internal_WriteAt]: sector [i] of the file takes its
    [SECTOR_SIZE] bytes of [buf]. *)
Definition write_sectors (f : OpenFile) (buf : list byte)
    (first last : Z) (d : Disk.t) : Disk.t :=
  fold_left
    (fun d i =>
       WriteSector d (ByteToSector (hdr f) (u32 (i * SECTOR_SIZE)))
         (take (Z.to_nat SECTOR_SIZE)
            (drop (Z.to_nat ((i - first) * SECTOR_SIZE)) buf)))
    (seqZ first (last - first + 1)) d.

(** [OpenFile::Internal_WriteAt]. *)
Definition Internal_WriteAt (st : State) (f : OpenFile)
    (from : list byte) (numBytes position : Z) : outcome (State * Z) :=
  _ <- ASSERT (0 <? numBytes) ;;
  let fileLength := FileLength (hdr f) in
  if fileLength <=? position then Ok (st, 0)
  else
    let '(st, numBytes) :=
      if fileLength <? u32 (position + numBytes) then
        let add_size := u32 (numBytes - (fileLength - position)) in
        let '(ok, st') := Expand st (sector f) add_size in
        if ok then (st', numBytes) else (st', u32 (fileLength - position))
      else (st, numBytes) in
    let firstSector := DivRoundDown position SECTOR_SIZE in
    let lastSector :=
      DivRoundDown (u32 (position + numBytes - 1)) SECTOR_SIZE in
    let numSectors := u32 (1 + lastSector - firstSector) in
    let buf := new_char (u32 (numSectors * SECTOR_SIZE)) in
    let firstAligned := position =? u32 (firstSector * SECTOR_SIZE) in
    let lastAligned :=
      u32 (position + numBytes) =? u32 ((lastSector + 1) * SECTOR_SIZE) in
    buf <- (if negb firstAligned then
              r <- Internal_ReadAt st f SECTOR_SIZE
                     (u32 (firstSector * SECTOR_SIZE)) ;;
              Ok (overlay buf 0 (fst r))
            else Ok buf) ;;
    buf <- (if negb lastAligned
                && (negb (firstSector =? lastSector) || firstAligned) then
              r <- Internal_ReadAt st f SECTOR_SIZE
                     (u32 (lastSector * SECTOR_SIZE)) ;;
              Ok (overlay buf
                    (u32 ((lastSector - firstSector) * SECTOR_SIZE)) (fst r))
            else Ok buf) ;;
    let off := u32 (position - firstSector * SECTOR_SIZE) in
    if off + numBytes <=? Z.of_nat (length buf) then
      let buf := overlay buf off (take (Z.to_nat numBytes) from) in
      let d := write_sectors f buf firstSector lastSector (synchDisk st) in
      Ok (set_synchDisk d st, numBytes)
    else MemFault.

(** [OpenFile::ReadAt]: the state and the handle it leaves, the bytes
    read and their count. *)
Definition ReadAt (st : State) (f : OpenFile) (numBytes position : Z)
    : outcome (State * OpenFile * (list byte * Z)) :=
  let f := set_hdr (FetchFrom (synchDisk st) (sector f)) f in
  st <- on_node (sector f) Coordinator.reader_enter st ;;
  ret <- Internal_ReadAt st f numBytes position ;;
  st <- on_node (sector f) Coordinator.reader_exit st ;;
  Ok (st, f, ret).

(** [OpenFile::WriteAt], from its [ASSERT] on. *)
Definition WriteAt_checked (st : State) (f : OpenFile) (from : list byte)
    (numBytes position : Z) : outcome (State * OpenFile * Z) :=
  let '(len, f) := Length st f in
  _ <- ASSERT (u32 (position + numBytes) <=? len) ;;
  let f := set_hdr (FetchFrom (synchDisk st) (sector f)) f in
  st <- on_node (sector f) Coordinator.P_Can_Write st ;;
  r <- Internal_WriteAt st f from numBytes position ;;
  st <- on_node (sector f)
          (fun n => Some (Coordinator.V_Can_Write n)) (fst r) ;;
  Ok (st, f, snd r).

(** [OpenFile::WriteAt]: the file is expanded if the write ends past
    its length, and the count is cut if it cannot be. *)
Definition WriteAt (st : State) (f : OpenFile) (from : list byte)
    (numBytes position : Z) : outcome (State * OpenFile * Z) :=
  let '(len, f) := Length st f in
  let '(st, f, numBytes) :=
    if len <? u32 (position + numBytes) then
      let size := u32 (position + numBytes - len + 1) in
      let '(ok, st') := Expand st (sector f) size in
      if ok then (st', f, numBytes)
      else
        let '(len', f') := Length st' f in
        (st', f', u32 (len' - position))
    else (st, f, numBytes) in
  WriteAt_checked st f from numBytes position.

(** [OpenFile::Read] and [OpenFile::Write]. *)
Definition Read (st : State) (f : OpenFile) (numBytes : Z)
    : outcome (State * OpenFile * (list byte * Z)) :=
  _ <- ASSERT (0 <? numBytes) ;;
  r <- ReadAt st f numBytes (seekPosition f) ;;
  let '(st, f, result) := r in
  Ok (st, Seek f (u32 (seekPosition f + snd result)), result).

Definition Write (st : State) (f : OpenFile) (into : list byte)
    (numBytes : Z) : outcome (State * OpenFile * Z) :=
  _ <- ASSERT (0 <? numBytes) ;;
  r <- WriteAt st f into numBytes (seekPosition f) ;;
  let '(st, f, result) := r in
  Ok (st, Seek f (u32 (seekPosition f + result)), result).

End Heap.

(** ** Path resolution *)

(** [CheckRoot] on the globals; leaving the buffer is a fault. *)
Definition CheckRoot (st : State) (_path : string) : outcome string :=
  match Path.CheckRoot (junk st) (currentPath st) _path with
  | Some path => Ok path
  | None => MemFault
  end.


Section Destructor.

(** [delete] of an [OpenFile]; see [delete_OpenFile] below. *)
Variable del : OpenFile -> State -> outcome State.

(** The loop of [OpenPath] over the indices [idx] of the buffer
    [path]; [p] is the offset of the pointer [p] of the code and
    advances by [i + 1] at every ['/']. *)
Fixpoint OpenPath_loop (idx : list nat) (path : list ascii) (p : nat)
    (dir : Directory.t) (sec : Z) (st : State)
    : outcome (State * option (Directory.t * Z)) :=
  match idx with
  | [] => Ok (st, Some (dir, sec))
  | i :: rest =>
      if Path.is_slash (path !! i) then
        let path := <[i := Path.NUL]> path in
        let sec := Directory.Find dir (Path.cstr_at p path) true in
        if sec =? -1 then Ok (st, None)
        else
          let dir_file := OpenFile_new st sec in
          let dir := Directory_FetchFrom st dir_file in
          st <- del dir_file st ;;
          OpenPath_loop rest path (p + i + 1)%nat dir sec st
      else OpenPath_loop rest path p dir sec st
  end.

(** [FileSystem::OpenPath]: the directory reached and its sector, or
    null. *)
Definition OpenPath (st : State) (__path : string)
    : outcome (State * option (Directory.t * Z)) :=
  _path <- CheckRoot st __path ;;
  let path := drop 1 (list_ascii_of_string _path) in
  let dir := Directory_FetchFrom st (directoryFile st) in
  OpenPath_loop (seq 0 (length path)) path 0%nat dir DIRECTORY_SECTOR st.

(** [getName] where leaving the string is a fault. *)
Definition getName (path : string) : outcome string :=
  match Path.getName path with
  | Some n => Ok n
  | None => MemFault
  end.

(** The write-back of a parent directory that ends [Create], [Remove]
    and [RemoveDir]. *)
Definition flush_directory (directory : Directory.t) (dir_sector : Z)
    (st : State) : outcome State :=
  if dir_sector =? DIRECTORY_SECTOR then
    Ok (Directory_WriteBack directory (directoryFile st) st)
  else
    let f := OpenFile_new st dir_sector in
    let st := Directory_WriteBack directory f st in
    del f st.

(** [FileSystem::Create]. *)
Definition Create_with (st : State) (_path : string) (initialSize : Z)
    : outcome (bool * State) :=
  path <- CheckRoot st _path ;;
  r <- OpenPath st path ;;
  let '(st, directory) := r in
  name <- getName path ;;
  match directory with
  | None => Ok (false, st)
  | Some (directory, dir_sector) =>
      if negb (Directory.Find directory name true =? -1)
         || negb (Directory.Find directory name false =? -1)
      then Ok (false, st)
      else
        let freeMap := Bitmap_FetchFrom st in
        let '(sec, freeMap) := Bitmap.Find freeMap in
        if sec =? -1 then Ok (false, st)
        else
          let '(added, directory) := Directory.Add directory name sec false in
          if negb added then Ok (false, st)
          else
            match Allocate freeMap initialSize with
            | None => Ok (false, st)
            | Some (freeMap, header) =>
                let st :=
                  set_synchDisk (WriteBack (synchDisk st) sec header) st in
                let st := Bitmap_WriteBack freeMap st in
                st <- flush_directory directory dir_sector st ;;
                Ok (true, st)
            end
  end.

(** [FileSystem::Open]: [None] is the null pointer. *)
Definition Open_with (st : State) (_path : string)
    : outcome (State * option OpenFile) :=
  path <- CheckRoot st _path ;;
  r <- OpenPath st path ;;
  let '(st, directory) := r in
  name <- getName path ;;
  match directory with
  | None => MemFault
  | Some (directory, _) =>
      let sec := Directory.Find directory name false in
      if 1 <? sec then
        let '(node, tb) :=
          match Filetable.find (filetable st) sec with
          | Some node => (node, filetable st)
          | None => Filetable.add_file (filetable st) name sec
          end in
        if negb (Filetable.remove node) then
          let node := Filetable.set_users (Filetable.users node + 1) node in
          let st := set_filetable (Filetable.store tb sec node) st in
          Ok (st, Some (OpenFile_new st sec))
        else Ok (set_filetable tb st, None)
      else Ok (st, None)
  end.

(** Modelled from the spec: [Directory::Clean] is not among the
    sources.  It gives back to the free map the data sectors and the
    header of every file the directory lists, and goes into the
    directories among them first; [depth] bounds how deep. *)
Fixpoint Clean (depth : nat) (st : State) (d : Directory.t)
    (freeMap : Bitmap.t) : outcome Bitmap.t :=
  match depth with
  | O => OutOfFuel
  | S depth' =>
      fold_left
        (fun acc e =>
           freeMap <- acc ;;
           if Directory.inUse e then
             freeMap <-
               (if Directory.isDir e then
                  Clean depth' st
                    (Directory_FetchFrom st
                       (OpenFile_new st (Directory.sector e))) freeMap
                else Ok freeMap) ;;
             let h := FetchFrom (synchDisk st) (Directory.sector e) in
             Ok (Bitmap.Clear (Directory.sector e) (Deallocate freeMap h))
           else Ok freeMap)
        d (Ok freeMap)
  end.

(** [FileSystem::RemoveDir]. *)
Definition RemoveDir_with (depth : nat) (st : State) (_path : string)
    : outcome (bool * State) :=
  path <- CheckRoot st _path ;;
  if bool_decide (path = "/"%string) then Ok (false, st)
  else
    name <- getName path ;;
    r <- OpenPath st path ;;
    let '(st, directory) := r in
    let freeMap := Bitmap_FetchFrom st in
    match directory with
    | None => MemFault
    | Some (directory, dir_sector) =>
        let '(folder_sector, directory) := Directory.Remove directory name in
        freeMap <-
          (if negb (folder_sector =? 0) then
             let folder_file := OpenFile_new st folder_sector in
             let folder := Directory_FetchFrom st folder_file in
             freeMap <- Clean depth st folder freeMap ;;
             let header := FetchFrom (synchDisk st) folder_sector in
             let freeMap := Deallocate freeMap header in
             Ok (Bitmap.Clear folder_sector freeMap)
           else Ok freeMap) ;;
        st <- flush_directory directory dir_sector st ;;
        let st := Bitmap_WriteBack freeMap st in
        Ok (true, st)
    end.

(** The branch of [Remove] that gives the file up for good. *)
Definition Remove_now (st : State) (directory : Directory.t)
    (dir_sector : Z) (name : string) (sec : Z) : outcome (bool * State) :=
  let '(_, directory) := Directory.Remove directory name in
  let freeMap := Bitmap_FetchFrom st in
  let fileHeader := FetchFrom (synchDisk st) sec in
  let freeMap := Deallocate freeMap fileHeader in
  let freeMap := Bitmap.Clear sec freeMap in
  let st := Bitmap_WriteBack freeMap st in
  st <- flush_directory directory dir_sector st ;;
  let st :=
    set_filetable (Filetable.remove_node (filetable st) sec) st in
  Ok (true, st).

(** [FileSystem::Remove]. *)
Definition Remove_with (depth : nat) (st : State) (_path : string)
    : outcome (bool * State) :=
  path <- CheckRoot st _path ;;
  r <- OpenPath st path ;;
  let '(st, directory) := r in
  name <- getName path ;;
  match directory with
  | None => MemFault
  | Some (directory, dir_sector) =>
      let sec := Directory.Find directory name false in
      if sec <? 0 then
        let sec := Directory.Find directory name true in
        if sec <? 0 then Ok (false, st)
        else RemoveDir_with depth st path
      else
        let node := Filetable.find (filetable st) sec in
        match node with
        | Some n =>
            if negb (Filetable.users n =? 0) then
              (* someone has the file open: it is only marked *)
              Ok (true,
                  set_filetable
                    (Filetable.store (filetable st) sec
                       (Filetable.set_remove true n)) st)
            else Remove_now st directory dir_sector name sec
        | None => Remove_now st directory dir_sector name sec
        end
  end.

End Destructor.

(** [OpenFile::~OpenFile].  The destructor may call [Remove], which
    deletes handles of its own: [fuel] bounds the nesting. *)
Fixpoint delete_OpenFile (fuel : nat) (f : OpenFile) (st : State)
    : outcome State :=
  match Filetable.find (filetable st) (sector f) with
  | None => Ok st
  | Some node =>
      let node := Filetable.set_users (Filetable.users node - 1) node in
      let st :=
        set_filetable (Filetable.store (filetable st) (sector f) node) st in
      if Filetable.remove node && (Filetable.users node <=? 0) then
        match fuel with
        | O => OutOfFuel
        | S fuel' =>
            r <- Remove_with (delete_OpenFile fuel') fuel' st
                   (Filetable.name node) ;;
            Ok (snd r)
        end
      else Ok st
  end.

(** The calls as the rest of the kernel makes them. *)
Definition Create (fuel : nat) := Create_with (delete_OpenFile fuel).
Definition Open (fuel : nat) := Open_with (delete_OpenFile fuel).
Definition Remove (fuel : nat) := Remove_with (delete_OpenFile fuel) fuel.
Definition RemoveDir (fuel : nat) :=
  RemoveDir_with (delete_OpenFile fuel) fuel.
Definition Close (fuel : nat) := delete_OpenFile fuel.

(** No node of the open-file table is marked for removal. *)
Definition no_pending (tb : Filetable.t) : Prop :=
  forall s n, tb !! s = Some n -> Filetable.remove n = false.

(** A header as [Allocate] and [Extend] make it: the sectors its size
    asks for, no sector twice. *)
Definition header_ok (h : RawFileHeader) : Prop :=
  0 <= numBytes h /\
  numSectors h = DivRoundUp (numBytes h) SECTOR_SIZE /\
  numSectors h <= NUM_DIRECT /\
  length (dataSectors h) = Z.to_nat (numSectors h) /\
  NoDup (dataSectors h).

(** The file whose header [h] is stored at sector [sec]: the header is
    not among its data sectors, and the free map has them all set. *)
Definition file_ok (st : State) (sec : Z) (h : RawFileHeader) : Prop :=
  synchDisk st !! sec = Some (HeaderImage h) /\
  header_ok h /\
  (sec ∉ dataSectors h) /\
  Bitmap.Test (freeMapStore st) sec = true /\
  (forall s, s ∈ dataSectors h -> Bitmap.Test (freeMapStore st) s = true).

(** No thread waits for, or holds, [Can_Read] of a node of the table. *)
Definition readable (tb : Filetable.t) : Prop :=
  forall s n, tb !! s = Some n -> 0 < Filetable.Can_Read n.

(** [FileSystem::FileSystem(true)] on a blank disk, with an empty
    open-file table and the current thread at the root; [heap] is what
    lies in the heap. *)
Definition Format (heap : list ascii) : outcome State :=
  let freeMap := Bitmap.new NUM_SECTORS in
  let directory := Directory.new NUM_DIR_ENTRIES in
  let freeMap := Bitmap.Mark FREE_MAP_SECTOR freeMap in
  let freeMap := Bitmap.Mark DIRECTORY_SECTOR freeMap in
  match Allocate freeMap FREE_MAP_FILE_SIZE with
  | None => AssertFail
  | Some (freeMap, mapHeader) =>
      match Allocate freeMap DIRECTORY_FILE_SIZE with
      | None => AssertFail
      | Some (freeMap, dirHeader) =>
          let d := WriteBack ∅ FREE_MAP_SECTOR mapHeader in
          let d := WriteBack d DIRECTORY_SECTOR dirHeader in
          let st := mkState d [] ∅ ∅ "/" heap in
          let st := Bitmap_WriteBack freeMap st in
          Ok (Directory_WriteBack directory (directoryFile st) st)
      end
  end.

End FS.


(* ================================================================== *)
(** * Disks and files the scenarios start from *)
(* ================================================================== *)

Module Fixtures.
Import Machine FileHeader Disk Kernel FS.

(** A freshly formatted disk, the heap all zero. *)
Definition formatted : State :=
  match Format [] with
  | Ok st => st
  | _ => mkState ∅ [] ∅ ∅ "/" []
  end.

(** The disk after [Create("/a", size)], and a handle on the file. *)
Definition with_a (size : Z) : outcome (State * OpenFile) :=
  r <- Create 1 formatted "/a" size ;;
  r <- Open 1 (snd r) "/a" ;;
  match snd r with
  | Some h => Ok (fst r, h)
  | None => MemFault
  end.

(** What [WriteAt(buf, n, position)] answers on the fresh file of
    [size] bytes, and the header it leaves on disk. *)
Definition write_on_a (heap : list byte) (size n position : Z)
    : outcome (Z * RawFileHeader) :=
  r <- with_a size ;;
  let '(st, h) := r in
  w <- WriteAt heap st h (replicate (Z.to_nat n) Byte.x2a) n position ;;
  let '(st, h, ret) := w in
  Ok (ret, FetchFrom (synchDisk st) (sector h)).

(** The formatted disk with an empty file ["/a"] and one handle on
    it. *)
Definition a_opened : State * OpenFile :=
  match with_a 0 with
  | Ok r => r
  | _ => (formatted, mkOpenFile 0 FileHeader.empty 0)
  end.


(** The bytes of "hello". *)
Definition hello : list byte :=
  [Byte.x68; Byte.x65; Byte.x6c; Byte.x6c; Byte.x6f].

(** The formatted disk after [Create("/a", 0)]. *)
Definition a_created : State :=
  match Create 1 formatted "/a" 0 with
  | Ok r => snd r
  | _ => formatted
  end.

(** The state and the handle after [Write(h, "hello")] on the file
    just opened, with nothing in the heap. *)
Definition a_written : State * OpenFile :=
  match Write [] (fst a_opened) (snd a_opened) hello 5 with
  | Ok r => fst r
  | _ => a_opened
  end.

End Fixtures.


(* ================================================================== *)
(** * The ready lists as a whole *)
(* ================================================================== *)

Module Ready.
Import Threads.

(** The entry [ReadyToRun] files for a thread: the thread, now
    [READY], under its priority. *)
Definition entry_of (t : Thread) : Thread * Z :=
  (SetStatus READY t, priority t).

(** The threads of an order of arrival that go to the high, the middle
    and the low tier. *)
Definition high (order : list Thread) : list Thread :=
  filter (fun t => 20 < priority t) order.
Definition middle (order : list Thread) : list Thread :=
  filter (fun t => priority t = 20) order.
Definition low (order : list Thread) : list Thread :=
  filter (fun t => priority t < 20) order.

(** The highest tier that holds a thread, or [-1]. *)
Definition top_tier (s : Scheduler) : Z :=
  if negb (IsEmpty (readyList s 2)) then 2
  else if negb (IsEmpty (readyList s 1)) then 1
  else if negb (IsEmpty (readyList s 0)) then 0
  else -1.

End Ready.


(* ================================================================== *)
(** * The parent of a path *)
(* ================================================================== *)

Module Parent.
Import Path.

(** The loop of [getParent], from index [i] down: the buffer is cut
    behind the last ['/'] at or before [i].  As in [getName] the index
    is [unsigned]: the test [i >= 0] never fails, the [ASSERT(false)]
    behind the loop is never reached, and a scan that finds no ['/']
    leaves the buffer: [None]. *)
Fixpoint getParent_scan (parent : list ascii) (i : nat)
    : option (list ascii) :=
  if is_slash (parent !! i) then Some (take (S i) parent)
  else match i with
       | O => None
       | S i' => getParent_scan parent i'
       end.

(** [getParent].  [PATH_MAX_LEN], the size of the buffer the path is
    copied into, is a constant of a header that is not among the
    sources; a path that fills the buffer is left without terminator
    by [strncpy], and [strlen] then reads past the buffer: [None]. *)
Definition getParent (PATH_MAX_LEN : nat) (path : string) : option string :=
  let parent := list_ascii_of_string path in
  if (PATH_MAX_LEN <=? length parent)%nat then None
  else
    match parent with
    | [] => None
    | _ =>
        let pos := (length parent - 1)%nat in
        if is_slash (parent !! pos) then
          match pos with
          | O => None
          | S pos' => string_of_list_ascii <$> getParent_scan parent pos'
          end
        else string_of_list_ascii <$> getParent_scan parent pos
    end.

(** A path that begins with ['/']. *)
Definition absolute (path : string) : Prop :=
  is_slash (list_ascii_of_string path !! O) = true.

(** A name without ['/']. *)
Definition plain (name : string) : Prop :=
  slash ∉ list_ascii_of_string name.

(** A name as a C string holds it: no NUL inside. *)
Definition no_NUL (name : string) : Prop :=
  NUL ∉ list_ascii_of_string name.

(** A path whose last character is ['/']. *)
Definition trailing_slash (path : string) : bool :=
  let n := list_ascii_of_string path in
  is_slash (n !! (length n - 1)%nat).

End Parent.


(* ================================================================== *)
(** * [CheckPath] and [MakeDir] *)
(* ================================================================== *)

Module Dirs.
Import Machine FileHeader Disk Kernel FS.

Section Destructor.

(** [delete] of an [OpenFile], as in [FS]. *)
Variable del : OpenFile -> State -> outcome State.

(** [PATH_MAX_LEN], the size of the buffer of [getParent]. *)
Variable PATH_MAX_LEN : nat.

(** [FileSystem::CheckPath]: whether [OpenPath] answers a directory. *)
Definition CheckPath_with (st : State) (_path : string)
    : outcome (bool * State) :=
  path <- FS.CheckRoot st _path ;;
  r <- OpenPath del st path ;;
  let '(st, directory) := r in
  match directory with
  | Some _ => Ok (true, st)
  | None => Ok (false, st)
  end.

(** [getParent] where leaving the buffer is a fault. *)
Definition getParent (path : string) : outcome string :=
  match Parent.getParent PATH_MAX_LEN path with
  | Some p => Ok p
  | None => MemFault
  end.

(** Whether [name] is in use in [directory], as a directory or as a
    file. *)
Definition taken (directory : Directory.t) (name : string) : bool :=
  negb (Directory.Find directory name true =? -1)
  || negb (Directory.Find directory name false =? -1).

(** [FileSystem::MakeDir].  The test on the name is made twice, around
    the listing of the parent.  When the data sectors cannot be
    allocated the entry and the bit of the header are taken back, on
    the copies in memory, which are then dropped. *)
Definition MakeDir_with (st : State) (_path : string)
    : outcome (bool * State) :=
  path <- FS.CheckRoot st _path ;;
  parent_path <- getParent path ;;
  name <- FS.getName path ;;
  r <- OpenPath del st parent_path ;;
  let '(st, directory) := r in
  match directory with
  | None => Ok (false, st)
  | Some (directory, dir_sector) =>
      if taken directory name then Ok (false, st)
      else if taken directory name then Ok (false, st)
      else
        let freeMap := Bitmap_FetchFrom st in
        let '(sec, freeMap) := Bitmap.Find freeMap in
        if sec =? -1 then Ok (false, st)
        else
          let '(added, directory) := Directory.Add directory name sec true in
          if negb added then Ok (false, st)
          else
            match Allocate freeMap DIRECTORY_FILE_SIZE with
            | None =>
                let '(_, directory) := Directory.Remove directory name in
                let freeMap :=
                  if Bitmap.Test freeMap sec then Bitmap.Clear sec freeMap
                  else freeMap in
                Ok (false, st)
            | Some (freeMap, header) =>
                let st :=
                  set_synchDisk (ClearSector (synchDisk st) sec) st in
                let st :=
                  set_synchDisk (WriteBack (synchDisk st) sec header) st in
                let st := Bitmap_WriteBack freeMap st in
                st <- flush_directory del directory dir_sector st ;;
                Ok (true, st)
            end
  end.

End Destructor.

(** The calls as the rest of the kernel makes them. *)
Definition CheckPath (fuel : nat) := CheckPath_with (delete_OpenFile fuel).
Definition MakeDir (fuel : nat) (PATH_MAX_LEN : nat) :=
  MakeDir_with (delete_OpenFile fuel) PATH_MAX_LEN.

(** The root directory as it is on disk. *)
Definition root (st : State) : Directory.t :=
  Directory_FetchFrom st (directoryFile st).


End Dirs.


(* ================================================================== *)
(** * Directories and files as a whole *)
(* ================================================================== *)

Module Files.
Import Machine FileHeader Disk Kernel FS Dirs.

(** The names in use in a directory. *)
Definition names (d : Directory.t) : list string :=
  Directory.name <$> filter (fun e => Directory.inUse e = true) d.

(** The invariant of a directory: no two entries in use share a
    name. *)
Definition unique_names (d : Directory.t) : Prop := NoDup (names d).

(** The bytes of the file of header [h]: its data sectors one after
    the other, cut at the length of the file. *)
Definition contents (st : State) (h : RawFileHeader) : list byte :=
  take (Z.to_nat (numBytes h))
    (flat_map (ReadSector (synchDisk st))
       (take (Z.to_nat (numSectors h)) (dataSectors h))).



(** A node that lets a reader in: [Can_Read] is free, and so is
    [Can_Write] when no reader holds it yet. *)
Definition lets_read (nd : Filetable.Filenode) : Prop :=
  0 < Filetable.Can_Read nd /\
  (Filetable.lectores nd = 0 -> 0 < Filetable.Can_Write nd).

(** A node that lets a writer in. *)
Definition lets_write (nd : Filetable.Filenode) : Prop :=
  0 < Filetable.Can_Write nd.

(** The buffer [Internal_WriteAt] writes back for a write of [n] bytes
    at [pos] that ends inside a file of [len] bytes whose contents are
    [C]: fresh memory, over which the first and the last sector of the
    range are read in where the write does not cover them, and the
    bytes of [from] are copied. *)
Definition write_buffer (heap : list Disk.byte) (C : list Disk.byte)
    (len pos n : Z) (from : list Disk.byte) : list Disk.byte :=
  let first := pos / SECTOR_SIZE in
  let last := (pos + n - 1) / SECTOR_SIZE in
  let buf := new_char heap ((1 + last - first) * SECTOR_SIZE) in
  let firstAligned := pos =? first * SECTOR_SIZE in
  let lastAligned := pos + n =? (last + 1) * SECTOR_SIZE in
  let sector_of k :=
    take (Z.to_nat (Z.min SECTOR_SIZE (len - k * SECTOR_SIZE)))
      (drop (Z.to_nat (k * SECTOR_SIZE)) C) in
  let buf :=
    if negb firstAligned then overlay buf 0 (sector_of first) else buf in
  let buf :=
    if negb lastAligned && (negb (first =? last) || firstAligned) then
      overlay buf ((last - first) * SECTOR_SIZE) (sector_of last)
    else buf in
  overlay buf (pos - first * SECTOR_SIZE) (take (Z.to_nat n) from).

End Files.

(* ================================================================== *)
(** * The consistency check of [file_system.cc] *)
(* ================================================================== *)

Module Checker.
Import Machine FileHeader Directory Disk.

(** [AddToShadowBitmap]: false when the bit is set already. *)
Definition AddToShadowBitmap (sector : Z) (map : Bitmap.t)
    : bool * Bitmap.t :=
  if Bitmap.Test map sector then (false, map)
  else (true, Bitmap.Mark sector map).

(** [CheckForError]: true when [value] does not hold. *)
Definition CheckForError (value : bool) : bool := negb value.

(** [CheckSector]; both operands of [|=] are evaluated. *)
Definition CheckSector (sector : Z) (shadowMap : Bitmap.t)
    : bool * Bitmap.t :=
  let error := false in
  let error := error || CheckForError (sector <? NUM_SECTORS) in
  let '(fresh, shadowMap) := AddToShadowBitmap sector shadowMap in
  (error || CheckForError fresh, shadowMap).

(** [rh->dataSectors[i]]: the array has [NUM_DIRECT] entries. *)
Definition dataSector (rh : RawFileHeader) (i : Z) : outcome Z :=
  if i <? NUM_DIRECT then Ok (default 0 (dataSectors rh !! Z.to_nat i))
  else MemFault.

(** The loop of [CheckFileHeader] over [i]. *)
Fixpoint CheckFileHeader_loop (rh : RawFileHeader) (idx : list Z)
    (error : bool) (shadowMap : Bitmap.t) : outcome (bool * Bitmap.t) :=
  match idx with
  | [] => Ok (error, shadowMap)
  | i :: rest =>
      s <- dataSector rh i ;;
      let '(e, shadowMap) := CheckSector s shadowMap in
      CheckFileHeader_loop rh rest (error || e) shadowMap
  end.

(** [CheckFileHeader(rh, num, shadowMap)]; [num] is only printed. *)
Definition CheckFileHeader (rh : RawFileHeader) (num : Z)
    (shadowMap : Bitmap.t) : outcome (bool * Bitmap.t) :=
  let error := false in
  let error :=
    error
    || CheckForError (DivRoundUp (numBytes rh) SECTOR_SIZE <=? numSectors rh)
  in
  let error := error || CheckForError (numSectors rh <? NUM_DIRECT) in
  CheckFileHeader_loop rh (seqZ 0 (numSectors rh)) error shadowMap.

(** [CheckBitmaps(freeMap, shadowMap)]. *)
Definition CheckBitmaps (freeMap shadowMap : Bitmap.t) : bool :=
  fold_left
    (fun error i =>
       error
       || CheckForError
            (eqb (Bitmap.Test freeMap i) (Bitmap.Test shadowMap i)))
    (seqZ 0 NUM_SECTORS) false.

(** The loop of [CheckDirectory] over the slots of the table, with the
    names met so far. *)
Fixpoint CheckDirectory_loop (d : Disk.t) (rd : Directory.t)
    (idx : list nat) (error : bool) (knownNames : list string)
    (shadowMap : Bitmap.t) : outcome (bool * Bitmap.t) :=
  match idx with
  | [] => Ok (error, shadowMap)
  | i :: rest =>
      let e := default free_slot (rd !! i) in
      if inUse e then
        let error :=
          error || (FILE_NAME_MAX_LEN <? Z.of_nat (String.length (name e))) in
        let repeated := existsb (String.eqb (name e)) knownNames in
        let error := error || repeated in
        let knownNames :=
          if repeated then knownNames else knownNames ++ [name e] in
        let '(e1, shadowMap) := CheckSector (sector e) shadowMap in
        let error := error || e1 in
        let rh := FetchFrom d (sector e) in
        r <- CheckFileHeader rh (sector e) shadowMap ;;
        let '(e2, shadowMap) := r in
        CheckDirectory_loop d rd rest (error || e2) knownNames shadowMap
      else CheckDirectory_loop d rd rest error knownNames shadowMap
  end.

(** [CheckDirectory(rd, shadowMap)]. *)
Definition CheckDirectory (d : Disk.t) (rd : Directory.t)
    (shadowMap : Bitmap.t) : outcome (bool * Bitmap.t) :=
  CheckDirectory_loop d rd (seq 0 NUM_DIR_ENTRIES) false [] shadowMap.

(** The sectors a header lays claim to, as the loop of
    [CheckFileHeader] reads them. *)
Definition sectors_of (rh : RawFileHeader) : list Z :=
  (fun i => default 0 (dataSectors rh !! Z.to_nat i))
    <$> seqZ 0 (numSectors rh).

(** The sectors a directory lays claim to: for each entry in use, the
    sector of the header and the sectors of the header found there. *)
Definition claimed (d : Disk.t) (rd : Directory.t) : list Z :=
  flat_map (fun e => sector e :: sectors_of (FetchFrom d (sector e)))
    (filter (fun e => inUse e = true) rd).

End Checker.


(* ================================================================== *)
(** * More disks to start from *)
(* ================================================================== *)

Module Trees.
Import Machine FileHeader Disk Kernel FS Dirs Fixtures.


(** The formatted disk after [Create("/notes", 300)]. *)
Definition notes_created : State :=
  match Create 1 formatted "/notes" 300 with
  | Ok r => snd r
  | _ => formatted
  end.

(** The same with the file open once, and the handle. *)
Definition notes_opened : State * OpenFile :=
  match Open 1 notes_created "/notes" with
  | Ok (st, Some h) => (st, h)
  | _ => (notes_created, mkOpenFile 0 FileHeader.empty 0)
  end.

(** The formatted disk after [MakeDir("/usr")]. *)
Definition usr_made : State :=
  match MakeDir 1 64 formatted "/usr" with
  | Ok r => snd r
  | _ => formatted
  end.


End Trees.


(* ================================================================== *)
(** * The scheduler: tiers and order of dispatch *)
(* ================================================================== *)

Module SchedulerProps.
Import Threads.

Lemma tier_cases p :
  (p < 20 -> tier p = 0) /\ (p = 20 -> tier p = 1) /\ (20 < p -> tier p = 2).
Proof.
  unfold tier. repeat split; intros H.
  - apply Z.ltb_lt in H. now rewrite H.
  - subst p. reflexivity.
  - destruct (p <? 20) eqn:E1; [apply Z.ltb_lt in E1; lia|].
    destruct (p =? 20) eqn:E2; [apply Z.eqb_eq in E2; lia|]. reflexivity.
Qed.

Lemma tier_range p : tier p = 0 \/ tier p = 1 \/ tier p = 2.
Proof. unfold tier. destruct (p <? 20), (p =? 20); auto. Qed.

Lemma readyList_set_eq s i l :
  0 <= i <= 2 -> readyList (set_readyList s i l) i = l.
Proof.
  intros Hi. assert (i = 0 \/ i = 1 \/ i = 2) as [->|[->| ->]] by lia;
    reflexivity.
Qed.

Lemma readyList_set_ne s i j l :
  i <> j -> readyList (set_readyList s i l) j = readyList s j.
Proof.
  intros Hne. unfold set_readyList, readyList.
  destruct (i =? 0) eqn:E0; [apply Z.eqb_eq in E0; subst i|].
  { destruct (j =? 0) eqn:J0; [apply Z.eqb_eq in J0; lia|]. reflexivity. }
  destruct (i =? 1) eqn:E1; [apply Z.eqb_eq in E1; subst i|].
  { destruct (j =? 0); [reflexivity|].
    destruct (j =? 1) eqn:J1; [apply Z.eqb_eq in J1; lia|]. reflexivity. }
  destruct (i =? 2) eqn:E2; [apply Z.eqb_eq in E2; subst i|reflexivity].
  destruct (j =? 0); [reflexivity|]. destruct (j =? 1); [reflexivity|].
  destruct (j =? 2) eqn:J2; [apply Z.eqb_eq in J2; lia|]. reflexivity.
Qed.

(** [ReadyToRun] files the thread, marked [READY], under its tier and
    leaves the other tiers alone. *)
Lemma ReadyToRunBy_tier before t s :
  readyList (ReadyToRunBy before t s) (tier (priority t))
  = SortedInsertBy before (SetStatus READY t) (priority t)
      (readyList s (tier (priority t))).
Proof.
  unfold ReadyToRunBy, tier, GetPriority.
  destruct (priority t <? 20); [now rewrite readyList_set_eq by lia|].
  destruct (priority t =? 20); now rewrite readyList_set_eq by lia.
Qed.

Lemma ReadyToRunBy_other before t s j :
  j <> tier (priority t) ->
  readyList (ReadyToRunBy before t s) j = readyList s j.
Proof.
  unfold ReadyToRunBy, tier, GetPriority.
  destruct (priority t <? 20);
    [intros; now apply readyList_set_ne; auto|].
  destruct (priority t =? 20); intros; now apply readyList_set_ne; auto.
Qed.

(** What [FindNextToRun] does, tier by tier. *)
Lemma FindNextToRun_unfold s :
  FindNextToRun s =
    match readyList2 s with
    | (t, _) :: rest => (Some t, set_readyList s 2 rest)
    | [] =>
        match readyList1 s with
        | (t, _) :: rest => (Some t, set_readyList s 1 rest)
        | [] =>
            match readyList0 s with
            | (t, _) :: rest => (Some t, set_readyList s 0 rest)
            | [] => (None, s)
            end
        end
    end.
Proof.
  destruct s as [l0 l1 l2]. unfold FindNextToRun. cbn.
  destruct l2 as [|[t k] r2]; cbn; [|reflexivity].
  destruct l1 as [|[t k] r1]; cbn; [|reflexivity].
  destruct l0 as [|[t k] r0]; cbn; reflexivity.
Qed.

Lemma FindNextToRun_highest s i t k rest :
  0 <= i <= 2 ->
  readyList s i = (t, k) :: rest ->
  (forall j, i < j <= 2 -> readyList s j = []) ->
  FindNextToRun s = (Some t, set_readyList s i rest).
Proof.
  intros Hi Hl Hhigh. rewrite FindNextToRun_unfold.
  assert (i = 0 \/ i = 1 \/ i = 2) as [->|[->| ->]] by lia.
  - assert (H2 := Hhigh 2 ltac:(lia)). assert (H1 := Hhigh 1 ltac:(lia)).
    change (readyList2 s = []) in H2. change (readyList1 s = []) in H1.
    change (readyList0 s = (t, k) :: rest) in Hl.
    now rewrite H2, H1, Hl.
  - assert (H2 := Hhigh 2 ltac:(lia)).
    change (readyList2 s = []) in H2.
    change (readyList1 s = (t, k) :: rest) in Hl.
    now rewrite H2, Hl.
  - change (readyList2 s = (t, k) :: rest) in Hl. now rewrite Hl.
Qed.

Lemma FindNextToRun_null s :
  fst (FindNextToRun s) = None <->
  readyList s 0 = [] /\ readyList s 1 = [] /\ readyList s 2 = [].
Proof.
  rewrite FindNextToRun_unfold.
  change (readyList s 0) with (readyList0 s).
  change (readyList s 1) with (readyList1 s).
  change (readyList s 2) with (readyList2 s).
  destruct (readyList2 s) as [|[t2 k2] r2];
    destruct (readyList1 s) as [|[t1 k1] r1];
    destruct (readyList0 s) as [|[t0 k0] r0]; cbn;
    split; try (intros [? [? ?]]); try intro; try discriminate; auto.
Qed.

(** Draining hands out tier 2, then tier 1, then tier 0, each from its
    head. *)
Lemma drain_all n s :
  (ready_count s <= n)%nat ->
  drain n s = map fst (readyList2 s ++ readyList1 s ++ readyList0 s).
Proof.
  revert s. induction n as [|n IH]; intros s Hn.
  - unfold ready_count in Hn.
    destruct (readyList2 s), (readyList1 s), (readyList0 s);
      cbn in Hn; try lia. reflexivity.
  - cbn [drain]. rewrite FindNextToRun_unfold.
    destruct s as [l0 l1 l2]. unfold ready_count in *. cbn in *.
    destruct l2 as [|[t k] r2].
    + destruct l1 as [|[t k] r1].
      * destruct l0 as [|[t k] r0]; [reflexivity|].
        cbn. f_equal. rewrite IH; [reflexivity|]. cbn in *. lia.
      * cbn. f_equal. rewrite IH; [reflexivity|]. cbn in *. lia.
    + cbn. f_equal. rewrite IH; [reflexivity|]. cbn in *. lia.
Qed.


Lemma SortedInsertBy_split before x k l :
  exists a b,
    SortedInsertBy before x k l = a ++ (x, k) :: b /\ l = a ++ b /\
    Forall (fun e => before k (snd e) = false) a.
Proof.
  induction l as [|[y ky] l IH].
  - exists [], []. repeat split; constructor.
  - cbn. destruct (before k ky) eqn:E.
    + exists [], ((y, ky) :: l). repeat split; constructor.
    + destruct IH as (a & b & H1 & H2 & H3).
      exists ((y, ky) :: a), b. rewrite H1, H2. repeat split.
      constructor; assumption.
Qed.


Lemma ready_count_ReadyToRunBy before t s :
  ready_count (ReadyToRunBy before t s) = S (ready_count s).
Proof.
  assert (Hlen : forall x k l,
    length (SortedInsertBy before x k l) = S (length l)).
  { intros x k l. destruct (SortedInsertBy_split before x k l)
      as (a & b & -> & -> & _). rewrite !length_app. cbn. lia. }
  unfold ReadyToRunBy, ready_count, set_readyList, readyList, GetPriority.
  destruct (priority t <? 20); cbn; [rewrite Hlen; lia|].
  destruct (priority t =? 20); cbn; rewrite Hlen; lia.
Qed.

Lemma scenario_5_20_25 t5 t20 t25 order :
  priority t5 = 5 -> priority t20 = 20 -> priority t25 = 25 ->
  Permutation order [t5; t20; t25] ->
  drain 4 (ready_all order newScheduler)
  = [SetStatus READY t25; SetStatus READY t20; SetStatus READY t5].
Proof.
  intros H5 H20 H25 Hp. symmetry in Hp.
  apply permutations_Permutation in Hp. cbn in Hp.
  unfold ready_all.
  repeat match goal with
  | H : _ ∈ _ :: _ |- _ => apply elem_of_cons in H; destruct H as [->|H]
  | H : _ ∈ [] |- _ => apply elem_of_nil in H; destruct H
  end;
  cbn; unfold ReadyToRun, ReadyToRunBy, GetPriority;
  repeat (rewrite ?H5, ?H20, ?H25; cbn); reflexivity.
Qed.

(** ** C4 *)

(** C4. [ReadyToRun] files a thread of priority [p] under tier 0 when
    [p < 20], tier 1 when [p = 20] and tier 2 otherwise, leaving the
    other tiers as they were; [FindNextToRun] pops the head of the
    highest-indexed tier that is not empty; ready threads of priorities
    5, 20 and 25, whatever their order of arrival, are handed out as
    25, 20, 5 and then null; and [FindNextToRun] answers null exactly
    when the three tiers are empty. *)
Theorem scheduler_strict_priority :
  (forall p, (p < 20 -> tier p = 0) /\ (p = 20 -> tier p = 1) /\
             (20 < p -> tier p = 2)) /\
  (forall t s,
     readyList (ReadyToRun t s) (tier (priority t))
     = SortedInsert (SetStatus READY t) (priority t)
         (readyList s (tier (priority t))) /\
     forall j, j <> tier (priority t) ->
       readyList (ReadyToRun t s) j = readyList s j) /\
  (forall s i t k rest,
     0 <= i <= 2 ->
     readyList s i = (t, k) :: rest ->
     (forall j, i < j <= 2 -> readyList s j = []) ->
     FindNextToRun s = (Some t, set_readyList s i rest)) /\
  (forall t5 t20 t25 order,
     priority t5 = 5 -> priority t20 = 20 -> priority t25 = 25 ->
     Permutation order [t5; t20; t25] ->
     drain 4 (ready_all order newScheduler)
     = [SetStatus READY t25; SetStatus READY t20; SetStatus READY t5]) /\
  (forall s,
     fst (FindNextToRun s) = None <->
     readyList s 0 = [] /\ readyList s 1 = [] /\ readyList s 2 = []).
Proof.
  split; [exact tier_cases|].
  split.
  { intros t s. split.
    - apply ReadyToRunBy_tier.
    - intros j Hj. now apply ReadyToRunBy_other. }
  split; [exact FindNextToRun_highest|].
  split; [exact scenario_5_20_25|exact FindNextToRun_null].
Qed.

Lemma scheduler_strict_priority_witness :
  drain 4 (ready_all [tB; tA; tC] newScheduler)
  = [SetStatus READY tC; SetStatus READY tB; SetStatus READY tA].
Proof.
  apply (proj1 (proj2 (proj2 (proj2 scheduler_strict_priority)))
           tA tB tC [tB; tA; tC]); try reflexivity.
  apply perm_swap.
Defined.

(** ** C5 *)




End SchedulerProps.


(* ================================================================== *)
(** * Readers and writers on an open-file node *)
(* ================================================================== *)

Module CoordinatorProps.
Import Synch Filetable Coordinator.

Lemma at_pc_nonneg p l : 0 <= at_pc p l.
Proof. induction l as [|q l IH]; cbn; [lia|]. destruct (pc_eqb p q); lia. Qed.

(** Moving one thread from [p] to [p'] moves one unit of the counts. *)
Lemma at_pc_insert q l i p p' :
  l !! i = Some p ->
  at_pc q (<[i := p']> l)
  = at_pc q l - (if pc_eqb q p then 1 else 0) + (if pc_eqb q p' then 1 else 0).
Proof.
  revert i. induction l as [|x l IH]; intros [|i] H; simpl in *;
    try discriminate.
  - injection H as ->. lia.
  - rewrite (IH _ H). lia.
Qed.

Lemma at_pc_lookup l i p : l !! i = Some p -> 1 <= at_pc p l.
Proof.
  revert i. induction l as [|x l IH]; intros [|i] H; simpl in *;
    try discriminate.
  - injection H as ->. pose proof (at_pc_nonneg p l).
    destruct p; cbn; lia.
  - specialize (IH _ H). destruct (pc_eqb p x); lia.
Qed.

Lemma at_pc_replicate_Idle q k :
  q <> Idle -> at_pc q (replicate k Idle) = 0.
Proof.
  intros Hq. induction k as [|k IH]; cbn; [reflexivity|].
  rewrite IH. destruct q; try reflexivity. congruence.
Qed.

Ltac counts H :=
  unfold Inv, in_section, counted, writers in *; cbn [node threads] in *;
  rewrite ?(at_pc_insert _ _ _ _ _ H); cbn [pc_eqb];
  repeat match goal with
  | |- context [at_pc ?q ?l] =>
      lazymatch goal with
      | _ : 0 <= at_pc q l |- _ => fail
      | _ => pose proof (at_pc_nonneg q l)
      end
  end.

Lemma Inv_initial nm sec k : Inv (initial nm sec k).
Proof.
  unfold Inv, in_section, counted, writers, initial. cbn.
  rewrite !at_pc_replicate_Idle by discriminate. lia.
Qed.

Lemma Inv_step s s' : Inv s -> step s s' -> Inv s'.
Proof.
  intros HI Hs. destruct Hs as [s i p p' n' Hi Hin].
  destruct s as [n l]. cbn [node threads] in *.
  destruct p; cbn [next] in Hin;
    unfold P_Can_Read, P_Can_Write, P in Hin;
    repeat match type of Hin with
    | context [if ?b then _ else _] =>
        let E := fresh "E" in destruct b eqn:E; cbn in Hin
    end;
    repeat match goal with
    | H : _ ∈ _ :: _ |- _ => apply elem_of_cons in H; destruct H as [H|H]
    | H : _ ∈ [] |- _ => apply elem_of_nil in H; destruct H
    | H : (_, _) = (_, _) |- _ => injection H as -> ->
    end;
    repeat match goal with
    | H : (_ <? _) = true |- _ => apply Z.ltb_lt in H
    | H : (_ <? _) = false |- _ => apply Z.ltb_ge in H
    | H : (_ =? _) = true |- _ => apply Z.eqb_eq in H
    | H : (_ =? _) = false |- _ => apply Z.eqb_neq in H
    end;
    pose proof (at_pc_lookup _ _ _ Hi);
    counts Hi;
    unfold V_Can_Read, V_Can_Write, inc_lectores, dec_lectores, V in *;
    cbn [lectores Can_Read Can_Write set_Can_Read set_Can_Write
         set_lectores] in *;
    lia.
Qed.

Lemma Inv_reachable nm sec k s : reachable nm sec k s -> Inv s.
Proof.
  induction 1 as [|s s' _ IH Hs]; [apply Inv_initial|].
  exact (Inv_step _ _ IH Hs).
Qed.

(** A run of one thread is a sequence of steps. *)
Lemma run_thread_reachable nm sec k rd fuel i s s' :
  reachable nm sec k s -> run_thread rd fuel i s = Some s' ->
  reachable nm sec k s'.
Proof.
  revert s. induction fuel as [|fuel IH]; intros s Hr Hrun;
    cbn [run_thread] in Hrun.
  - injection Hrun as <-. exact Hr.
  - destruct (threads s !! i) as [p|] eqn:Hp;
      cbn [mbind option_bind] in Hrun; [|discriminate].
    assert (Hgo : forall p' n',
      (p', n') ∈ next p (node s) ->
      run_thread rd fuel i (mkSystem n' (<[i := p']> (threads s))) = Some s' ->
      reachable nm sec k s').
    { intros p' n' Hin Hrun'. apply (IH _ (reach_step _ _ _ _ _ Hr
        (step_thread s i p p' n' Hp Hin)) Hrun'). }
    assert (p = Idle \/ p <> Idle) as [->|Hne]
      by (destruct p; auto; right; discriminate).
    + cbn [next] in Hgo. destruct rd; (eapply Hgo; [|exact Hrun]); cbn; set_solver.
    + assert (Hrun' :
        match next p (node s) with
        | (p', n') :: _ =>
            run_thread rd fuel i (mkSystem n' (<[i := p']> (threads s)))
        | [] => None
        end = Some s') by (destruct p; try congruence; exact Hrun).
      destruct (next p (node s)) as [|[p' n'] rest]; [discriminate|].
      eapply Hgo; [|exact Hrun']. set_solver.
Qed.

(** What one entry and one exit section do to the node. *)
Lemma reader_enter_effect n n' :
  reader_enter n = Some n' ->
  0 < Can_Read n /\
  lectores n' = lectores n + 1 /\ Can_Read n' = Can_Read n /\
  Can_Write n' = (if lectores n =? 0 then Can_Write n - 1 else Can_Write n) /\
  (lectores n = 0 -> 0 < Can_Write n).
Proof.
  unfold reader_enter, P_Can_Read, P_Can_Write, P, inc_lectores, V_Can_Read, V.
  destruct (0 <? Can_Read n) eqn:E1; cbn; [|discriminate].
  apply Z.ltb_lt in E1.
  replace (lectores n + 1 =? 1) with (lectores n =? 0)
    by (destruct (lectores n =? 0) eqn:E; symmetry;
        [apply Z.eqb_eq in E; apply Z.eqb_eq; lia
        |apply Z.eqb_neq in E; apply Z.eqb_neq; lia]).
  destruct (lectores n =? 0) eqn:E2; cbn.
  - destruct (0 <? Can_Write n) eqn:E3; cbn; [|discriminate].
    apply Z.ltb_lt in E3. intros [= <-]. cbn. repeat split; lia.
  - apply Z.eqb_neq in E2. intros [= <-]. cbn. repeat split; lia.
Qed.

Lemma reader_exit_effect n n' :
  reader_exit n = Some n' ->
  0 < Can_Read n /\
  lectores n' = lectores n - 1 /\ Can_Read n' = Can_Read n /\
  Can_Write n' = (if lectores n =? 1 then Can_Write n + 1 else Can_Write n).
Proof.
  unfold reader_exit, P_Can_Read, P, dec_lectores, V_Can_Read, V_Can_Write, V.
  destruct (0 <? Can_Read n) eqn:E1; cbn; [|discriminate].
  apply Z.ltb_lt in E1.
  replace (lectores n - 1 =? 0) with (lectores n =? 1)
    by (destruct (lectores n =? 1) eqn:E; symmetry;
        [apply Z.eqb_eq in E; apply Z.eqb_eq; lia
        |apply Z.eqb_neq in E; apply Z.eqb_neq; lia]).
  destruct (lectores n =? 1) eqn:E2; intros [= <-]; cbn;
    repeat split; lia.
Qed.

(** When the sections let a reader through. *)
Lemma reader_enter_waits n :
  reader_enter n = None <->
  Can_Read n <= 0 \/ (lectores n = 0 /\ Can_Write n <= 0).
Proof.
  unfold reader_enter, P_Can_Read, P_Can_Write, P, inc_lectores, V_Can_Read, V.
  destruct (0 <? Can_Read n) eqn:E1; cbn.
  2:{ apply Z.ltb_ge in E1. split; [auto|reflexivity]. }
  apply Z.ltb_lt in E1.
  destruct (lectores n + 1 =? 1) eqn:E2; cbn.
  - apply Z.eqb_eq in E2. destruct (0 <? Can_Write n) eqn:E3; cbn.
    + apply Z.ltb_lt in E3. split; [discriminate|lia].
    + apply Z.ltb_ge in E3. split; [intros _; right; lia|reflexivity].
  - apply Z.eqb_neq in E2. split; [discriminate|lia].
Qed.

Lemma reader_exit_waits n : reader_exit n = None <-> Can_Read n <= 0.
Proof.
  unfold reader_exit, P_Can_Read, P.
  destruct (0 <? Can_Read n) eqn:E1; cbn.
  - apply Z.ltb_lt in E1. split; [discriminate|lia].
  - apply Z.ltb_ge in E1. split; [auto|reflexivity].
Qed.

(** ** C9 *)

(** Inside the sections the count runs ahead of the semaphore.  With
    a writer inside [Internal_WriteAt], a reader that has done
    [lectores++] waits at [Can_Write->P()]: the count is 1 and a
    writer is inside.  And a reader alone, between [lectores++] and
    [Can_Write->P()]: the count is 1 and [Can_Write] is free. *)
Lemma reader_writer_counterexample :
  (reachable "a" 5 2 reader_waits /\
   0 < lectores (node reader_waits) /\
   0 < at_pc W_Inside (threads reader_waits)) /\
  (reachable "a" 5 2 reader_counted /\
   0 < lectores (node reader_counted) /\
   Can_Write (node reader_counted) = 1).
Proof.
  split; (split; [|split; reflexivity]).
  - apply (run_thread_reachable "a" 5 2 true 4 1
             (mkSystem (mkNode "a" 5 0 false 0 1 0) [W_Inside; Idle])).
    + apply (run_thread_reachable "a" 5 2 false 2 0 (initial "a" 5 2)).
      * constructor.
      * reflexivity.
    + reflexivity.
  - apply (run_thread_reachable "a" 5 2 true 3 0 (initial "a" 5 2)).
    + constructor.
    + reflexivity.
Qed.

(** C9 (amended). On an open-file node used by any number of threads,
    each running [ReadAt] and [WriteAt] statement by statement:
    whenever no thread is in the middle of an entry or exit section
    ([Can_Read] is free) and [lectores] is positive, [Can_Write] is
    taken and no writer is inside [Internal_WriteAt]; no writer is
    inside while a reader is inside [Internal_ReadAt]; [lectores]
    changes only while [Can_Read] is held.  An entry section lets the
    reader through unless [Can_Read] is taken or, for the first
    reader, [Can_Write] is; it adds one reader and takes [Can_Write]
    exactly when [lectores] goes from 0 to 1.  An exit section lets
    the reader through unless [Can_Read] is taken; it removes one
    reader and gives [Can_Write] back exactly when [lectores] returns
    to 0.  Both preserve the invariant. *)
Theorem reader_writer_invariant :
  (forall nm sec k s,
     reachable nm sec k s ->
     (Can_Read (node s) = 1 -> 0 < lectores (node s) ->
        Can_Write (node s) = 0 /\ at_pc W_Inside (threads s) = 0) /\
     (0 < at_pc R_Inside (threads s) -> at_pc W_Inside (threads s) = 0) /\
     (0 < at_pc R_Inc (threads s) + at_pc R_Dec (threads s) ->
        Can_Read (node s) = 0)) /\
  (forall n,
     reader_enter n = None <->
     Can_Read n <= 0 \/ (lectores n = 0 /\ Can_Write n <= 0)) /\
  (forall n, reader_exit n = None <-> Can_Read n <= 0) /\
  (forall n n',
     reader_enter n = Some n' ->
     lectores n' = lectores n + 1 /\ Can_Read n' = Can_Read n /\
     Can_Write n'
     = (if lectores n =? 0 then Can_Write n - 1 else Can_Write n)) /\
  (forall n n',
     reader_exit n = Some n' ->
     lectores n' = lectores n - 1 /\ Can_Read n' = Can_Read n /\
     Can_Write n'
     = (if lectores n =? 1 then Can_Write n + 1 else Can_Write n)) /\
  (forall n n', node_inv n -> reader_enter n = Some n' -> node_inv n') /\
  (forall n n',
     node_inv n -> 0 < lectores n -> reader_exit n = Some n' -> node_inv n').
Proof.
  split.
  { intros nm sec k s Hr. pose proof (Inv_reachable _ _ _ _ Hr) as HI.
    destruct s as [n l]. unfold Inv, in_section, counted, writers in HI.
    cbn [node threads] in *.
    pose proof (at_pc_nonneg R_Inc l). pose proof (at_pc_nonneg R_Test1 l).
    pose proof (at_pc_nonneg R_Pw l). pose proof (at_pc_nonneg R_V1 l).
    pose proof (at_pc_nonneg R_Dec l). pose proof (at_pc_nonneg R_Test0 l).
    pose proof (at_pc_nonneg R_Vw l). pose proof (at_pc_nonneg R_V2 l).
    pose proof (at_pc_nonneg R_Inside l). pose proof (at_pc_nonneg R_P2 l).
    pose proof (at_pc_nonneg W_Inside l). pose proof (at_pc_nonneg W_V l).
    repeat split; intros; lia. }
  split; [exact reader_enter_waits|].
  split; [exact reader_exit_waits|].
  split.
  { intros n n' H. apply reader_enter_effect in H. tauto. }
  split.
  { intros n n' H. apply reader_exit_effect in H. tauto. }
  split.
  - intros n n' (H0 & H1 & H2) H.
    apply reader_enter_effect in H as (_ & Hl & _ & Hc & Hw).
    unfold node_inv. rewrite Hl, Hc. destruct (lectores n =? 0) eqn:E.
    + apply Z.eqb_eq in E. specialize (Hw E). lia.
    + apply Z.eqb_neq in E. lia.
  - intros n n' (H0 & H1 & H2) Hpos H.
    apply reader_exit_effect in H as (_ & Hl & _ & Hc).
    unfold node_inv. rewrite Hl, Hc. destruct (lectores n =? 1) eqn:E.
    + apply Z.eqb_eq in E. lia.
    + apply Z.eqb_neq in E. lia.
Qed.

Lemma one_reading_reachable : reachable "a" 5 2 one_reading.
Proof.
  apply (run_thread_reachable "a" 5 2 false 1 1
           (mkSystem (mkNode "a" 5 0 false 1 1 0) [R_Inside; Idle])).
  - apply (run_thread_reachable "a" 5 2 true 6 0 (initial "a" 5 2)).
    + constructor.
    + reflexivity.
  - reflexivity.
Qed.

Lemma reader_writer_invariant_witness :
  (Can_Write (node one_reading) = 0 /\
   at_pc W_Inside (threads one_reading) = 0) /\
  (let n := new_node "a" 5 in
   let n' := mkNode "a" 5 0 false 1 1 0 in
   reader_enter n = Some n' /\
   (lectores n' = lectores n + 1 /\ Can_Read n' = Can_Read n /\
    Can_Write n'
    = (if lectores n =? 0 then Can_Write n - 1 else Can_Write n)) /\
   node_inv n' /\
   (exists n'', reader_exit n' = Some n'' /\ node_inv n'')).
Proof.
  pose proof reader_writer_invariant
    as (Hreach & _ & _ & Henter & _ & Hin & Hout).
  split.
  - apply (proj1 (Hreach "a" 5 2%nat one_reading one_reading_reachable));
      reflexivity.
  - cbv zeta.
    assert (Hinv : node_inv (new_node "a" 5)) by (unfold node_inv; cbn; lia).
    assert (E : reader_enter (new_node "a" 5)
                = Some (mkNode "a" 5 0 false 1 1 0)) by reflexivity.
    split; [exact E|]. split; [exact (Henter _ _ E)|].
    split; [exact (Hin _ _ Hinv E)|].
    exists (new_node "a" 5). split; [reflexivity|].
    apply (Hout (mkNode "a" 5 0 false 1 1 0) (new_node "a" 5));
      [exact (Hin _ _ Hinv E)|cbn; lia|reflexivity].
Defined.

End CoordinatorProps.


(* ================================================================== *)
(** * The code run on concrete disks *)
(* ================================================================== *)

Module Scenarios.
Import Machine FileHeader Disk Kernel FS Fixtures.

(** ** C3 *)

(** C3 at its failing input.  The file ["/a"] is empty; [WriteAt] of
    128 bytes at offset [Length = 0] succeeds and leaves a file of 129
    bytes on two sectors, where one sector covers the 128 bytes; a
    second handle sees the length 129. *)
Theorem extend_one_byte_too_many (heap : list byte) :
  write_on_a heap 0 128 0
  = Ok (128, mkRaw 129 2 [6; 7]) /\
  DivRoundUp (0 + 128) SECTOR_SIZE = 1 /\
  (r <- with_a 0 ;;
   let '(st, h) := r in
   w <- WriteAt heap st h (replicate 128 Byte.x2a) 128 0 ;;
   let '(st, _, _) := w in
   r <- Open 1 st "/a" ;;
   match snd r with
   | Some h' => Ok (fst (Length (fst r) h'))
   | None => MemFault
   end) = Ok 129.
Proof. split_and!; vm_compute; reflexivity. Qed.

(** ** C7 *)

(** C7 at its failing input.  The file ["/a"] is empty and 4000 bytes
    need more than [NUM_DIRECT] sectors, so [Expand] fails; [WriteAt]
    at [position = Length] clamps the count to 0 and the
    [ASSERT(numBytes > 0)] of [Internal_WriteAt] fails.  One byte
    further the same call answers 0, and inside the file it answers
    the short count. *)
Theorem truncated_write_aborts (heap : list byte) :
  (r <- with_a 0 ;; Ok (fst (Expand (fst r) (sector (snd r)) 4001)))
  = Ok false /\
  write_on_a heap 0 4000 0 = AssertFail /\
  write_on_a heap 0 4000 1 = Ok (0, mkRaw 0 0 []) /\
  write_on_a heap 200 4000 200 = AssertFail /\
  write_on_a heap 200 4000 150 = Ok (50, mkRaw 200 2 [6; 7]).
Proof. split_and!; vm_compute; reflexivity. Qed.

(** ** C8 *)

(** C8 at its failing input.  The root has no directory ["nodir"]:
    [OpenPath] answers null and [Open] follows the null pointer, where
    [Create] on the same path answers false. *)
Theorem open_missing_component_faults :
  OpenPath (delete_OpenFile 1) formatted "/nodir/a"
  = Ok (formatted, None) /\
  Open 1 formatted "/nodir/a" = MemFault /\
  Create 1 formatted "/nodir/a" 0 = Ok (false, formatted).
Proof. split_and!; vm_compute; reflexivity. Qed.

End Scenarios.


(* ================================================================== *)
(** * The file system: failure of [Create], removal of the root *)
(* ================================================================== *)

Module FileSystemProps.
Import Machine FileHeader Disk Kernel FS Fixtures Dirs.

(** ** Deleting a handle while nothing is marked for removal *)

Lemma delete_OpenFile_no_pending fuel f st :
  no_pending (filetable st) ->
  exists st',
    delete_OpenFile fuel f st = Ok st' /\
    synchDisk st' = synchDisk st /\ freeMapStore st' = freeMapStore st /\
    dirStore st' = dirStore st /\ currentPath st' = currentPath st /\
    no_pending (filetable st').
Proof.
  intros Hnp.
  assert (Hstore : forall n,
    filetable st !! sector f = Some n ->
    no_pending (Filetable.store (filetable st) (sector f)
                  (Filetable.set_users (Filetable.users n - 1) n))).
  { intros n E s n' Hs. unfold Filetable.store in Hs.
    destruct (decide (sector f = s)) as [<-|Hne].
    - rewrite lookup_insert_eq in Hs. injection Hs as <-. cbn.
      exact (Hnp _ _ E).
    - rewrite lookup_insert_ne in Hs by assumption. exact (Hnp _ _ Hs). }
  destruct fuel; cbn [delete_OpenFile]; unfold Filetable.find;
    (destruct (filetable st !! sector f) as [n|] eqn:E;
      [|exists st; repeat split; assumption]);
    cbn; rewrite (Hnp _ _ E); cbn;
    (eexists; split; [reflexivity|]; cbn; repeat split);
    apply Hstore; reflexivity.
Qed.

Lemma OpenPath_loop_no_pending fuel idx path p dir sec st :
  no_pending (filetable st) ->
  exists st' r,
    OpenPath_loop (delete_OpenFile fuel) idx path p dir sec st = Ok (st', r) /\
    synchDisk st' = synchDisk st /\ freeMapStore st' = freeMapStore st /\
    dirStore st' = dirStore st.
Proof.
  revert path p dir sec st.
  induction idx as [|i idx IH]; intros path p dir sec st Hnp; cbn.
  - eauto 10.
  - destruct (Path.is_slash (path !! i)); [|apply IH; assumption].
    destruct (_ =? -1); [eauto 10|].
    match goal with
    | |- context [delete_OpenFile fuel ?f st] =>
        destruct (delete_OpenFile_no_pending fuel f st Hnp)
          as (st1 & -> & Hd & Hm & Hs & _ & Hnp1)
    end.
    cbn. rewrite <- Hd, <- Hm, <- Hs. apply IH. assumption.
Qed.

(** [OpenPath] while nothing is marked for removal. *)
Lemma OpenPath_no_pending fuel st path st' d :
  no_pending (filetable st) ->
  OpenPath (delete_OpenFile fuel) st path = Ok (st', d) ->
  freeMapStore st' = freeMapStore st /\ dirStore st' = dirStore st /\
  synchDisk st' = synchDisk st.
Proof.
  intros Hnp Hd. unfold OpenPath in Hd.
  destruct (CheckRoot st path) as [p| | | |]; cbn [bind] in Hd;
    try discriminate.
  match type of Hd with
  | OpenPath_loop _ ?idx ?pa ?p ?dir ?sec _ = _ =>
      destruct (OpenPath_loop_no_pending fuel idx pa p dir sec st Hnp)
        as (st2 & r & E & H1 & H2 & H3)
  end.
  rewrite E in Hd. injection Hd as <- _. auto.
Qed.

(** ** C6 *)

(** C6. When [Create] answers false it has written nothing after the
    parent was resolved: the state is the one [OpenPath] left, and if
    no file is marked for removal the free map, the directories and
    the sectors on disk are those before the call.  With the parent
    resolved and the name free, [Create] answers false when no sector
    is free for the header, when the directory is full and when the
    data sectors cannot be allocated; when it answers true, each of
    the three steps has succeeded. *)
Theorem create_failure_atomic :
  (forall fuel st path size st',
     Create fuel st path size = Ok (false, st') ->
     (exists p d,
        CheckRoot st path = Ok p /\
        OpenPath (delete_OpenFile fuel) st p = Ok (st', d)) /\
     (no_pending (filetable st) ->
        freeMapStore st' = freeMapStore st /\ dirStore st' = dirStore st /\
        synchDisk st' = synchDisk st)) /\
  (forall fuel st path size p st1 dir dir_sector name sec freeMap,
     CheckRoot st path = Ok p ->
     OpenPath (delete_OpenFile fuel) st p
     = Ok (st1, Some (dir, dir_sector)) ->
     getName p = Ok name ->
     Directory.Find dir name true = -1 ->
     Directory.Find dir name false = -1 ->
     Bitmap.Find (Bitmap_FetchFrom st1) = (sec, freeMap) ->
     sec = -1 \/ fst (Directory.Add dir name sec false) = false \/
     Allocate freeMap size = None ->
     Create fuel st path size = Ok (false, st1)) /\
  (forall fuel st path size st',
     Create fuel st path size = Ok (true, st') ->
     exists p st1 dir dir_sector name sec freeMap dir' freeMap' header,
       CheckRoot st path = Ok p /\
       OpenPath (delete_OpenFile fuel) st p
       = Ok (st1, Some (dir, dir_sector)) /\
       getName p = Ok name /\
       Bitmap.Find (Bitmap_FetchFrom st1) = (sec, freeMap) /\ sec <> -1 /\
       Directory.Add dir name sec false = (true, dir') /\
       Allocate freeMap size = Some (freeMap', header)).
Proof.
  split; [|split].
  - intros fuel st path size st' H.
    assert (Hex : exists p d,
      CheckRoot st path = Ok p /\
      OpenPath (delete_OpenFile fuel) st p = Ok (st', d)).
    { unfold Create, Create_with in H.
      destruct (CheckRoot st path) as [p| | | |]; cbn [bind] in H;
        try discriminate.
      destruct (OpenPath _ st p) as [[st1 d]| | | |] eqn:Eop; cbn in H;
        try discriminate.
      destruct (getName _) as [name| | | |]; cbn in H; try discriminate.
      destruct d as [[dir ds]|]; [|injection H as <-; eauto].
      destruct (_ || _); [injection H as <-; eauto|].
      destruct (Bitmap.Find (Bitmap_FetchFrom st1)) as [sec fm].
      destruct (sec =? -1); [injection H as <-; eauto|].
      destruct (Directory.Add _ _ _ _) as [added dir'].
      destruct added; cbn in H; [|injection H as <-; eauto].
      destruct (Allocate _ _) as [[fm' hd]|]; [|injection H as <-; eauto].
      destruct (flush_directory _ _ _ _); cbn in H; discriminate. }
    split; [exact Hex|]. intros Hnp. destruct Hex as (p & d & _ & Hd).
    exact (OpenPath_no_pending fuel st p st' d Hnp Hd).
  - intros fuel st path size p st1 dir ds name sec fm Hp Hop Hn Hf1 Hf2 Efind
      Hfail.
    unfold Create, Create_with. rewrite Hp. cbn [bind].
    rewrite Hop. cbn. rewrite Hn. cbn.
    rewrite Hf1, Hf2. cbn. rewrite Efind.
    destruct (sec =? -1) eqn:Es; [reflexivity|].
    apply Z.eqb_neq in Es.
    destruct (Directory.Add dir name sec false) as [added dir'].
    destruct added; cbn; [|reflexivity].
    destruct Hfail as [?|[Hadd| ->]]; [contradiction|discriminate|].
    reflexivity.
  - intros fuel st path size st' H. unfold Create, Create_with in H.
    destruct (CheckRoot st path) as [p| | | |] eqn:Ep; cbn [bind] in H;
      try discriminate.
    destruct (OpenPath _ st p) as [[st1 d]| | | |] eqn:Eop; cbn in H;
      try discriminate.
    destruct (getName _) as [name| | | |] eqn:En; cbn in H;
      try discriminate.
    destruct d as [[dir ds]|]; [|discriminate].
    destruct (_ || _); [discriminate|].
    destruct (Bitmap.Find _) as [sec fm] eqn:Efind.
    destruct (sec =? -1) eqn:Es; [discriminate|]. apply Z.eqb_neq in Es.
    destruct (Directory.Add _ _ _ _) as [added dir'] eqn:Eadd.
    destruct added; cbn in H; [|discriminate].
    destruct (Allocate _ _) as [[fm' hd]|] eqn:Eal; [|discriminate].
    exists p, st1, dir, ds, name, sec, fm, dir', fm', hd. auto 10.
Qed.

Lemma create_failure_atomic_witness :
  Create 1 formatted "/big" 4000 = Ok (false, formatted) /\
  freeMapStore formatted = freeMapStore formatted /\
  dirStore formatted = dirStore formatted /\
  synchDisk formatted = synchDisk formatted.
Proof.
  assert (H : Create 1 formatted "/big" 4000 = Ok (false, formatted)).
  { apply (proj1 (proj2 create_failure_atomic) 1%nat formatted "/big" 4000
             "/big"%string
             formatted (Directory_FetchFrom formatted (directoryFile formatted))
             DIRECTORY_SECTOR "big"%string 5
             (Bitmap.Mark 5 (freeMapStore formatted)));
      try (vm_compute; reflexivity).
    right. right. vm_compute. reflexivity. }
  split; [exact H|].
  apply (proj2 (proj1 create_failure_atomic 1%nat formatted "/big" 4000
                  formatted H)).
  intros s n Hs. vm_compute in Hs. discriminate.
Defined.

(** ** C10 *)

(** What [CheckRoot] hands back for the empty path with the current
    thread at the root: the ['/'] it copied and the bytes that lay
    behind it in the heap. *)
Lemma CheckRoot_empty_at_root j :
  Path.CheckRoot j "/" ""
  = Path.cstring
      (Path.slash :: map (fun i => default Path.NUL (j !! i)) (seq 1 17)).
Proof. reflexivity. Qed.

Lemma cstring_slash_NUL rest :
  Path.cstring (Path.slash :: Path.NUL :: rest) = Some "/"%string.
Proof. reflexivity. Qed.

Lemma cstring_slash_more c rest p :
  c <> Path.NUL ->
  Path.cstring (Path.slash :: c :: rest) = Some p -> p <> "/"%string.
Proof.
  intros Hc. unfold Path.cstring.
  destruct (existsb _ _); [|discriminate]. intros [= <-].
  cbn [Path.until_NUL]. change (Ascii.eqb Path.slash Path.NUL) with false.
  cbn match. destruct (Ascii.eqb c Path.NUL) eqn:E.
  - apply Ascii.eqb_eq in E. contradiction.
  - cbn. discriminate.
Qed.

(** [RemoveDir] answers false only as its first statement. *)
Lemma RemoveDir_false fuel st path r :
  RemoveDir fuel st path = Ok (false, r) -> CheckRoot st path = Ok "/"%string.
Proof.
  unfold RemoveDir, RemoveDir_with. intros H.
  destruct (CheckRoot st path) as [p| | | |]; cbn [bind] in H;
    try discriminate.
  destruct (bool_decide (p = "/"%string)) eqn:E.
  - apply bool_decide_eq_true in E. now subst p.
  - destruct (getName p) as [name| | | |]; cbn [bind] in H; try discriminate.
    destruct (OpenPath _ st p) as [[st1 d]| | | |]; cbn [bind] in H;
      try discriminate.
    destruct d as [[dir ds]|]; [|discriminate].
    destruct (Directory.Remove dir name) as [fs dir'].
    match type of H with
    | bind ?m _ = _ => destruct m as [fm| | | |]
    end; cbn [bind] in H; try discriminate.
    destruct (flush_directory _ _ _ _) as [st2| | | |]; cbn [bind] in H;
      discriminate.
Qed.

(** C10. [RemoveDir("/")] answers false and leaves the state as it
    was, wherever the current thread is.  For the empty relative path
    and a thread at the root, [CheckRoot] copies ["/"] into a buffer it
    never terminates, so the test on ["/"] passes only when the byte
    that lay behind in the heap is NUL; with any other byte
    [RemoveDir] never answers false.  On the formatted disk with the
    bytes ["x"] behind, [RemoveDir("")] answers true; on the disk with
    the directory ["/usr"] and the bytes ["usr"] behind, it answers
    true and ["usr"] is gone from the root, its header sector given
    back to the free map. *)
Theorem root_removal_empty_path :
  (forall fuel st, RemoveDir fuel st "/" = Ok (false, st)) /\
  (forall fuel st,
     currentPath st = "/"%string ->
     default Path.NUL (junk st !! 1%nat) = Path.NUL ->
     RemoveDir fuel st "" = Ok (false, st)) /\
  (forall fuel st r,
     currentPath st = "/"%string ->
     default Path.NUL (junk st !! 1%nat) <> Path.NUL ->
     RemoveDir fuel st "" <> Ok (false, r)) /\
  (exists st',
     RemoveDir 1 (set_junk (list_ascii_of_string "/x") formatted) ""
     = Ok (true, st')) /\
  (let st := set_junk (list_ascii_of_string "/usr") Trees.usr_made in
   exists st',
     Directory.Find (root st) "usr" true = 5 /\
     Bitmap.Test (freeMapStore st) 5 = true /\
     RemoveDir 1 st "" = Ok (true, st') /\
     Directory.Find (root st') "usr" true = -1 /\
     Bitmap.Test (freeMapStore st') 5 = false).
Proof.
  split_and!.
  - intros fuel st. reflexivity.
  - intros fuel st Hcwd Hj. unfold RemoveDir, RemoveDir_with, CheckRoot.
    rewrite Hcwd, CheckRoot_empty_at_root. cbn [seq map].
    rewrite Hj, cstring_slash_NUL. reflexivity.
  - intros fuel st r Hcwd Hj H. apply RemoveDir_false in H.
    unfold CheckRoot in H.
    rewrite Hcwd, CheckRoot_empty_at_root in H. cbn [seq map] in H.
    destruct (Path.cstring _) as [p|] eqn:E; [|discriminate].
    injection H as ->. exact (cstring_slash_more _ _ _ Hj E eq_refl).
  - eexists. vm_compute. reflexivity.
  - eexists. split_and!; vm_compute; reflexivity.
Qed.

Lemma root_removal_empty_path_witness :
  RemoveDir 1 formatted "" = Ok (false, formatted) /\
  RemoveDir 1 (set_junk (list_ascii_of_string "/x") formatted) ""
  <> Ok (false, formatted).
Proof.
  split.
  - apply (proj1 (proj2 root_removal_empty_path) 1%nat formatted);
      reflexivity.
  - apply (proj1 (proj2 (proj2 root_removal_empty_path)) 1%nat
             (set_junk (list_ascii_of_string "/x") formatted) formatted);
      [reflexivity|]. vm_compute. discriminate.
Defined.

End FileSystemProps.


(* ================================================================== *)
(** * Removal of a file that is open *)
(* ================================================================== *)

Module UnlinkProps.
Import Machine FileHeader Disk Kernel FS Fixtures.

(** ** The walk to the root *)

Lemma OpenPath_a_eq del st :
  OpenPath del st "/a"
  = Ok (st, Some (Directory_FetchFrom st (directoryFile st),
                  DIRECTORY_SECTOR)).
Proof. reflexivity. Qed.

(** ** C2 *)




End UnlinkProps.


(* ================================================================== *)
(** * Allocation of sectors and directory entries *)
(* ================================================================== *)

Module AllocProps.
Import Machine FileHeader.

Lemma first_clear_Some m : forall i j,
  Bitmap.first_clear m i = Some j ->
  exists k : nat, j = i + Z.of_nat k /\ m !! k = Some false.
Proof.
  induction m as [|b m IH]; intros i j H; cbn in H; [discriminate|].
  destruct b.
  - apply IH in H as (k & -> & Hk). exists (S k). split; [lia|exact Hk].
  - injection H as <-. exists O. split; [lia|reflexivity].
Qed.

Lemma first_clear_None m : forall i,
  Bitmap.first_clear m i = None -> Bitmap.CountClear m = 0.
Proof.
  unfold Bitmap.CountClear.
  induction m as [|b m IH]; intros i H; cbn in H; [reflexivity|].
  destruct b; [|discriminate].
  rewrite filter_cons_False by discriminate. exact (IH _ H).
Qed.

Lemma CountClear_nonneg m : 0 <= Bitmap.CountClear m.
Proof. unfold Bitmap.CountClear. lia. Qed.

Lemma CountClear_mark (m : list bool) (k : nat) :
  m !! k = Some false ->
  Bitmap.CountClear (<[k := true]> m) = Bitmap.CountClear m - 1.
Proof.
  unfold Bitmap.CountClear. revert k.
  induction m as [|b m IH]; intros [|k] H; cbn in H; try discriminate.
  - injection H as ->. change (<[0%nat := true]> (false :: m)) with (true :: m).
    rewrite filter_cons_False by discriminate.
    rewrite filter_cons_True by reflexivity. cbn [length]. lia.
  - change (<[S k := true]> (b :: m)) with (b :: <[k := true]> m).
    specialize (IH _ H). destruct b.
    + rewrite !filter_cons_False by discriminate. exact IH.
    + rewrite !filter_cons_True by reflexivity. cbn [length].
      rewrite !Nat2Z.inj_succ, IH. lia.
Qed.

Lemma Test_mark_mono (m : list bool) (k : nat) j :
  Bitmap.Test m j = true -> Bitmap.Test (<[k := true]> m) j = true.
Proof.
  unfold Bitmap.Test. destruct (j <? 0); [auto|]. intros H.
  destruct (decide (k = Z.to_nat j)) as [->|Hne].
  - destruct (decide (Z.to_nat j < length m)%nat).
    + now rewrite list_lookup_insert_eq.
    + now rewrite list_insert_ge by lia.
  - now rewrite list_lookup_insert_ne.
Qed.

Lemma Test_mark_same (m : list bool) (k : nat) :
  (k < length m)%nat -> Bitmap.Test (<[k := true]> m) (Z.of_nat k) = true.
Proof.
  intros H. unfold Bitmap.Test.
  replace (Z.of_nat k <? 0) with false by (symmetry; apply Z.ltb_ge; lia).
  rewrite Nat2Z.id. now rewrite list_lookup_insert_eq.
Qed.

(** [Find]: either every bit is set, or the bit found was clear and is
    now set. *)
Lemma Find_spec m j m' :
  Bitmap.Find m = (j, m') ->
  (j = -1 /\ m' = m /\ Bitmap.CountClear m = 0) \/
  (exists k : nat,
     j = Z.of_nat k /\ m !! k = Some false /\ m' = <[k := true]> m).
Proof.
  unfold Bitmap.Find. destruct (Bitmap.first_clear m 0) as [i|] eqn:E.
  - intros [= <- <-]. right.
    apply first_clear_Some in E as (k & -> & Hk). exists k.
    split; [lia|]. split; [exact Hk|]. unfold Bitmap.Mark.
    replace (0 + Z.of_nat k <? 0) with false
      by (symmetry; apply Z.ltb_ge; lia).
    f_equal. lia.
  - intros [= <- <-]. left. split; [reflexivity|]. split; [reflexivity|].
    exact (first_clear_None _ _ E).
Qed.

Lemma Test_lookup_false (m : list bool) (k : nat) :
  m !! k = Some false -> Bitmap.Test m (Z.of_nat k) = false.
Proof.
  intros H. unfold Bitmap.Test. destruct (Z.of_nat k <? 0); [reflexivity|].
  now rewrite Nat2Z.id, H.
Qed.

(** [n] sectors taken one after the other from a map with [n] clear
    bits: they were clear, are set now, differ from one another, and
    no bit was cleared. *)
Lemma FindMany_spec n : forall m secs m',
  Z.of_nat n <= Bitmap.CountClear m ->
  Bitmap.FindMany n m = (secs, m') ->
  length secs = n /\ NoDup secs /\
  (forall s, s ∈ secs -> Bitmap.Test m s = false /\ Bitmap.Test m' s = true) /\
  (forall j, Bitmap.Test m j = true -> Bitmap.Test m' j = true).
Proof.
  induction n as [|n IH]; intros m secs m' Hc H; cbn in H.
  - injection H as <- <-. split; [reflexivity|]. split; [apply NoDup_nil_2|].
    split; [intros s Hs; inversion Hs|auto].
  - destruct (Bitmap.Find m) as [i m1] eqn:Ef.
    destruct (Bitmap.FindMany n m1) as [rest m2] eqn:Er.
    injection H as <- <-.
    apply Find_spec in Ef as [(_ & _ & Hz)|(k & -> & Hk & ->)]; [lia|].
    pose proof (lookup_lt_Some _ _ _ Hk) as Hlt.
    destruct (IH _ _ _ ltac:(rewrite (CountClear_mark _ _ Hk); lia) Er)
      as (Hlen & Hnd & Hs & Hmono).
    assert (Hk1 : Bitmap.Test m2 (Z.of_nat k) = true)
      by (apply Hmono, Test_mark_same, Hlt).
    split; [cbn; lia|]. split; [|split].
    + constructor; [|exact Hnd]. intros Hin.
      destruct (Hs _ Hin) as [Hf _].
      rewrite Test_mark_same in Hf by exact Hlt. discriminate.
    + intros s Hin. apply elem_of_cons in Hin as [->|Hin].
      * split; [now apply Test_lookup_false|exact Hk1].
      * destruct (Hs _ Hin) as [Hf Ht]. split; [|exact Ht].
        destruct (Bitmap.Test m s) eqn:E; [|reflexivity].
        rewrite (Test_mark_mono _ k _ E) in Hf. discriminate.
    + intros j Hj. apply Hmono. now apply Test_mark_mono.
Qed.

(** ** Directory entries *)

Lemma index_where_None f (d : list Directory.DirectoryEntry) :
  Directory.index_where f d = None -> forall e, e ∈ d -> f e = false.
Proof.
  induction d as [|x d IH]; intros H e He; [inversion He|].
  cbn in H. destruct (f x) eqn:Ex; [discriminate|].
  destruct (Directory.index_where f d); [discriminate|].
  apply elem_of_cons in He as [->|He]; [exact Ex|]. now apply IH.
Qed.

Lemma index_where_Some f (d : list Directory.DirectoryEntry) i :
  Directory.index_where f d = Some i ->
  exists e, d !! i = Some e /\ f e = true.
Proof.
  revert i. induction d as [|x d IH]; intros i H; cbn in H; [discriminate|].
  destruct (f x) eqn:Ex.
  - injection H as <-. now exists x.
  - destruct (Directory.index_where f d) as [j|]; [|discriminate].
    injection H as <-. destruct (IH j eq_refl) as (e & He & Hf).
    now exists e.
Qed.

Lemma filter_none {A} (P : A -> Prop) `{forall x, Decision (P x)} (l : list A) :
  (forall x, x ∈ l -> ~ P x) -> filter P l = [].
Proof.
  induction l as [|y l IH]; intros Hl; [reflexivity|].
  rewrite filter_cons_False by (apply Hl; apply elem_of_cons; now left).
  apply IH. intros x Hx. apply Hl. apply elem_of_cons. now right.
Qed.

(** A name just added is found, at the sector it was added with. *)
Lemma Find_Add d n sec d' :
  Directory.Add d n sec false = (true, d') ->
  Directory.Find d' n false = sec.
Proof.
  unfold Directory.Add.
  destruct (Directory.index_where (Directory.named n) d) eqn:En;
    [discriminate|].
  destruct (Directory.index_where (fun e => negb (Directory.inUse e)) d)
    as [i|] eqn:Ei; [|discriminate].
  intros [= <-]. pose proof (index_where_None _ _ En) as Hnone.
  apply index_where_Some in Ei as (e & He & _).
  unfold Directory.Find.
  set (P := fun e : Directory.DirectoryEntry =>
              Directory.named n e && Bool.eqb (Directory.isDir e) false).
  assert (Hf : forall (l : list Directory.DirectoryEntry) j x,
    (forall e, e ∈ l -> Directory.named n e = false) ->
    l !! j = Some x ->
    filter P (<[j := Directory.mkEntry true false n sec]> l)
    = [Directory.mkEntry true false n sec]).
  { induction l as [|y l IH]; intros [|j] x Hl Hx; cbn in Hx;
      try discriminate.
    - change (<[0%nat := Directory.mkEntry true false n sec]> (y :: l))
        with (Directory.mkEntry true false n sec :: l).
      rewrite filter_cons_True.
      2:{ unfold P, Directory.named. cbn.
          now rewrite bool_decide_eq_true_2. }
      f_equal. apply filter_none. intros z Hz HP.
      unfold P in HP. rewrite (Hl z) in HP; [exact HP|].
      apply elem_of_cons. now right.
    - change (<[S j := Directory.mkEntry true false n sec]> (y :: l))
        with (y :: <[j := Directory.mkEntry true false n sec]> l).
      rewrite filter_cons_False.
      2:{ unfold P. rewrite (Hl y); [auto|]. apply elem_of_cons. now left. }
      apply (IH j x); [|exact Hx]. intros z Hz. apply Hl.
      apply elem_of_cons. now right. }
  pose proof (Hf d i e Hnone He) as E. subst P. cbv beta in E.
  now rewrite E.
Qed.

End AllocProps.


(* ================================================================== *)
(** * Sectors written and read back *)
(* ================================================================== *)

Module SectorProps.
Import Machine FileHeader Disk Kernel FS.

Lemma u32_small z : 0 <= z < 4294967296 -> u32 z = z.
Proof. intros H. unfold u32. now apply Z.mod_small. Qed.

Lemma u32_nonneg z : 0 <= u32 z.
Proof. unfold u32. apply Z.mod_pos_bound. reflexivity. Qed.

Lemma length_ReadSector d s :
  length (ReadSector d s) = Z.to_nat SECTOR_SIZE.
Proof. unfold ReadSector. apply length_resize. Qed.

Lemma length_new_char heap n : length (new_char heap n) = Z.to_nat n.
Proof. unfold new_char. now rewrite length_map, length_seq. Qed.

Lemma length_overlay (buf : list byte) off data :
  0 <= off -> (Z.to_nat off + length data <= length buf)%nat ->
  length (overlay buf off data) = length buf.
Proof.
  intros H0 H. unfold overlay.
  rewrite !length_app, length_take, length_drop. lia.
Qed.

Lemma overlay_slice (buf : list byte) off data :
  0 <= off -> (Z.to_nat off <= length buf)%nat ->
  take (length data) (drop (Z.to_nat off) (overlay buf off data)) = data.
Proof.
  intros H0 H. unfold overlay.
  rewrite drop_app_length' by (rewrite length_take; lia).
  now rewrite take_app_length.
Qed.

(** ** The sectors of a file, cut out of a buffer and put back *)

Lemma flat_map_fmap {A B C} (f : B -> list C) (g : A -> B) (l : list A) :
  flat_map f (g <$> l) = flat_map (fun x => f (g x)) l.
Proof. induction l as [|x l IH]; cbn; [reflexivity|]. now rewrite IH. Qed.

Lemma flat_map_ext_elem {A B} (f g : A -> list B) (l : list A) :
  (forall x, x ∈ l -> f x = g x) -> flat_map f l = flat_map g l.
Proof.
  induction l as [|x l IH]; intros H; cbn; [reflexivity|].
  rewrite H by (apply elem_of_cons; now left).
  rewrite IH; [reflexivity|]. intros y Hy. apply H, elem_of_cons. now right.
Qed.

Lemma length_flat_map_const {A B} (f : A -> list B) (l : list A) (k : nat) :
  (forall x, length (f x) = k) ->
  length (flat_map f l) = (length l * k)%nat.
Proof.
  intros H. induction l as [|x l IH]; cbn; [reflexivity|].
  rewrite length_app, H, IH. lia.
Qed.

Lemma chunks_concat (k : nat) : forall (n : nat) (buf : list byte),
  length buf = (n * k)%nat ->
  flat_map (fun j : nat => take k (drop (j * k) buf)) (seq 0 n) = buf.
Proof.
  induction n as [|n IH]; intros buf Hlen.
  - cbn in *. symmetry. now apply nil_length_inv.
  - cbn [seq flat_map]. transitivity (take k buf ++ drop k buf);
      [|apply take_drop].
    f_equal. rewrite <- seq_shift.
    change (map S (seq 0 n)) with (S <$> seq 0 n).
    rewrite flat_map_fmap.
    etransitivity;
      [|apply (IH (drop k buf)); rewrite length_drop; lia].
    apply flat_map_ext_elem. intros j _. rewrite drop_drop.
    reflexivity.
Qed.

(** Sectors written one after the other, no two the same. *)
Lemma write_fold_other (idx : list Z) g (c : Z -> list byte) : forall d s,
  s ∉ (g <$> idx) ->
  fold_left (fun d i => WriteSector d (g i) (c i)) idx d !! s = d !! s.
Proof.
  induction idx as [|j idx IH]; intros d s Hs; cbn; [reflexivity|].
  rewrite fmap_cons in Hs. apply not_elem_of_cons in Hs as [Hne Hs].
  rewrite IH by exact Hs. unfold WriteSector.
  now rewrite lookup_insert_ne.
Qed.

Lemma write_fold_lookup (idx : list Z) g (c : Z -> list byte) : forall d i,
  NoDup (g <$> idx) -> i ∈ idx ->
  fold_left (fun d i => WriteSector d (g i) (c i)) idx d !! g i
  = Some (DataBytes (c i)).
Proof.
  induction idx as [|j idx IH]; intros d i Hnd Hi; [inversion Hi|].
  rewrite fmap_cons in Hnd. apply NoDup_cons in Hnd as [Hj Hnd]. cbn.
  destruct (decide (i ∈ idx)) as [Hin|Hout].
  - now apply IH.
  - apply elem_of_cons in Hi as [->|Hi]; [|contradiction].
    rewrite write_fold_other by exact Hj. unfold WriteSector.
    apply lookup_insert_eq.
Qed.

Section File.

Variable f : OpenFile.
Let ds := dataSectors (hdr f).
Hypothesis Hnd : NoDup ds.
Hypothesis Hmax : Z.of_nat (length ds) <= NUM_DIRECT.

Lemma ByteToSector_index i :
  0 <= i < Z.of_nat (length ds) ->
  ds !! Z.to_nat i = Some (ByteToSector (hdr f) (u32 (i * SECTOR_SIZE))).
Proof.
  intros Hi. unfold ByteToSector, NUM_DIRECT, SECTOR_SIZE in *.
  rewrite u32_small by lia. rewrite Z.div_mul by lia.
  destruct (lookup_lt_is_Some_2 ds (Z.to_nat i) ltac:(lia)) as [s Hs].
  fold ds. now rewrite Hs.
Qed.

Lemma ByteToSector_elem i :
  0 <= i < Z.of_nat (length ds) ->
  ByteToSector (hdr f) (u32 (i * SECTOR_SIZE)) ∈ ds.
Proof.
  intros Hi. eapply list_elem_of_lookup_2. now apply ByteToSector_index.
Qed.

Lemma ByteToSector_NoDup first cnt :
  0 <= first -> first + cnt <= Z.of_nat (length ds) ->
  NoDup ((fun i => ByteToSector (hdr f) (u32 (i * SECTOR_SIZE)))
           <$> seqZ first cnt).
Proof.
  intros H0 H1. apply NoDup_fmap_2_strong; [|apply NoDup_seqZ].
  intros x y Hx Hy E.
  apply elem_of_seqZ in Hx, Hy.
  pose proof (ByteToSector_index x ltac:(lia)) as Ex.
  pose proof (ByteToSector_index y ltac:(lia)) as Ey.
  rewrite E in Ex. pose proof (NoDup_lookup _ _ _ _ Hnd Ex Ey). lia.
Qed.

(** What [write_sectors] leaves is what [read_sectors] finds. *)
Lemma read_after_write st (buf : list byte) first last :
  0 <= first <= last -> last < Z.of_nat (length ds) ->
  length buf = Z.to_nat ((last - first + 1) * SECTOR_SIZE) ->
  read_sectors
    (set_synchDisk (write_sectors f buf first last (synchDisk st)) st)
    f first last
  = buf.
Proof.
  intros Hfl Hlast Hlen. unfold read_sectors, write_sectors.
  cbn [synchDisk set_synchDisk].
  set (g := fun i => ByteToSector (hdr f) (u32 (i * SECTOR_SIZE))).
  set (c := fun i : Z =>
    take (Z.to_nat SECTOR_SIZE)
      (drop (Z.to_nat ((i - first) * SECTOR_SIZE)) buf)).
  set (idx := seqZ first (last - first + 1)).
  rewrite (flat_map_ext_elem _ c).
  - subst idx c. unfold seqZ. rewrite flat_map_fmap.
    etransitivity;
      [|apply (chunks_concat (Z.to_nat SECTOR_SIZE)
                 (Z.to_nat (last - first + 1)) buf);
        rewrite Hlen; unfold SECTOR_SIZE; lia].
    apply flat_map_ext_elem. intros j _. do 2 f_equal.
    unfold SECTOR_SIZE. lia.
  - intros i Hi. unfold ReadSector.
    assert (E := write_fold_lookup idx g c (synchDisk st) i
                   ltac:(apply ByteToSector_NoDup; lia) Hi).
    subst g c idx. cbv beta in E. cbv beta. rewrite E.
    apply resize_all_alt. apply elem_of_seqZ in Hi.
    rewrite length_take, length_drop, Hlen. unfold SECTOR_SIZE. lia.
Qed.

(** Sectors outside the file are left alone. *)
Lemma write_sectors_other (buf : list byte) first last d s :
  0 <= first -> last < Z.of_nat (length ds) -> s ∉ ds ->
  write_sectors f buf first last d !! s = d !! s.
Proof.
  intros H0 Hl Hs. unfold write_sectors.
  apply (write_fold_other _
           (fun i => ByteToSector (hdr f) (u32 (i * SECTOR_SIZE)))
           (fun i => take (Z.to_nat SECTOR_SIZE)
                       (drop (Z.to_nat ((i - first) * SECTOR_SIZE)) buf))).
  intros Hin. apply list_elem_of_fmap in Hin as (i & -> & Hi).
  apply elem_of_seqZ in Hi. apply Hs, ByteToSector_elem. lia.
Qed.

End File.

Lemma length_read_sectors st f first last :
  length (read_sectors st f first last)
  = (Z.to_nat (last - first + 1) * Z.to_nat SECTOR_SIZE)%nat.
Proof.
  unfold read_sectors.
  rewrite (length_flat_map_const _ _ (Z.to_nat SECTOR_SIZE))
    by (intros; apply length_ReadSector).
  now rewrite length_seqZ.
Qed.

End SectorProps.


(* ================================================================== *)
(** * [Internal_ReadAt] and [Internal_WriteAt] inside the file *)
(* ================================================================== *)

Module IOProps.
Import Machine FileHeader Disk Kernel FS SectorProps.

(** A read that starts inside the file: the count is cut at the end of
    the file and the bytes come from the sectors that hold them. *)
Lemma Internal_ReadAt_inside st f n pos :
  0 <= pos < numBytes (hdr f) -> 0 < n -> pos + n < 4294967296 ->
  numBytes (hdr f) <= NUM_DIRECT * SECTOR_SIZE ->
  let nb := Z.min n (numBytes (hdr f) - pos) in
  Internal_ReadAt st f n pos
  = Ok (take (Z.to_nat nb)
          (drop (Z.to_nat (pos - pos / SECTOR_SIZE * SECTOR_SIZE))
             (read_sectors st f (pos / SECTOR_SIZE)
                ((pos + nb - 1) / SECTOR_SIZE))),
        nb).
Proof.
  intros Hpos Hn Hb HL nb.
  unfold Internal_ReadAt, FileLength, DivRoundDown.
  unfold NUM_DIRECT, SECTOR_SIZE in *.
  replace (n =? 0) with false by (symmetry; apply Z.eqb_neq; lia).
  replace (numBytes (hdr f) <=? pos) with false
    by (symmetry; apply Z.leb_gt; lia).
  rewrite (u32_small (pos + n)) by lia.
  assert (Enb : (if numBytes (hdr f) <? pos + n
                 then u32 (numBytes (hdr f) - pos) else n) = nb).
  { subst nb. destruct (Z.ltb_spec (numBytes (hdr f)) (pos + n)).
    - rewrite u32_small by lia. lia.
    - lia. }
  rewrite Enb. assert (1 <= nb <= n) by (subst nb; lia).
  rewrite (u32_small (pos + nb - 1)) by lia.
  rewrite (u32_small (pos - pos / 128 * 128)) by lia.
  rewrite length_read_sectors. unfold SECTOR_SIZE.
  replace (pos - pos / 128 * 128 + nb <=?
           Z.of_nat (Z.to_nat ((pos + nb - 1) / 128 - pos / 128 + 1)
                     * Z.to_nat 128))
    with true by (symmetry; apply Z.leb_le; lia).
  reflexivity.
Qed.

(** Reading one whole sector of the file into a buffer never fails and
    never fills more than the sector. *)
Lemma Internal_ReadAt_sector st f k :
  0 <= k -> k * SECTOR_SIZE < numBytes (hdr f) ->
  numBytes (hdr f) <= NUM_DIRECT * SECTOR_SIZE ->
  exists r,
    Internal_ReadAt st f SECTOR_SIZE (k * SECTOR_SIZE) = Ok r /\
    (length (fst r) <= Z.to_nat SECTOR_SIZE)%nat.
Proof.
  intros Hk HL Hmax. unfold NUM_DIRECT, SECTOR_SIZE in *.
  pose proof (Internal_ReadAt_inside st f 128 (k * 128)) as E.
  unfold NUM_DIRECT, SECTOR_SIZE in E. cbv zeta in E.
  rewrite E by lia. eexists. split; [reflexivity|]. cbn [fst].
  rewrite length_take. lia.
Qed.

(** A write that ends inside the file: the sectors it touches are
    written from a buffer that holds the bytes of [from] at the offset
    of [position] in its first sector. *)
Lemma Internal_WriteAt_inside heap st f from n pos :
  0 <= pos -> 0 < n -> pos + n <= numBytes (hdr f) ->
  numBytes (hdr f) <= NUM_DIRECT * SECTOR_SIZE ->
  (Z.to_nat n <= length from)%nat ->
  exists buf,
    length buf
    = Z.to_nat (((pos + n - 1) / SECTOR_SIZE - pos / SECTOR_SIZE + 1)
                * SECTOR_SIZE) /\
    take (Z.to_nat n)
      (drop (Z.to_nat (pos - pos / SECTOR_SIZE * SECTOR_SIZE)) buf)
    = take (Z.to_nat n) from /\
    Internal_WriteAt heap st f from n pos
    = Ok (set_synchDisk
            (write_sectors f buf (pos / SECTOR_SIZE)
               ((pos + n - 1) / SECTOR_SIZE) (synchDisk st)) st, n).
Proof.
  intros Hpos Hn HL Hmax Hfrom.
  unfold Internal_WriteAt, FileLength, DivRoundDown, ASSERT.
  replace (0 <? n) with true by (symmetry; apply Z.ltb_lt; lia).
  cbn [bind].
  replace (numBytes (hdr f) <=? pos) with false
    by (symmetry; apply Z.leb_gt; lia).
  pose proof (Internal_ReadAt_sector st f) as Hsec.
  unfold NUM_DIRECT in *. unfold SECTOR_SIZE in Hmax, Hsec |- *.
  rewrite (u32_small (pos + n)) by lia.
  replace (numBytes (hdr f) <? pos + n) with false
    by (symmetry; apply Z.ltb_ge; lia).
  cbv iota beta.
  rewrite (u32_small (pos + n - 1)) by lia.
  set (first := pos / 128). set (last := (pos + n - 1) / 128).
  assert (Hfl : 0 <= first <= last /\ last < 30) by (subst first last; lia).
  assert (Hoff : 0 <= pos - first * 128 < 128) by (subst first; lia).
  assert (Hend : pos - first * 128 + n <= (last - first + 1) * 128)
    by (subst first last; lia).
  assert (Hlast : last * 128 < numBytes (hdr f)) by (subst last; lia).
  assert (Hfirst : first * 128 < numBytes (hdr f)) by (subst first; lia).
  rewrite (u32_small (1 + last - first)) by lia.
  rewrite (u32_small ((1 + last - first) * 128)) by lia.
  rewrite (u32_small (first * 128)) by lia.
  rewrite (u32_small ((last + 1) * 128)) by lia.
  rewrite (u32_small (last * 128)) by lia.
  rewrite (u32_small ((last - first) * 128)) by lia.
  rewrite (u32_small (pos - first * 128)) by lia.
  set (len := Z.to_nat ((last - first + 1) * 128)).
  assert (H0 : length (new_char heap ((1 + last - first) * 128)) = len)
    by (rewrite length_new_char; subst len; f_equal; lia).
  match goal with
  | |- context [bind ?m _] =>
      assert (H1 : exists buf0, m = Ok buf0 /\ length buf0 = len)
  end.
  { destruct (negb _); [|eauto].
    destruct (Hsec first) as (r & -> & Hr); [lia..|]. cbn [bind].
    eexists. split; [reflexivity|]. rewrite length_overlay; [exact H0|lia|].
    rewrite H0. subst len. lia. }
  destruct H1 as (buf0 & -> & Hlen0). cbn [bind].
  match goal with
  | |- context [bind ?m _] =>
      assert (H2 : exists buf1, m = Ok buf1 /\ length buf1 = len)
  end.
  { destruct (_ && _); [|eauto].
    destruct (Hsec last) as (r & -> & Hr); [lia..|]. cbn [bind].
    eexists. split; [reflexivity|]. rewrite length_overlay; [exact Hlen0|lia|].
    rewrite Hlen0. subst len. lia. }
  destruct H2 as (buf1 & -> & Hlen1). cbn [bind].
  replace (pos - first * 128 + n <=? Z.of_nat (length buf1)) with true
    by (symmetry; apply Z.leb_le; rewrite Hlen1; subst len; lia).
  assert (Hdata : length (take (Z.to_nat n) from) = Z.to_nat n)
    by (rewrite length_take; lia).
  eexists. split; [|split; [|reflexivity]].
  - rewrite length_overlay; [exact Hlen1|lia|].
    rewrite Hdata, Hlen1. subst len. lia.
  - rewrite <- Hdata at 1. apply overlay_slice; [lia|].
    rewrite Hlen1. subst len. lia.
Qed.

End IOProps.


(* ================================================================== *)
(** * What is written is read back *)
(* ================================================================== *)

Module RoundTrip.
Import Machine FileHeader Disk Kernel FS Fixtures.
Import AllocProps SectorProps IOProps.

Lemma header_ok_max h :
  header_ok h -> numBytes h <= NUM_DIRECT * SECTOR_SIZE.
Proof.
  intros (H0 & Hs & Hm & _). unfold DivRoundUp, NUM_DIRECT, SECTOR_SIZE in *.
  lia.
Qed.

Lemma FetchFrom_ok st sec h :
  file_ok st sec h -> FetchFrom (synchDisk st) sec = h.
Proof. intros (Hl & _). unfold FetchFrom. now rewrite Hl. Qed.

(** ** Headers made by [Allocate] and [Extend] *)

Lemma Allocate_ok fm size fm' h :
  0 <= size -> Allocate fm size = Some (fm', h) ->
  header_ok h /\ numBytes h = size /\
  (forall s, s ∈ dataSectors h ->
     Bitmap.Test fm s = false /\ Bitmap.Test fm' s = true) /\
  (forall j, Bitmap.Test fm j = true -> Bitmap.Test fm' j = true).
Proof.
  intros Hsize. unfold Allocate.
  destruct (_ && _) eqn:E; [|discriminate].
  apply andb_true_iff in E as [E1 E2].
  apply Z.leb_le in E1, E2.
  destruct (Bitmap.FindMany _ fm) as [secs fm1] eqn:Ef. intros [= <- <-].
  assert (H0 : 0 <= DivRoundUp size SECTOR_SIZE)
    by (unfold DivRoundUp, SECTOR_SIZE; lia).
  assert (Hc : Z.of_nat (Z.to_nat (DivRoundUp size SECTOR_SIZE))
               <= Bitmap.CountClear fm) by lia.
  destruct (FindMany_spec _ _ _ _ Hc Ef) as (Hlen & Hnd & Hs & Hm).
  cbn. unfold header_ok. cbn. auto 10.
Qed.

Lemma Extend_ok fm h size fm' h' :
  header_ok h -> 0 <= size ->
  (forall s, s ∈ dataSectors h -> Bitmap.Test fm s = true) ->
  Extend fm h size = Some (fm', h') ->
  header_ok h' /\ numBytes h' = numBytes h + size /\
  (forall s, s ∈ dataSectors h' ->
     Bitmap.Test fm' s = true /\ (s ∈ dataSectors h \/ Bitmap.Test fm s = false)) /\
  (forall j, Bitmap.Test fm j = true -> Bitmap.Test fm' j = true).
Proof.
  intros (H0 & Hs & Hm & Hlen & Hnd) Hsize Hmarked. unfold Extend.
  destruct (_ && _) eqn:E; [|discriminate].
  apply andb_true_iff in E as [E1 E2].
  apply Z.leb_le in E1, E2.
  destruct (Bitmap.FindMany _ fm) as [secs fm1] eqn:Ef. intros [= <- <-].
  assert (Hge : numSectors h <= DivRoundUp (numBytes h + size) SECTOR_SIZE)
    by (rewrite Hs; unfold DivRoundUp, SECTOR_SIZE; lia).
  pose proof (CountClear_nonneg fm).
  assert (Hc : Z.of_nat (Z.to_nat (DivRoundUp (numBytes h + size) SECTOR_SIZE
                                   - numSectors h))
               <= Bitmap.CountClear fm) by lia.
  destruct (FindMany_spec _ _ _ _ Hc Ef) as (Hl & Hn & Hsecs & Hmono).
  rewrite (take_ge (dataSectors h)) by (rewrite Hlen; reflexivity). cbn.
  split; [|split; [reflexivity|split; [|exact Hmono]]].
  - assert (0 <= numSectors h)
      by (rewrite Hs; unfold DivRoundUp, SECTOR_SIZE; lia).
    unfold header_ok. cbn. split; [lia|]. split; [lia|]. split; [lia|].
    split; [rewrite length_app; lia|].
    apply NoDup_app. split; [exact Hnd|]. split; [|exact Hn].
    intros s Hin1 Hin2. destruct (Hsecs _ Hin2) as [Hf _].
    rewrite (Hmarked _ Hin1) in Hf. discriminate.
  - intros s Hin. apply elem_of_app in Hin as [Hin|Hin].
    + split; [apply Hmono, Hmarked, Hin|now left].
    + destruct (Hsecs _ Hin). auto.
Qed.

(** ** [Expand] keeps the file well formed *)

Lemma Expand_ok st sec h size st' :
  file_ok st sec h -> 0 <= size ->
  Expand st sec size = (true, st') ->
  exists h',
    file_ok st' sec h' /\ numBytes h' = numBytes h + size /\
    filetable st' = filetable st /\ dirStore st' = dirStore st /\
    currentPath st' = currentPath st.
Proof.
  intros Hok Hsize. unfold Expand. rewrite (FetchFrom_ok _ _ _ Hok).
  destruct Hok as (Hl & Hh & Hsec & Ht & Hm).
  unfold Bitmap_FetchFrom.
  destruct (Extend _ h size) as [[fm' h']|] eqn:E; [|discriminate].
  intros [= <-].
  destruct (Extend_ok _ _ _ _ _ Hh Hsize Hm E) as (Hh' & Hn & Hs & Hmono).
  exists h'. split; [|cbn; auto].
  unfold file_ok. cbn. unfold WriteBack. rewrite lookup_insert_eq.
  split; [reflexivity|]. split; [exact Hh'|]. split; [|split].
  - intros Hin. destruct (Hs _ Hin) as [_ [Hold|Hf]]; [contradiction|].
    rewrite Ht in Hf. discriminate.
  - apply Hmono, Ht.
  - intros s Hin. apply Hs, Hin.
Qed.

Lemma Expand_false st sec size st' :
  Expand st sec size = (false, st') -> st' = st.
Proof.
  unfold Expand. destruct (Extend _ _ _) as [[fm' h']|]; [discriminate|].
  now intros [= <-].
Qed.

(** ** Statements on the node leave the disk alone *)

Lemma on_node_frame sec g st st' :
  on_node sec g st = Ok st' ->
  synchDisk st' = synchDisk st /\ freeMapStore st' = freeMapStore st /\
  dirStore st' = dirStore st /\ currentPath st' = currentPath st /\
  match filetable st !! sec with
  | None => filetable st' = filetable st
  | Some nd =>
      exists nd', g nd = Some nd' /\
                  filetable st' = <[sec := nd']> (filetable st)
  end.
Proof.
  unfold on_node, Filetable.find.
  destruct (filetable st !! sec) as [nd|]; [|intros [= <-]; auto].
  destruct (g nd) as [nd'|]; [|discriminate].
  intros [= <-]. cbn. eauto 10.
Qed.

Lemma file_ok_frame st st' sec h :
  synchDisk st' = synchDisk st -> freeMapStore st' = freeMapStore st ->
  file_ok st sec h -> file_ok st' sec h.
Proof. unfold file_ok. now intros -> ->. Qed.

Lemma write_then_signal (nd : Filetable.Filenode) nd1 :
  Coordinator.P_Can_Write nd = Some nd1 ->
  0 < Filetable.Can_Write nd /\ Coordinator.V_Can_Write nd1 = nd.
Proof.
  unfold Coordinator.P_Can_Write, Coordinator.V_Can_Write, Synch.P, Synch.V.
  destruct (0 <? Filetable.Can_Write nd) eqn:E; [|discriminate].
  apply Z.ltb_lt in E. cbn. intros [= <-]. split; [exact E|].
  destruct nd. unfold Filetable.set_Can_Write. cbn. f_equal. lia.
Qed.

(** ** [WriteAt] *)

Lemma read_sectors_ext st1 st2 g1 g2 a b :
  synchDisk st1 = synchDisk st2 -> hdr g1 = hdr g2 ->
  read_sectors st1 g1 a b = read_sectors st2 g2 a b.
Proof. unfold read_sectors. now intros -> ->. Qed.

(** A write that ends inside a well-formed file writes every byte,
    and whoever then reads the same place through the same header
    finds the bytes. *)
Lemma WriteAt_checked_inside heap st f B nb pos h st' f' r :
  file_ok st (sector f) h ->
  0 <= pos -> 0 < nb -> pos + nb <= numBytes h ->
  (Z.to_nat nb <= length B)%nat ->
  WriteAt_checked heap st f B nb pos = Ok (st', f', r) ->
  r = nb /\ file_ok st' (sector f) h /\
  sector f' = sector f /\ seekPosition f' = seekPosition f /\
  dirStore st' = dirStore st /\ currentPath st' = currentPath st /\
  filetable st' = filetable st /\
  (forall nd, filetable st !! sector f = Some nd ->
              0 < Filetable.Can_Write nd) /\
  (forall st'' g,
     synchDisk st'' = synchDisk st' -> hdr g = h ->
     Internal_ReadAt st'' g nb pos = Ok (take (Z.to_nat nb) B, nb)).
Proof.
  intros Hok Hpos Hnb Hin HB. unfold WriteAt_checked, Length.
  cbn [sector set_hdr hdr fst snd].
  rewrite (FetchFrom_ok _ _ _ Hok). unfold FileLength, ASSERT.
  pose proof (header_ok_max h ltac:(apply Hok)) as Hmax.
  assert (Hmax' := Hmax). unfold NUM_DIRECT, SECTOR_SIZE in Hmax'.
  rewrite (u32_small (pos + nb)) by lia.
  replace (pos + nb <=? numBytes h) with true
    by (symmetry; apply Z.leb_le; lia).
  cbn [bind].
  destruct (on_node (sector f) Coordinator.P_Can_Write st)
    as [st1| | | |] eqn:E1; cbn [bind]; try discriminate.
  apply on_node_frame in E1 as (Hd1 & Hm1 & Hs1 & Hc1 & Ht1).
  set (f1 := set_hdr h (set_hdr h f)).
  destruct (Internal_WriteAt_inside heap st1 f1 B nb pos)
    as (buf & Hlen & Hslice & ->); try assumption.
  cbn [bind fst snd].
  destruct (on_node (sector f) _ (set_synchDisk _ st1))
    as [st2| | | |] eqn:E2; cbn [bind]; try discriminate.
  apply on_node_frame in E2 as (Hd2 & Hm2 & Hs2 & Hc2 & Ht2).
  cbn [synchDisk freeMapStore dirStore currentPath filetable
       set_synchDisk] in *.
  intros [= <- <- <-].
  destruct Hok as (Hl & Hh & Hsec & Htest & Hmarked).
  pose proof Hh as (H0 & Hns & Hnm & Hlds & Hnd).
  set (first := pos / SECTOR_SIZE) in *.
  set (last := (pos + nb - 1) / SECTOR_SIZE) in *.
  assert (Hfl : 0 <= first <= last /\ last < Z.of_nat (length (dataSectors h))).
  { rewrite Hlds, Hns. subst first last.
    unfold DivRoundUp, SECTOR_SIZE in *. lia. }
  assert (Hdsmax : Z.of_nat (length (dataSectors h)) <= NUM_DIRECT)
    by (rewrite Hlds; lia).
  split; [reflexivity|]. split; [|split; [reflexivity|split; [reflexivity|]]].
  { unfold file_ok. rewrite Hd2, Hm2, Hm1, Hd1.
    rewrite (write_sectors_other f1 Hdsmax);
      [auto 10|apply Hfl|apply Hfl|exact Hsec]. }
  split; [congruence|]. split; [congruence|].
  assert (Htab : filetable st2 = filetable st /\
    forall nd, filetable st !! sector f = Some nd ->
               0 < Filetable.Can_Write nd).
  { destruct (filetable st !! sector f) as [nd|] eqn:En.
    - destruct Ht1 as (nd1 & Hp & Ht1). rewrite Ht1 in Ht2.
      rewrite lookup_insert_eq in Ht2. destruct Ht2 as (nd2 & [= <-] & Ht2).
      apply write_then_signal in Hp as [Hcw Hback].
      rewrite Ht2, insert_insert_eq, Hback. split.
      + now apply insert_id.
      + now intros ? [= <-].
    - rewrite Ht1, En in Ht2. split; [congruence|discriminate]. }
  split; [apply Htab|]. split; [apply Htab|].
  intros st'' g Hd'' Hg.
  pose proof (Internal_ReadAt_inside st'' g nb pos) as Er.
  rewrite Hg in Er. cbv zeta in Er.
  rewrite Er by lia. clear Er.
  replace (Z.min nb (numBytes h - pos)) with nb by lia.
  f_equal. f_equal. rewrite <- Hslice. do 2 f_equal.
  fold first last.
  rewrite (read_sectors_ext st''
             (set_synchDisk (write_sectors f1 buf first last (synchDisk st1))
                st1) g f1); [|now rewrite Hd'', Hd2|now rewrite Hg].
  apply (read_after_write f1 Hnd Hdsmax);
    [split; apply Hfl|apply Hfl|exact Hlen].
Qed.

(** A write that starts at or past the end of the file and could not
    expand it writes nothing. *)
Lemma WriteAt_checked_outside heap st f B nb pos h st' f' r :
  file_ok st (sector f) h -> numBytes h <= pos ->
  WriteAt_checked heap st f B nb pos = Ok (st', f', r) -> r = 0.
Proof.
  intros Hok Hout. unfold WriteAt_checked, Length.
  cbn [sector set_hdr hdr fst snd].
  rewrite (FetchFrom_ok _ _ _ Hok). unfold FileLength.
  destruct (ASSERT _); cbn [bind]; try discriminate.
  destruct (on_node _ _ st) as [st1| | | |]; cbn [bind]; try discriminate.
  unfold Internal_WriteAt. cbn [hdr set_hdr]. unfold FileLength.
  destruct (ASSERT _); cbn [bind]; try discriminate.
  replace (numBytes h <=? pos) with true by (symmetry; apply Z.leb_le; lia).
  cbn [bind fst snd].
  destruct (on_node _ _ st1) as [st2| | | |]; cbn [bind]; try discriminate.
  now intros [= _ _ <-].
Qed.

(** A write that returns the whole count has put every byte where a
    read of the same place finds it. *)
Lemma WriteAt_full heap st f B n pos st' f' h :
  file_ok st (sector f) h ->
  0 <= pos -> 0 < n -> pos + n < 4294967296 -> n = Z.of_nat (length B) ->
  WriteAt heap st f B n pos = Ok (st', f', n) ->
  exists h',
    file_ok st' (sector f) h' /\ pos + n <= numBytes h' /\
    sector f' = sector f /\ seekPosition f' = seekPosition f /\
    dirStore st' = dirStore st /\ currentPath st' = currentPath st /\
    filetable st' = filetable st /\
    (forall nd, filetable st !! sector f = Some nd ->
                0 < Filetable.Can_Write nd) /\
    (forall st'' g,
       synchDisk st'' = synchDisk st' -> hdr g = h' ->
       Internal_ReadAt st'' g n pos = Ok (B, n)).
Proof.
  intros Hok Hpos Hn Hb HB. unfold WriteAt, Length.
  cbn [sector set_hdr hdr fst snd].
  rewrite (FetchFrom_ok _ _ _ Hok). unfold FileLength.
  rewrite (u32_small (pos + n)) by lia.
  assert (Htake : take (Z.to_nat n) B = B)
    by (apply take_ge; lia).
  assert (Hfin : forall st0 h0,
    file_ok st0 (sector f) h0 -> pos + n <= numBytes h0 ->
    dirStore st0 = dirStore st -> currentPath st0 = currentPath st ->
    filetable st0 = filetable st ->
    WriteAt_checked heap st0 (set_hdr h f) B n pos = Ok (st', f', n) ->
    exists h',
      file_ok st' (sector f) h' /\ pos + n <= numBytes h' /\
      sector f' = sector f /\ seekPosition f' = seekPosition f /\
      dirStore st' = dirStore st /\ currentPath st' = currentPath st /\
      filetable st' = filetable st /\
      (forall nd, filetable st !! sector f = Some nd ->
                  0 < Filetable.Can_Write nd) /\
      (forall st'' g,
         synchDisk st'' = synchDisk st' -> hdr g = h' ->
         Internal_ReadAt st'' g n pos = Ok (B, n))).
  { intros st0 h0 Hok0 Hin0 Hs0 Hc0 Ht0 Hw.
    apply (WriteAt_checked_inside heap st0 (set_hdr h f) B n pos h0) in Hw
      as (_ & Hok' & Hsec' & Hseek' & Hs' & Hc' & Ht' & Hcw & Hrd);
      try assumption; try lia.
    exists h0. rewrite Htake in Hrd. rewrite <- Ht0.
    split; [exact Hok'|]. split; [exact Hin0|]. split; [exact Hsec'|].
    split; [exact Hseek'|]. split; [congruence|]. split; [congruence|].
    split; [congruence|]. split; [exact Hcw|exact Hrd]. }
  destruct (Z.ltb_spec (numBytes h) (pos + n)) as [Hlt|Hge].
  - destruct (Expand st (sector f) _) as [[|] st0] eqn:Ee.
    + intros Hw.
      destruct (Expand_ok _ _ _ _ _ Hok (u32_nonneg _) Ee)
        as (h0 & Hok0 & Hn0 & Ht0 & Hs0 & Hc0).
      assert (Hin0 : pos + n <= numBytes h0).
      { unfold WriteAt_checked, Length in Hw.
        cbn [sector set_hdr hdr fst snd] in Hw.
        rewrite (FetchFrom_ok _ _ _ Hok0) in Hw. unfold FileLength in Hw.
        rewrite (u32_small (pos + n)) in Hw by lia.
        destruct (Z.leb_spec (pos + n) (numBytes h0)); [assumption|].
        discriminate. }
      now apply (Hfin st0 h0).
    + apply Expand_false in Ee as ->. unfold Length.
      cbn [sector set_hdr hdr fst snd].
      rewrite (FetchFrom_ok _ _ _ Hok). unfold FileLength.
      intros Hw. exfalso.
      destruct (Z.le_gt_cases (numBytes h) pos) as [Hout|Hinside].
      * apply (WriteAt_checked_outside heap st _ B _ pos h) in Hw;
          [lia|exact Hok|exact Hout].
      * pose proof (proj1 (proj2 Hok)) as (H0 & _).
        rewrite (u32_small (numBytes h - pos)) in Hw by lia.
        apply (WriteAt_checked_inside heap st _ B _ pos h) in Hw
          as (Hr & _); try assumption; lia.
  - now apply (Hfin st h).
Qed.

(** ** [Create], [Open], [Close] on ["/a"] *)

Lemma Create_a fuel st N st1 :
  0 <= N -> Create fuel st "/a" N = Ok (true, st1) ->
  exists sec h,
    file_ok st1 sec h /\ numBytes h = N /\
    Directory.Find (Directory_FetchFrom st1 (directoryFile st1)) "a" false
    = sec /\
    0 <= sec /\ filetable st1 = filetable st /\
    currentPath st1 = currentPath st.
Proof.
  intros HN. unfold Create, Create_with.
  change (FS.CheckRoot st "/a") with (@Ok string "/a"). cbn [bind].
  rewrite UnlinkProps.OpenPath_a_eq. cbn [bind].
  change (getName "/a") with (@Ok string "a"). cbn [bind].
  destruct (_ || _); [discriminate|].
  unfold Bitmap_FetchFrom.
  destruct (Bitmap.Find (freeMapStore st)) as [sec fm1] eqn:Ef.
  destruct (sec =? -1) eqn:Es; [discriminate|]. apply Z.eqb_neq in Es.
  destruct (Directory.Add _ "a" sec false) as [added dir'] eqn:Ea.
  destruct added; cbn [negb]; [|discriminate].
  destruct (Allocate fm1 N) as [[fm2 hd]|] eqn:Eal; [|discriminate].
  unfold flush_directory.
  change (DIRECTORY_SECTOR =? DIRECTORY_SECTOR) with true. cbn [bind].
  intros [= <-].
  apply Find_spec in Ef as [(? & _)|(k & -> & Hk & ->)]; [contradiction|].
  pose proof (lookup_lt_Some _ _ _ Hk) as Hlt.
  destruct (Allocate_ok _ _ _ _ HN Eal) as (Hh & Hn & Hs & Hmono).
  exists (Z.of_nat k), hd. split; [|split; [exact Hn|split; [|split; [lia|]]]].
  - unfold file_ok. cbn. unfold WriteBack. rewrite lookup_insert_eq.
    split; [reflexivity|]. split; [exact Hh|]. split; [|split].
    + intros Hin. destruct (Hs _ Hin) as [Hf _].
      rewrite Test_mark_same in Hf by exact Hlt. discriminate.
    + apply Hmono, Test_mark_same, Hlt.
    + intros s Hin. apply Hs, Hin.
  - unfold Directory_FetchFrom, Directory_WriteBack. cbn.
    rewrite lookup_insert_eq. cbn. exact (Find_Add _ _ _ _ Ea).
  - cbn. auto.
Qed.

(** The first [Open]: what the handle is, and the node it leaves. *)
Lemma Open_a fuel st st2 h :
  readable (filetable st) ->
  Open fuel st "/a" = Ok (st2, Some h) ->
  let sec :=
    Directory.Find (Directory_FetchFrom st (directoryFile st)) "a" false in
  1 < sec /\ sector h = sec /\ seekPosition h = 0 /\
  synchDisk st2 = synchDisk st /\ freeMapStore st2 = freeMapStore st /\
  dirStore st2 = dirStore st /\ currentPath st2 = currentPath st /\
  readable (filetable st2) /\
  exists nd, filetable st2 !! sec = Some nd /\ Filetable.remove nd = false.
Proof.
  intros Hrd. unfold Open, Open_with.
  change (FS.CheckRoot st "/a") with (@Ok string "/a"). cbn [bind].
  rewrite UnlinkProps.OpenPath_a_eq. cbn [bind].
  change (getName "/a") with (@Ok string "a"). cbn [bind].
  set (sec := Directory.Find _ "a" false).
  destruct (Z.ltb_spec 1 sec) as [Hsec|]; [|discriminate].
  unfold Filetable.find, Filetable.add_file.
  assert (Hstore : forall (tb : gmap Z Filetable.Filenode) nd,
    readable tb -> 0 < Filetable.Can_Read nd ->
    readable (Filetable.store tb sec nd)).
  { intros tb nd Htb Hnd s n. unfold Filetable.store.
    destruct (decide (sec = s)) as [<-|Hne].
    - rewrite lookup_insert_eq. now intros [= <-].
    - rewrite lookup_insert_ne by exact Hne. apply Htb. }
  destruct (filetable st !! sec) as [nd|] eqn:En.
  - destruct (Filetable.remove nd) eqn:Er; cbn [negb]; [discriminate|].
    intros [= <- <-]. cbn. split; [exact Hsec|]. repeat split.
    + apply Hstore; [exact Hrd|]. cbn. exact (Hrd _ _ En).
    + eexists. unfold Filetable.store. rewrite lookup_insert_eq.
      split; [reflexivity|]. exact Er.
  - cbn [Filetable.remove Filetable.new_node negb].
    intros [= <- <-]. cbn. split; [exact Hsec|]. repeat split.
    + apply Hstore; [|cbn; lia]. apply Hstore; [exact Hrd|cbn; lia].
    + eexists. unfold Filetable.store. rewrite lookup_insert_eq.
      split; reflexivity.
Qed.

(** Another [Open] of the file, whose node is there already. *)
Lemma Open_a_again fuel st nd :
  let sec :=
    Directory.Find (Directory_FetchFrom st (directoryFile st)) "a" false in
  1 < sec -> filetable st !! sec = Some nd -> Filetable.remove nd = false ->
  exists st2 h,
    Open fuel st "/a" = Ok (st2, Some h) /\
    sector h = sec /\ seekPosition h = 0 /\
    synchDisk st2 = synchDisk st /\
    filetable st2
    = <[sec := Filetable.set_users (Filetable.users nd + 1) nd]>
        (filetable st).
Proof.
  intros sec Hsec Hn Hr. unfold Open, Open_with.
  change (FS.CheckRoot st "/a") with (@Ok string "/a"). cbn [bind].
  rewrite UnlinkProps.OpenPath_a_eq. cbn [bind].
  change (getName "/a") with (@Ok string "a"). cbn [bind].
  fold sec. replace (1 <? sec) with true by (symmetry; apply Z.ltb_lt; lia).
  unfold Filetable.find. rewrite Hn, Hr. cbn [negb].
  eexists _, _. split; [reflexivity|]. cbn. auto.
Qed.

(** [delete] of a handle on a file that is not marked for removal. *)
Lemma Close_unmarked fuel h st nd :
  filetable st !! sector h = Some nd -> Filetable.remove nd = false ->
  Close fuel h st
  = Ok (set_filetable
          (<[sector h := Filetable.set_users (Filetable.users nd - 1) nd]>
             (filetable st)) st).
Proof.
  intros Hn Hr. unfold Close.
  destruct fuel; cbn [delete_OpenFile]; unfold Filetable.find;
    rewrite Hn; cbn [Filetable.remove Filetable.set_users]; rewrite Hr;
    reflexivity.
Qed.

(** ** [Read] *)

Lemma reader_enter_total (nd : Filetable.Filenode) :
  0 < Filetable.Can_Read nd -> 0 < Filetable.Can_Write nd ->
  exists nd1,
    Coordinator.reader_enter nd = Some nd1 /\
    Filetable.Can_Read nd1 = Filetable.Can_Read nd.
Proof.
  intros Hr Hw.
  unfold Coordinator.reader_enter, Coordinator.P_Can_Read,
    Coordinator.P_Can_Write, Coordinator.inc_lectores,
    Coordinator.V_Can_Read, Synch.P, Synch.V.
  replace (0 <? Filetable.Can_Read nd) with true
    by (symmetry; apply Z.ltb_lt; lia).
  cbn. destruct (_ =? 1).
  - replace (0 <? Filetable.Can_Write nd) with true
      by (symmetry; apply Z.ltb_lt; lia).
    cbn. eexists. split; [reflexivity|]. cbn. lia.
  - cbn. eexists. split; [reflexivity|]. cbn. lia.
Qed.

Lemma reader_exit_total (nd : Filetable.Filenode) :
  0 < Filetable.Can_Read nd ->
  exists nd2, Coordinator.reader_exit nd = Some nd2.
Proof.
  intros Hr.
  unfold Coordinator.reader_exit, Coordinator.P_Can_Read, Synch.P.
  replace (0 <? Filetable.Can_Read nd) with true
    by (symmetry; apply Z.ltb_lt; lia).
  cbn. eauto.
Qed.

(** A read through a node that nobody holds comes back with what
    [Internal_ReadAt] finds. *)
Lemma Read_back st f n B :
  0 < n ->
  (forall nd, filetable st !! sector f = Some nd ->
     0 < Filetable.Can_Read nd /\ 0 < Filetable.Can_Write nd) ->
  (forall st'' g,
     synchDisk st'' = synchDisk st ->
     hdr g = FetchFrom (synchDisk st) (sector f) ->
     Internal_ReadAt st'' g n (seekPosition f) = Ok (B, n)) ->
  exists st' f',
    Read st f n = Ok (st', f', (B, n)) /\
    synchDisk st' = synchDisk st /\ sector f' = sector f.
Proof.
  intros Hn Hnode Hread. unfold Read, ReadAt, ASSERT.
  replace (0 <? n) with true by (symmetry; apply Z.ltb_lt; lia).
  cbn [bind sector set_hdr].
  assert (H1 : exists st1,
    on_node (sector f) Coordinator.reader_enter st = Ok st1 /\
    synchDisk st1 = synchDisk st /\
    forall nd1, filetable st1 !! sector f = Some nd1 ->
                0 < Filetable.Can_Read nd1).
  { unfold on_node, Filetable.find.
    destruct (filetable st !! sector f) as [nd|] eqn:En.
    - destruct (Hnode nd eq_refl) as [Hr Hw].
      destruct (reader_enter_total nd Hr Hw) as (nd1 & -> & Hr1).
      eexists. split; [reflexivity|]. split; [reflexivity|].
      cbn. unfold Filetable.store. rewrite lookup_insert_eq.
      intros ? [= <-]. lia.
    - exists st. split; [reflexivity|]. split; [reflexivity|].
      intros nd1 Hnd1. rewrite En in Hnd1. discriminate. }
  destruct H1 as (st1 & -> & Hd1 & Hr1). cbn [bind].
  rewrite (Hread st1 (set_hdr (FetchFrom (synchDisk st) (sector f)) f)
             Hd1 eq_refl).
  cbn [bind].
  assert (H2 : exists st2,
    on_node (sector f) Coordinator.reader_exit st1 = Ok st2 /\
    synchDisk st2 = synchDisk st1).
  { unfold on_node, Filetable.find.
    destruct (filetable st1 !! sector f) as [nd1|] eqn:En.
    - destruct (reader_exit_total nd1 (Hr1 _ eq_refl)) as (nd2 & ->).
      eexists. split; reflexivity.
    - exists st1. split; reflexivity. }
  destruct H2 as (st2 & -> & Hd2). cbn [bind].
  eexists _, _. split; [reflexivity|]. split; [congruence|reflexivity].
Qed.

Lemma root_dir_ext st st' :
  dirStore st = dirStore st' ->
  Directory_FetchFrom st (directoryFile st)
  = Directory_FetchFrom st' (directoryFile st').
Proof. unfold Directory_FetchFrom. cbn. now intros ->. Qed.

(** ** C1 *)

(** C1. Let [Create("/a", N)] succeed, [Open("/a")] give the handle
    [h] and [Write(h, B)] return the whole count [|B|], from a state
    in which no thread is inside a node of the open-file table.  Then
    closing [h], opening ["/a"] again and reading [|B|] bytes all
    return, the bytes read are [B], and the length of the file is at
    least [|B|]. *)
Theorem write_read_roundtrip heap fuel st N B st1 st2 h st3 h3 :
  readable (filetable st) ->
  0 <= N ->
  Z.of_nat (length B) < 4294967296 ->
  Create fuel st "/a" N = Ok (true, st1) ->
  Open fuel st1 "/a" = Ok (st2, Some h) ->
  Write heap st2 h B (Z.of_nat (length B))
  = Ok (st3, h3, Z.of_nat (length B)) ->
  exists st4 st5 h' st6 h6,
    Close fuel h3 st3 = Ok st4 /\
    Open fuel st4 "/a" = Ok (st5, Some h') /\
    Read st5 h' (Z.of_nat (length B))
    = Ok (st6, h6, (B, Z.of_nat (length B))) /\
    Z.of_nat (length B) <= fst (Length st6 h6).
Proof.
  set (n := Z.of_nat (length B)).
  intros Hrd HN Hn32 Hcreate Hopen Hwrite.
  (* Create *)
  destruct (Create_a _ _ _ _ HN Hcreate)
    as (sec & h0 & Hok1 & _ & Hfind1 & _ & Ht1 & _).
  (* Open *)
  rewrite <- Ht1 in Hrd.
  destruct (Open_a _ _ _ _ Hrd Hopen)
    as (Hsec & Hh & Hseek & Hd2 & Hm2 & Hs2 & _ & Hrd2 & nd & Hnd & Hrm).
  cbv zeta in Hsec, Hh, Hnd. rewrite Hfind1 in Hsec, Hh, Hnd.
  assert (Hok2 : file_ok st2 (sector h) h0)
    by (rewrite Hh; exact (file_ok_frame _ _ _ _ Hd2 Hm2 Hok1)).
  (* Write *)
  unfold Write, ASSERT in Hwrite.
  destruct (Z.ltb_spec 0 n) as [Hn|]; [|discriminate].
  cbn [bind] in Hwrite. rewrite Hseek in Hwrite.
  destruct (WriteAt heap st2 h B n 0) as [[[st3' f3] r]| | | |] eqn:Ew;
    cbn [bind] in Hwrite; try discriminate.
  injection Hwrite as <- <- ->.
  destruct (WriteAt_full heap st2 h B n 0 st3' f3 h0 Hok2
              ltac:(lia) Hn ltac:(lia) eq_refl Ew)
    as (h1 & Hok3 & Hlen & Hsec3 & _ & Hs3 & _ & Ht3 & Hcw & Hback).
  rewrite Hh in *.
  (* Close *)
  set (h3 := Seek f3 _).
  assert (Hh3 : sector h3 = sec) by exact Hsec3.
  assert (Hnd3 : filetable st3' !! sector h3 = Some nd)
    by (rewrite Hh3, Ht3; exact Hnd).
  pose proof (Close_unmarked fuel _ _ _ Hnd3 Hrm) as Hclose.
  rewrite Hh3 in Hclose.
  set (nd4 := Filetable.set_users (Filetable.users nd - 1) nd) in Hclose.
  set (st4 := set_filetable _ st3') in Hclose.
  (* Open again *)
  assert (Hfind4 :
    Directory.Find (Directory_FetchFrom st4 (directoryFile st4)) "a" false
    = sec).
  { rewrite <- Hfind1. f_equal. apply root_dir_ext. subst st4. cbn.
    congruence. }
  destruct (Open_a_again fuel st4 nd4)
    as (st5 & h' & Hopen5 & Hh' & Hseek' & Hd5 & Ht5).
  { rewrite Hfind4. exact Hsec. }
  { rewrite Hfind4. subst st4. cbn. apply lookup_insert_eq. }
  { exact Hrm. }
  rewrite Hfind4 in Hh', Ht5.
  (* Read *)
  assert (Hd53 : synchDisk st5 = synchDisk st3')
    by (rewrite Hd5; reflexivity).
  destruct (Read_back st5 h' n B Hn) as (st6 & h6 & Hread & Hd6 & Hh6).
  { intros nd5. rewrite Hh', Ht5, lookup_insert_eq. intros [= <-].
    cbn. split; [exact (Hrd2 _ _ Hnd)|exact (Hcw _ Hnd)]. }
  { intros st'' g Hd'' Hg. rewrite Hseek'. apply Hback.
    - congruence.
    - rewrite Hg, Hh', Hd53. exact (FetchFrom_ok _ _ _ Hok3). }
  exists st4, st5, h', st6, h6.
  split; [exact Hclose|]. split; [exact Hopen5|]. split; [exact Hread|].
  unfold Length. cbn [fst hdr set_hdr]. unfold FileLength.
  rewrite Hh6, Hh', Hd6, Hd53, (FetchFrom_ok _ _ _ Hok3). lia.
Qed.

Lemma write_read_roundtrip_witness :
  exists st4 st5 h' st6 h6,
    Close 1 (snd a_written) (fst a_written) = Ok st4 /\
    Open 1 st4 "/a" = Ok (st5, Some h') /\
    Read st5 h' 5 = Ok (st6, h6, (hello, 5)) /\
    5 <= fst (Length st6 h6).
Proof.
  apply (write_read_roundtrip [] 1 formatted 0 hello a_created
           (fst a_opened) (snd a_opened) (fst a_written) (snd a_written)).
  - intros s n H. vm_compute in H. discriminate.
  - lia.
  - vm_compute. reflexivity.
  - vm_compute. reflexivity.
  - vm_compute. reflexivity.
  - vm_compute. reflexivity.
Defined.

End RoundTrip.






(* ================================================================== *)
(** * The scheduler: what is made ready is what is handed out *)
(* ================================================================== *)

Module DispatchProps.
Import Threads Ready SchedulerProps.

Lemma SortedInsertBy_Permutation before x k l :
  SortedInsertBy before x k l ≡ₚ (x, k) :: l.
Proof.
  induction l as [|[y j] l IH]; cbn; [reflexivity|].
  destruct (before k j); [reflexivity|].
  rewrite IH. apply perm_swap.
Qed.

Lemma SortedInsert_last x k l :
  Forall (fun e => snd e <= k) l ->
  SortedInsert x k l = l ++ [(x, k)].
Proof.
  induction l as [|[y j] l IH]; intros H; [reflexivity|].
  apply Forall_cons in H as [Hj H]. cbn in Hj. unfold SortedInsert in *.
  cbn. replace (k <? j) with false by (symmetry; apply Z.ltb_ge; lia).
  now rewrite IH.
Qed.

Lemma ready_all_snoc order t s :
  ready_all (order ++ [t]) s = ReadyToRun t (ready_all order s).
Proof. unfold ready_all. now rewrite fold_left_app. Qed.

Lemma ReadyToRun_lists t s :
  ReadyToRun t s =
    if priority t <? 20 then
      mkScheduler (SortedInsert (SetStatus READY t) (priority t) (readyList0 s))
        (readyList1 s) (readyList2 s)
    else if priority t =? 20 then
      mkScheduler (readyList0 s)
        (SortedInsert (SetStatus READY t) (priority t) (readyList1 s))
        (readyList2 s)
    else
      mkScheduler (readyList0 s) (readyList1 s)
        (SortedInsert (SetStatus READY t) (priority t) (readyList2 s)).
Proof.
  unfold ReadyToRun, ReadyToRunBy, GetPriority. destruct s as [l0 l1 l2].
  destruct (priority t <? 20); [reflexivity|].
  destruct (priority t =? 20); reflexivity.
Qed.

(** The lists after a whole order of arrival. *)
Lemma ready_all_lists order : forall s,
  Forall (fun e => snd e = 20) (readyList1 s) ->
  let s' := ready_all order s in
  readyList2 s' ≡ₚ readyList2 s ++ (entry_of <$> high order) /\
  readyList1 s' = readyList1 s ++ (entry_of <$> middle order) /\
  readyList0 s' ≡ₚ readyList0 s ++ (entry_of <$> low order) /\
  Forall (fun e => snd e = 20) (readyList1 s').
Proof.
  induction order as [|t order IH] using rev_ind; intros s H1 s'.
  - subst s'. cbn. rewrite !app_nil_r. auto.
  - subst s'. rewrite ready_all_snoc.
    destruct (IH s H1) as (E2 & E1 & E0 & F1). clear IH.
    unfold high, middle, low in *. rewrite !filter_app, !fmap_app.
    rewrite ReadyToRun_lists.
    destruct (priority t <? 20) eqn:Elt; [apply Z.ltb_lt in Elt|
      apply Z.ltb_ge in Elt; destruct (priority t =? 20) eqn:Eeq;
      [apply Z.eqb_eq in Eeq|apply Z.eqb_neq in Eeq]]; cbn [readyList0
      readyList1 readyList2].
    + rewrite (filter_cons_False _ t []) by lia.
      rewrite (filter_cons_False (fun t => priority t = 20) t []) by lia.
      rewrite (filter_cons_True _ t []) by lia.
      cbn. rewrite !app_nil_r. split_and!; try assumption.
      unfold SortedInsert. rewrite SortedInsertBy_Permutation, E0.
      rewrite app_assoc. apply Permutation_cons_append.
    + rewrite (filter_cons_False _ t []) by lia.
      rewrite (filter_cons_True (fun t => priority t = 20) t []) by lia.
      rewrite (filter_cons_False _ t []) by lia.
      cbn. rewrite !app_nil_r. split_and!; try assumption.
      * rewrite SortedInsert_last.
        -- rewrite E1, <- app_assoc. reflexivity.
        -- eapply Forall_impl; [exact F1|]. cbn. intros; lia.
      * rewrite SortedInsert_last.
        -- apply Forall_app. split; [exact F1|]. repeat constructor.
           exact Eeq.
        -- eapply Forall_impl; [exact F1|]. cbn. intros; lia.
    + rewrite (filter_cons_True _ t []) by lia.
      rewrite (filter_cons_False (fun t => priority t = 20) t []) by lia.
      rewrite (filter_cons_False _ t []) by lia.
      cbn. rewrite !app_nil_r. split_and!; try assumption.
      unfold SortedInsert. rewrite SortedInsertBy_Permutation, E2.
      rewrite app_assoc. apply Permutation_cons_append.
Qed.

Lemma ready_count_ready_all order : forall s,
  ready_count (ready_all order s) = (ready_count s + length order)%nat.
Proof.
  induction order as [|t order IH] using rev_ind; intros s.
  - cbn. lia.
  - rewrite ready_all_snoc. unfold ReadyToRun.
    rewrite ready_count_ReadyToRunBy, IH, length_app. cbn. lia.
Qed.

Lemma map_fst_entry_of l :
  map fst (entry_of <$> l) = SetStatus READY <$> l.
Proof. induction l; cbn; [reflexivity|]. now f_equal. Qed.

(** X1. Whatever the order in which threads are made ready on an empty
    scheduler, enough calls of [FindNextToRun] hand out each of them
    once and no other thread, all with status [READY]: first those of
    priority above 20, then those of priority 20 in their order of
    arrival, then those of priority below 20. *)
Theorem ready_threads_all_dispatched order n :
  (length order <= n)%nat ->
  exists hi lo,
    drain n (ready_all order newScheduler)
    = hi ++ (SetStatus READY <$> middle order) ++ lo /\
    hi ≡ₚ SetStatus READY <$> high order /\
    lo ≡ₚ SetStatus READY <$> low order.
Proof.
  intros Hn.
  destruct (ready_all_lists order newScheduler) as (E2 & E1 & E0 & _);
    [constructor|].
  cbn [readyList0 readyList1 readyList2 newScheduler app] in *.
  rewrite drain_all
    by (rewrite ready_count_ready_all; cbn; lia).
  rewrite !map_app.
  exists (map fst (readyList2 (ready_all order newScheduler))),
         (map fst (readyList0 (ready_all order newScheduler))).
  split; [|split].
  - rewrite E1, map_fst_entry_of. reflexivity.
  - rewrite E2, map_fst_entry_of. reflexivity.
  - rewrite E0, map_fst_entry_of. reflexivity.
Qed.

Lemma ready_threads_all_dispatched_witness :
  exists hi lo,
    drain 4 (ready_all [tA; tT1; tC; tT2] newScheduler)
    = hi ++ (SetStatus READY <$> middle [tA; tT1; tC; tT2]) ++ lo /\
    hi ≡ₚ SetStatus READY <$> high [tA; tT1; tC; tT2] /\
    lo ≡ₚ SetStatus READY <$> low [tA; tT1; tC; tT2].
Proof.
  apply (ready_threads_all_dispatched [tA; tT1; tC; tT2] 4). cbn. lia.
Defined.

(** X2. Making a thread ready only inserts it: the threads that were
    ready are handed out in the order they would have been without it,
    and the new thread comes somewhere among them. *)
Theorem ReadyToRun_only_inserts s t n :
  (ready_count s <= n)%nat ->
  exists a b,
    drain n s = a ++ b /\
    drain (S n) (ReadyToRun t s) = a ++ SetStatus READY t :: b.
Proof.
  intros Hn.
  rewrite (drain_all n s) by exact Hn.
  rewrite (drain_all (S n)).
  2:{ unfold ReadyToRun. rewrite ready_count_ReadyToRunBy. lia. }
  rewrite ReadyToRun_lists.
  destruct (priority t <? 20); [|destruct (priority t =? 20)];
    cbn [readyList0 readyList1 readyList2]; unfold SortedInsert.
  - destruct (SortedInsertBy_split Z.ltb (SetStatus READY t) (priority t)
                (readyList0 s)) as (a & b & -> & E & _).
    rewrite E. exists (map fst (readyList2 s ++ readyList1 s ++ a)), (map fst b).
    rewrite !map_app. cbn. rewrite <- !app_assoc. split; reflexivity.
  - destruct (SortedInsertBy_split Z.ltb (SetStatus READY t) (priority t)
                (readyList1 s)) as (a & b & -> & E & _).
    rewrite E. exists (map fst (readyList2 s ++ a)),
      (map fst (b ++ readyList0 s)).
    rewrite !map_app. cbn. rewrite <- !app_assoc. split; reflexivity.
  - destruct (SortedInsertBy_split Z.ltb (SetStatus READY t) (priority t)
                (readyList2 s)) as (a & b & -> & E & _).
    rewrite E. exists (map fst a),
      (map fst (b ++ readyList1 s ++ readyList0 s)).
    rewrite !map_app. cbn. rewrite <- !app_assoc. split; reflexivity.
Qed.

Lemma ReadyToRun_only_inserts_witness :
  exists a b,
    drain 2 (ReadyToRun tA (ReadyToRun tC newScheduler)) = a ++ b /\
    drain 3 (ReadyToRun tB (ReadyToRun tA (ReadyToRun tC newScheduler)))
    = a ++ SetStatus READY tB :: b.
Proof.
  apply (ReadyToRun_only_inserts
           (ReadyToRun tA (ReadyToRun tC newScheduler)) tB 2).
  cbn. lia.
Defined.

Lemma top_tier_lists s :
  forall j, top_tier s < j <= 2 -> readyList s j = [].
Proof.
  intros j Hj. unfold top_tier in Hj. destruct s as [l0 l1 l2].
  unfold readyList in *. cbn in *.
  destruct (Z.eqb_spec j 0), (Z.eqb_spec j 1), (Z.eqb_spec j 2);
    try reflexivity; try lia; subst;
    destruct l2; cbn in Hj; try lia; try reflexivity;
    destruct l1; cbn in Hj; try lia; try reflexivity;
    destruct l0; cbn in Hj; try lia; reflexivity.
Qed.

(** X3. A thread made ready in a tier above every thread that waits is
    the next to run, and taking it leaves the ready lists as they were
    before it came. *)
Theorem higher_tier_runs_next s t :
  top_tier s < tier (priority t) ->
  FindNextToRun (ReadyToRun t s) = (Some (SetStatus READY t), s).
Proof.
  intros H. pose proof (top_tier_lists s) as Hl.
  pose proof (tier_range (priority t)) as Hr.
  assert (E : readyList s (tier (priority t)) = []) by (apply Hl; lia).
  rewrite (FindNextToRun_highest _ (tier (priority t)) (SetStatus READY t)
             (priority t) []).
  - f_equal. unfold ReadyToRun, ReadyToRunBy, GetPriority, tier in *.
    destruct s as [l0 l1 l2]. unfold readyList, set_readyList in *.
    cbn in *.
    destruct (priority t <? 20); cbn in *; [now subst|].
    destruct (priority t =? 20); cbn in *; now subst.
  - lia.
  - unfold ReadyToRun. rewrite ReadyToRunBy_tier, E. reflexivity.
  - intros j Hj. unfold ReadyToRun.
    rewrite ReadyToRunBy_other by lia. apply Hl. lia.
Qed.

Lemma higher_tier_runs_next_witness :
  FindNextToRun (ReadyToRun tC (ReadyToRun tA newScheduler))
  = (Some (SetStatus READY tC), ReadyToRun tA newScheduler).
Proof.
  apply (higher_tier_runs_next (ReadyToRun tA newScheduler) tC).
  vm_compute. reflexivity.
Defined.

End DispatchProps.


(* ================================================================== *)
(** * Paths: leaf, parent and resolution against the current path *)
(* ================================================================== *)

Module PathProps.
Import Path Parent.

Lemma list_ascii_app (a b : string) :
  list_ascii_of_string (a +:+ b)
  = list_ascii_of_string a ++ list_ascii_of_string b.
Proof. induction a as [|c a IH]; simpl; [reflexivity|]. now rewrite IH. Qed.

Lemma is_slash_true (l : list ascii) i :
  is_slash (l !! i) = true <-> l !! i = Some slash.
Proof.
  unfold is_slash. destruct (l !! i) as [c|]; [|split; discriminate].
  destruct (Ascii.eqb_spec c slash); split; congruence.
Qed.

Lemma is_slash_false_in (l : list ascii) i :
  slash ∉ l -> is_slash (l !! i) = false.
Proof.
  intros H. destruct (is_slash (l !! i)) eqn:E; [|reflexivity].
  apply is_slash_true in E. exfalso. apply H.
  eapply list_elem_of_lookup_2, E.
Qed.

(** Both scans stop at the same place: the last ['/'] at or before
    the index they start from. *)
Lemma scans_stop (n : list ascii) : forall i,
  is_slash (n !! O) = true ->
  exists j, (j <= i)%nat /\ is_slash (n !! j) = true /\
    (forall k, (j < k <= i)%nat -> is_slash (n !! k) = false) /\
    getName_scan n i = Some (drop (S j) n) /\
    getParent_scan n i = Some (take (S j) n).
Proof.
  induction i as [|i IH]; intros H0.
  - exists O. cbn. rewrite H0. split_and!; auto. intros; lia.
  - cbn [getName_scan getParent_scan].
    destruct (is_slash (n !! S i)) eqn:E.
    + exists (S i). split_and!; auto. intros; lia.
    + destruct (IH H0) as (j & Hj & Hs & Hk & E1 & E2).
      exists j. split_and!; auto.
      intros k Hk'. destruct (decide (k = S i)) as [->|]; [exact E|].
      apply Hk. lia.
Qed.

Lemma string_of_list_app (a b : list ascii) :
  string_of_list_ascii (a ++ b)
  = string_of_list_ascii a +:+ string_of_list_ascii b.
Proof. induction a as [|c a IH]; simpl; [reflexivity|]. now rewrite IH. Qed.

Lemma length_list_ascii (a : string) :
  length (list_ascii_of_string a) = String.length a.
Proof. induction a; simpl; auto. Qed.

Lemma getName_scan_eq n i :
  getName_scan n i =
    if is_slash (n !! i) then Some (drop (S i) n)
    else match i with O => None | S i' => getName_scan n i' end.
Proof. destruct i; reflexivity. Qed.

Lemma getParent_scan_eq n i :
  getParent_scan n i =
    if is_slash (n !! i) then Some (take (S i) n)
    else match i with O => None | S i' => getParent_scan n i' end.
Proof. destruct i; reflexivity. Qed.

Lemma is_slash_middle (pre l : list ascii) :
  is_slash ((pre ++ slash :: l) !! length pre) = true.
Proof. now rewrite list_lookup_middle. Qed.

Lemma is_slash_behind (pre l rest : list ascii) i :
  slash ∉ l -> (i < length l)%nat ->
  is_slash ((pre ++ slash :: l ++ rest) !! (length pre + S i)%nat) = false.
Proof.
  intros Hl Hi. rewrite lookup_app_r by lia.
  replace (length pre + S i - length pre)%nat with (S i) by lia.
  change ((slash :: l ++ rest) !! S i) with ((l ++ rest) !! i).
  rewrite lookup_app_l by exact Hi. now apply is_slash_false_in.
Qed.

(** The scans on a path whose last ['/'] before [rest] is known. *)
Lemma getName_scan_at (pre l rest : list ascii) : forall i,
  slash ∉ l -> (i <= length l)%nat ->
  getName_scan (pre ++ slash :: l ++ rest) (length pre + i)
  = Some (l ++ rest).
Proof.
  induction i as [|i IH]; intros Hl Hi; rewrite getName_scan_eq.
  - rewrite Nat.add_0_r, is_slash_middle.
    f_equal. rewrite cons_middle, app_assoc.
    apply drop_app_length'. rewrite length_app. cbn. lia.
  - rewrite is_slash_behind by (auto; lia).
    replace (length pre + S i)%nat with (S (length pre + i)) by lia.
    apply IH; [exact Hl|lia].
Qed.

Lemma getParent_scan_at (pre l rest : list ascii) : forall i,
  slash ∉ l -> (i <= length l)%nat ->
  getParent_scan (pre ++ slash :: l ++ rest) (length pre + i)
  = Some (pre ++ [slash]).
Proof.
  induction i as [|i IH]; intros Hl Hi; rewrite getParent_scan_eq.
  - rewrite Nat.add_0_r, is_slash_middle.
    f_equal. rewrite cons_middle, app_assoc.
    apply take_app_length'. rewrite length_app. cbn. lia.
  - rewrite is_slash_behind by (auto; lia).
    replace (length pre + S i)%nat with (S (length pre + i)) by lia.
    apply IH; [exact Hl|lia].
Qed.

Lemma getName_scan_none n : forall i,
  (forall k, (k <= i)%nat -> is_slash (n !! k) = false) ->
  getName_scan n i = None.
Proof.
  induction i as [|i IH]; intros H; rewrite getName_scan_eq, H by lia;
    [reflexivity|]. apply IH. intros k Hk. apply H. lia.
Qed.

Lemma getName_eq name :
  list_ascii_of_string name <> [] ->
  getName name =
    let n := list_ascii_of_string name in
    let pos := (length n - 1)%nat in
    if is_slash (n !! pos) then
      match pos with
      | O => None
      | S pos' => string_of_list_ascii <$> getName_scan n pos'
      end
    else if negb (is_slash (n !! O)) then Some name
    else string_of_list_ascii <$> getName_scan n pos.
Proof.
  unfold getName. destruct (list_ascii_of_string name); [congruence|].
  reflexivity.
Qed.

Lemma getParent_eq M path :
  (length (list_ascii_of_string path) < M)%nat ->
  list_ascii_of_string path <> [] ->
  getParent M path =
    let n := list_ascii_of_string path in
    let pos := (length n - 1)%nat in
    if is_slash (n !! pos) then
      match pos with
      | O => None
      | S pos' => string_of_list_ascii <$> getParent_scan n pos'
      end
    else string_of_list_ascii <$> getParent_scan n pos.
Proof.
  intros HM Hn. unfold getParent.
  replace (M <=? _)%nat with false by (symmetry; apply Nat.leb_gt; lia).
  destruct (list_ascii_of_string path); [congruence|]. reflexivity.
Qed.

Lemma plain_nonempty l :
  l <> ""%string -> exists k, length (list_ascii_of_string l) = S k.
Proof. destruct l; [congruence|]. simpl. eauto. Qed.

(** The name behind the last ['/'] of an absolute path. *)
Lemma getName_behind_slash pre l :
  plain l -> l <> EmptyString -> absolute (pre +:+ "/" +:+ l) ->
  getName (pre +:+ "/" +:+ l) = Some l.
Proof.
  intros Hl Hne Habs. unfold absolute in Habs.
rewrite getName_eq; rewrite !list_ascii_app in *;
  [|destruct (list_ascii_of_string pre); discriminate].
change (list_ascii_of_string "/") with [slash]. cbn [app].
destruct (plain_nonempty l Hne) as [k Hk]. cbv zeta.
rewrite length_app. cbn [length]. rewrite Hk.
replace (length (list_ascii_of_string pre) + S (S k) - 1)%nat
  with (length (list_ascii_of_string pre) + S k)%nat by lia.
pose proof (is_slash_behind (list_ascii_of_string pre)
              (list_ascii_of_string l) [] k Hl ltac:(lia)) as Hb.
rewrite app_nil_r in Hb. rewrite Hb.
change (list_ascii_of_string "/") with [slash] in Habs.
cbn [app] in Habs. rewrite Habs. cbn [negb].
pose proof (getName_scan_at (list_ascii_of_string pre)
              (list_ascii_of_string l) [] (S k) Hl ltac:(lia)) as Hs.
rewrite app_nil_r in Hs. rewrite Hs. cbn.
now rewrite string_of_list_ascii_of_string.
Qed.

(** X4. [getName] answers what stands behind the last ['/'] of an
    absolute path; a ['/'] that ends the path is skipped by the scan
    and stays in the answer; a relative path that does not end in
    ['/'] is answered whole, whatever it holds; and a name followed by
    ['/'], with no ['/'] before, sends the scan off the front of the
    string. *)
Theorem getName_leaf :
  (forall pre l,
     plain l -> l <> ""%string -> absolute (pre +:+ "/" +:+ l) ->
     getName (pre +:+ "/" +:+ l) = Some l) /\
  (forall pre l,
     plain l -> getName (pre +:+ "/" +:+ l +:+ "/") = Some (l +:+ "/")) /\
  (forall p,
     p <> ""%string -> ~ absolute p -> trailing_slash p = false ->
     getName p = Some p) /\
  (forall l, plain l -> getName (l +:+ "/") = None).
Proof.
  split_and!.
  - exact getName_behind_slash.
  - intros pre l Hl.
    rewrite getName_eq; rewrite !list_ascii_app;
      [|destruct (list_ascii_of_string pre); discriminate].
    change (list_ascii_of_string "/") with [slash]. cbn [app]. cbv zeta.
    set (p := list_ascii_of_string pre). set (n := list_ascii_of_string l).
    replace (length (p ++ slash :: n ++ [slash]) - 1)%nat
      with (S (length p + length n))
      by (rewrite length_app; cbn [length]; rewrite length_app; cbn; lia).
    replace (is_slash ((p ++ slash :: n ++ [slash]) !! S (length p + length n)))
      with true.
    2:{ symmetry. rewrite (cons_middle slash p), !app_assoc.
        rewrite list_lookup_middle; [reflexivity|].
        rewrite !length_app. cbn. lia. }
    rewrite (getName_scan_at p n [slash] (length n) Hl) by lia.
    cbn. rewrite string_of_list_app. subst n.
    now rewrite string_of_list_ascii_of_string.
  - intros p Hne Hrel Htr. unfold absolute in Hrel. unfold trailing_slash in Htr.
    rewrite getName_eq by (destruct p; [congruence|discriminate]).
    cbv zeta. rewrite Htr.
    destruct (is_slash (list_ascii_of_string p !! O)); [congruence|].
    reflexivity.
  - intros l Hl.
    rewrite getName_eq; rewrite !list_ascii_app;
      [|destruct (list_ascii_of_string l); discriminate].
    change (list_ascii_of_string "/") with [slash]. cbv zeta.
    set (n := list_ascii_of_string l).
    replace (length (n ++ [slash]) - 1)%nat with (length n)
      by (rewrite length_app; cbn; lia).
    rewrite list_lookup_middle by reflexivity. cbn [is_slash].
    rewrite Ascii.eqb_refl.
    destruct (length n) as [|k] eqn:Ek; [reflexivity|].
    rewrite getName_scan_none; [reflexivity|].
    intros j Hj. rewrite lookup_app_l by lia. now apply is_slash_false_in.
Qed.

Lemma getName_leaf_witness :
  getName "/usr/bin/cat" = Some "cat"%string /\
  getName "/usr/bin/" = Some "bin/"%string /\
  getName "usr/bin" = Some "usr/bin"%string /\
  getName "usr/" = None.
Proof.
  destruct getName_leaf as (H1 & H2 & H3 & H4). split_and!.
  - apply (H1 "/usr/bin" "cat")%string.
    + unfold plain. vm_compute. intros H.
      repeat (apply elem_of_cons in H as [H|H]; [discriminate|]).
      inversion H.
    + discriminate.
    + reflexivity.
  - apply (H2 "/usr" "bin")%string.
    unfold plain. vm_compute. intros H.
    repeat (apply elem_of_cons in H as [H|H]; [discriminate|]).
    inversion H.
  - apply (H3 "usr/bin")%string; [discriminate| |reflexivity].
    unfold absolute. vm_compute. discriminate.
  - apply (H4 "usr")%string.
    unfold plain. vm_compute. intros H.
    repeat (apply elem_of_cons in H as [H|H]; [discriminate|]).
    inversion H.
Defined.

(** The path up to and with its last ['/']. *)
Lemma getParent_before_slash M pre l :
  plain l -> l <> EmptyString ->
  (String.length (pre +:+ "/" +:+ l) < M)%nat ->
  getParent M (pre +:+ "/" +:+ l) = Some (pre +:+ "/").
Proof.
  intros Hl Hne HM. rewrite <- length_list_ascii in HM.
rewrite getParent_eq; rewrite !list_ascii_app in *; try exact HM;
  [|destruct (list_ascii_of_string pre); discriminate].
change (list_ascii_of_string "/") with [slash]. cbn [app].
destruct (plain_nonempty l Hne) as [k Hk]. cbv zeta.
rewrite length_app. cbn [length]. rewrite Hk.
replace (length (list_ascii_of_string pre) + S (S k) - 1)%nat
  with (length (list_ascii_of_string pre) + S k)%nat by lia.
pose proof (is_slash_behind (list_ascii_of_string pre)
              (list_ascii_of_string l) [] k Hl ltac:(lia)) as Hb.
rewrite app_nil_r in Hb. rewrite Hb.
pose proof (getParent_scan_at (list_ascii_of_string pre)
              (list_ascii_of_string l) [] (S k) Hl ltac:(lia)) as Hs.
rewrite app_nil_r in Hs. rewrite Hs. cbn.
rewrite string_of_list_app.
now rewrite string_of_list_ascii_of_string.
Qed.

(** X5. [getParent] answers the path up to and with its last ['/'],
    where a ['/'] that ends the path does not count, for a path
    shorter than the buffer; a path as long as the buffer is not
    terminated by the copy and the call reads past it. *)
Theorem getParent_prefix M :
  (forall pre l,
     plain l -> l <> ""%string ->
     (String.length (pre +:+ "/" +:+ l) < M)%nat ->
     getParent M (pre +:+ "/" +:+ l) = Some (pre +:+ "/")) /\
  (forall pre l,
     plain l ->
     (String.length (pre +:+ "/" +:+ l +:+ "/") < M)%nat ->
     getParent M (pre +:+ "/" +:+ l +:+ "/") = Some (pre +:+ "/")) /\
  (forall path, (M <= String.length path)%nat -> getParent M path = None).
Proof.
  split_and!.
  - exact (getParent_before_slash M).
  - intros pre l Hl HM. rewrite <- length_list_ascii in HM.
    rewrite getParent_eq; rewrite !list_ascii_app in *; try exact HM;
      [|destruct (list_ascii_of_string pre); discriminate].
    change (list_ascii_of_string "/") with [slash]. cbn [app]. cbv zeta.
    set (p := list_ascii_of_string pre). set (n := list_ascii_of_string l).
    replace (length (p ++ slash :: n ++ [slash]) - 1)%nat
      with (S (length p + length n))
      by (rewrite length_app; cbn [length]; rewrite length_app; cbn; lia).
    replace (is_slash ((p ++ slash :: n ++ [slash]) !! S (length p + length n)))
      with true.
    2:{ symmetry. rewrite (cons_middle slash p), !app_assoc.
        rewrite list_lookup_middle; [reflexivity|].
        rewrite !length_app. cbn. lia. }
    rewrite (getParent_scan_at p n [slash] (length n) Hl) by lia.
    cbn. rewrite string_of_list_app. subst p.
    now rewrite string_of_list_ascii_of_string.
  - intros path HM. rewrite <- length_list_ascii in HM. unfold getParent.
    replace (M <=? _)%nat with true by (symmetry; apply Nat.leb_le; lia).
    reflexivity.
Qed.

Lemma getParent_prefix_witness :
  getParent 64 "/usr/bin/cat" = Some "/usr/bin/"%string /\
  getParent 64 "/usr/bin/" = Some "/usr/"%string /\
  getParent 4 "/usr" = None.
Proof.
  destruct (getParent_prefix 64) as (H1 & H2 & _).
  destruct (getParent_prefix 4) as (_ & _ & H3). split_and!.
  - apply (H1 "/usr/bin" "cat")%string.
    + unfold plain. vm_compute. intros H.
      repeat (apply elem_of_cons in H as [H|H]; [discriminate|]).
      inversion H.
    + discriminate.
    + vm_compute. lia.
  - apply (H2 "/usr" "bin")%string.
    + unfold plain. vm_compute. intros H.
      repeat (apply elem_of_cons in H as [H|H]; [discriminate|]).
      inversion H.
    + vm_compute. lia.
  - apply (H3 "/usr")%string. vm_compute. lia.
Defined.

(** X6. An absolute path of two characters or more, shorter than the
    buffer of [getParent], is split by [getParent] and [getName] with
    nothing lost: both answer, the parent ends in ['/'], and the
    parent followed by the name is the path. *)
Theorem parent_and_leaf M path :
  absolute path ->
  (2 <= String.length path < M)%nat ->
  exists p q n,
    getParent M path = Some p /\ getName path = Some n /\
    p = (q +:+ "/")%string /\ (p +:+ n)%string = path.
Proof.
  intros Habs Hlen. rewrite <- length_list_ascii in Hlen.
  unfold absolute in Habs.
  set (l := list_ascii_of_string path) in *.
  assert (Hne : l <> []) by (intros E; rewrite E in Hlen; cbn in Hlen; lia).
  rewrite getParent_eq by (fold l; auto; lia).
  rewrite getName_eq by exact Hne. fold l. cbv zeta. rewrite Habs.
  cbn [negb].
  assert (Hsplit : forall i,
    exists p q n,
      string_of_list_ascii <$> getParent_scan l i = Some p /\
      string_of_list_ascii <$> getName_scan l i = Some n /\
      p = (q +:+ "/")%string /\ (p +:+ n)%string = path).
  { intros i. destruct (scans_stop l i Habs) as (j & _ & Hj & _ & E1 & E2).
    rewrite E1, E2. cbn.
    exists (string_of_list_ascii (take (S j) l)),
           (string_of_list_ascii (take j l)),
           (string_of_list_ascii (drop (S j) l)).
    split_and!; try reflexivity.
    - apply is_slash_true in Hj.
      rewrite (take_S_r _ _ _ Hj), string_of_list_app. reflexivity.
    - rewrite <- string_of_list_app, take_drop. subst l.
      apply string_of_list_ascii_of_string. }
  destruct (is_slash (l !! (length l - 1)%nat)).
  - destruct (length l - 1)%nat as [|pos'] eqn:E; [lia|]. apply Hsplit.
  - apply Hsplit.
Qed.

Lemma parent_and_leaf_witness :
  exists p q n,
    getParent 64 "/usr/bin/cat" = Some p /\ getName "/usr/bin/cat" = Some n /\
    p = (q +:+ "/")%string /\ (p +:+ n)%string = "/usr/bin/cat"%string.
Proof.
  apply (parent_and_leaf 64 "/usr/bin/cat"); [reflexivity|].
  vm_compute. lia.
Defined.

(** ** The buffer of [CheckRoot] *)

Lemma length_new_chars junk n : length (new_chars junk n) = n.
Proof. unfold new_chars. now rewrite length_map, length_seq. Qed.

Lemma until_NUL_clean (h t : list ascii) :
  NUL ∉ h -> until_NUL (h ++ t) = h ++ until_NUL t.
Proof.
  induction h as [|c h IH]; intros Hn; [reflexivity|].
  apply not_elem_of_cons in Hn as [Hc Hn]. cbn [app until_NUL].
  destruct (Ascii.eqb_spec c NUL) as [E|_]; [now subst c|].
  now rewrite IH.
Qed.

Lemma no_terminator (h : list ascii) :
  NUL ∉ h -> existsb (Ascii.eqb NUL) h = false.
Proof.
  induction h as [|c h IH]; intros Hn; [reflexivity|].
  apply not_elem_of_cons in Hn as [Hc Hn]. cbn [existsb].
  destruct (Ascii.eqb_spec NUL c) as [E|_]; [now subst c|].
  now rewrite IH.
Qed.

(** A text without NUL in front of a buffer: the reader runs through
    it and goes on in what follows. *)
Lemma cstring_behind (h t : list ascii) :
  NUL ∉ h ->
  cstring (h ++ t)
  = (tail ← cstring t; Some (string_of_list_ascii h +:+ tail)%string).
Proof.
  intros Hn. unfold cstring.
  rewrite existsb_app, (no_terminator h Hn). cbn [orb].
  destruct (existsb _ t); [|reflexivity]. cbn.
  now rewrite (until_NUL_clean h t Hn), string_of_list_app.
Qed.

Lemma strncpy_at_inside (buf : list ascii) off src :
  (off + length src <= length buf)%nat ->
  strncpy_at buf off src
  = Some (take off buf ++ src ++ drop (off + length src) buf).
Proof.
  intros H. unfold strncpy_at.
  now replace (off + length src <=? length buf)%nat with true
    by (symmetry; apply Nat.leb_le; exact H).
Qed.

Lemma strncpy_at_over (buf : list ascii) off src :
  (length buf < off + length src)%nat -> strncpy_at buf off src = None.
Proof.
  intros H. unfold strncpy_at.
  now replace (off + length src <=? length buf)%nat with false
    by (symmetry; apply Nat.leb_gt; exact H).
Qed.

(** The two copies of the relative branch of [CheckRoot]. *)
Lemma CheckRoot_relative junk (cwd path : string) :
  ~ absolute path -> absolute cwd ->
  let room := Z.to_nat (2 * Machine.FILE_NAME_MAX_LEN) in
  let head :=
    list_ascii_of_string
      ((if trailing_slash cwd then cwd else cwd +:+ "/") +:+ path) in
  CheckRoot junk cwd path
  = if (length head <=? room)%nat then
      cstring (head ++ drop (length head) (new_chars junk room))
    else None.
Proof.
  intros Hrel Habs room head. unfold absolute in *.
  unfold CheckRoot. destruct (is_slash (list_ascii_of_string path !! O));
    [congruence|]. cbn [negb]. fold room.
  set (B := new_chars junk room).
  assert (HB : length B = room) by apply length_new_chars.
  subst head. rewrite list_ascii_app. unfold trailing_slash.
  set (C := list_ascii_of_string cwd) in *.
  set (P := list_ascii_of_string path).
  assert (HC : exists k, length C = S k)
    by (destruct C; [discriminate|cbn; eauto]).
  destruct HC as [k HC]. rewrite HC. cbn [Nat.sub]. rewrite Nat.sub_0_r.
  assert (Hhead : length (list_ascii_of_string
                    (if is_slash (C !! k) then cwd else cwd +:+ "/"))
                  = if is_slash (C !! k) then S k else S (S k)).
  { destruct (is_slash (C !! k)); [exact HC|].
    rewrite list_ascii_app, length_app. fold C. rewrite HC. cbn. lia. }
  rewrite !length_app, Hhead.
  destruct (decide (S k <= room)%nat) as [E1|E1].
  2:{ rewrite strncpy_at_over by lia. cbn [mbind option_bind].
      replace (_ <=? room)%nat with false
        by (symmetry; apply Nat.leb_gt; destruct (is_slash (C !! k)); lia).
      reflexivity. }
  rewrite strncpy_at_inside by lia.
  rewrite take_0. cbn [mbind option_bind app Nat.add]. rewrite HC.
  assert (Hlast : (C ++ drop (S k) B) !! k = C !! k)
    by (apply lookup_app_l; lia).
  rewrite Hlast.
  destruct (is_slash (C !! k)) eqn:Es; cbn [negb].
  - cbn [mbind option_bind fst snd].
    destruct (decide (S k + length P <= room)%nat) as [E2|E2].
    + rewrite strncpy_at_inside
        by (rewrite length_app, length_drop; lia).
      replace (S k + length P <=? room)%nat with true
        by (symmetry; apply Nat.leb_le; lia).
      cbn [mbind option_bind]. f_equal.
      rewrite <- HC, take_app_length, <- app_assoc. do 2 f_equal.
      rewrite drop_app_ge by lia. rewrite drop_drop. f_equal. lia.
    + rewrite strncpy_at_over
        by (rewrite length_app, length_drop; lia).
      replace (S k + length P <=? room)%nat with false
        by (symmetry; apply Nat.leb_gt; lia).
      reflexivity.
  - rewrite length_app, length_drop, HB, HC.
    destruct (S k <? S k + (room - S k))%nat eqn:E3.
    2:{ apply Nat.ltb_ge in E3. cbn [mbind option_bind].
        replace (S (S k) + length P <=? room)%nat with false
          by (symmetry; apply Nat.leb_gt; lia).
        reflexivity. }
    apply Nat.ltb_lt in E3. cbn [mbind option_bind fst snd].
    assert (E : <[S k := slash]> (C ++ drop (S k) B)
                = (C ++ [slash]) ++ drop (S (S k)) B).
    { rewrite insert_app_r_alt by lia. rewrite HC, Nat.sub_diag.
      rewrite <- app_assoc. f_equal.
      destruct (drop (S k) B) as [|b T] eqn:ED.
      - apply (f_equal length) in ED. rewrite length_drop in ED.
        cbn in ED. lia.
      - cbn. f_equal.
        replace (S (S k)) with (S k + 1)%nat by lia.
        rewrite <- drop_drop, ED. reflexivity. }
    rewrite E. rewrite list_ascii_app.
    change (list_ascii_of_string "/") with [slash]. fold C.
    assert (HCs : length (C ++ [slash]) = S (S k))
      by (rewrite length_app; cbn; lia).
    destruct (decide (S (S k) + length P <= room)%nat) as [E2|E2].
    + rewrite strncpy_at_inside
        by (rewrite length_app, length_drop; lia).
      replace (S (S k) + length P <=? room)%nat with true
        by (symmetry; apply Nat.leb_le; lia).
      cbn [mbind option_bind]. f_equal.
      rewrite <- HCs at 1. rewrite take_app_length, <- !app_assoc.
      do 3 f_equal.
      rewrite app_assoc, drop_app_ge by lia. rewrite drop_drop. f_equal.
      lia.
    + rewrite strncpy_at_over
        by (rewrite length_app, length_drop; lia).
      replace (S (S k) + length P <=? room)%nat with false
        by (symmetry; apply Nat.leb_gt; lia).
      reflexivity.
Qed.

(** X7. [CheckRoot] hands a path that begins with ['/'] back as it
    is.  Any other path it copies behind the path [cwd] of the current
    thread, with a ['/'] between the two where [cwd] does not end in
    one, into a buffer of [2 * FILE_NAME_MAX_LEN] bytes that it
    neither clears nor terminates: when the text is longer than the
    buffer the copy runs over its end; otherwise the callers read the
    text followed by whatever lay in the heap behind it, up to the
    first NUL, and past the buffer when there is none.  What is read,
    with [cwd] absolute, begins with ['/'], so a second [CheckRoot],
    as [OpenPath] runs on the path its callers have resolved already,
    hands it back unchanged. *)
Theorem CheckRoot_absolute junk cwd path :
  absolute cwd -> no_NUL cwd -> no_NUL path ->
  let room := Z.to_nat (2 * Machine.FILE_NAME_MAX_LEN) in
  let head :=
    ((if trailing_slash cwd then cwd else cwd +:+ "/") +:+ path)%string in
  (absolute path -> CheckRoot junk cwd path = Some path) /\
  (~ absolute path ->
   ((room < String.length head)%nat -> CheckRoot junk cwd path = None) /\
   ((String.length head <= room)%nat ->
    CheckRoot junk cwd path
    = (tail ← cstring (drop (String.length head) (new_chars junk room));
       Some (head +:+ tail)%string))) /\
  (forall p,
     CheckRoot junk cwd path = Some p ->
     absolute p /\ CheckRoot junk cwd p = Some p).
Proof.
  intros Hc Hzc Hzp room head.
  assert (Habs : absolute path -> CheckRoot junk cwd path = Some path).
  { unfold absolute, CheckRoot. now intros ->. }
  assert (Hhead : NUL ∉ list_ascii_of_string head).
  { subst head. rewrite list_ascii_app. unfold no_NUL in *.
    intros H. apply elem_of_app in H as [H|H]; [|auto].
    destruct (trailing_slash cwd); [auto|].
    rewrite list_ascii_app in H. apply elem_of_app in H as [H|H]; [auto|].
    apply list_elem_of_singleton in H. discriminate. }
  assert (Hrel : ~ absolute path ->
    CheckRoot junk cwd path
    = if (String.length head <=? room)%nat then
        tail ← cstring (drop (String.length head) (new_chars junk room));
        Some (head +:+ tail)%string
      else None).
  { intros Hr. rewrite (CheckRoot_relative junk cwd path Hr Hc).
    cbv zeta. fold head room. rewrite length_list_ascii.
    destruct (String.length head <=? room)%nat; [|reflexivity].
    rewrite (cstring_behind _ _ Hhead).
    now rewrite string_of_list_ascii_of_string. }
  split_and!.
  - exact Habs.
  - intros Hr. rewrite (Hrel Hr). split; intros Hl.
    + replace (String.length head <=? room)%nat with false
        by (symmetry; apply Nat.leb_gt; lia).
      reflexivity.
    + replace (String.length head <=? room)%nat with true
        by (symmetry; apply Nat.leb_le; lia).
      reflexivity.
  - intros p Hp.
    assert (Hpa : absolute p).
    { destruct (is_slash (list_ascii_of_string path !! O)) eqn:Ea.
      - rewrite (Habs Ea) in Hp. injection Hp as <-. exact Ea.
      - assert (Hr : ~ absolute path) by (unfold absolute; congruence).
        rewrite (Hrel Hr) in Hp.
        destruct (String.length head <=? room)%nat; [|discriminate].
        destruct (cstring _) as [tail|]; [|discriminate].
        injection Hp as <-. unfold absolute in *.
        subst head. rewrite !list_ascii_app.
        destruct (trailing_slash cwd); rewrite ?list_ascii_app;
          destruct (list_ascii_of_string cwd); [discriminate|exact Hc
                                               |discriminate|exact Hc]. }
    split; [exact Hpa|]. unfold absolute in Hpa. unfold CheckRoot.
    now rewrite Hpa.
Qed.

Lemma CheckRoot_absolute_witness :
  let junk := list_ascii_of_string "0123456789AB!?" in
  (absolute "notes" -> CheckRoot junk "/home" "notes" = Some "notes"%string) /\
  (~ absolute "notes" ->
   ((18 < String.length "/home/notes")%nat ->
    CheckRoot junk "/home" "notes" = None) /\
   ((String.length "/home/notes" <= 18)%nat ->
    CheckRoot junk "/home" "notes" = Some "/home/notesB!?"%string)) /\
  (forall p,
     CheckRoot junk "/home" "notes" = Some p ->
     absolute p /\ CheckRoot junk "/home" p = Some p).
Proof.
  intros junk.
  apply (CheckRoot_absolute junk "/home" "notes").
  - reflexivity.
  - unfold no_NUL. vm_compute. intros H.
    repeat (apply elem_of_cons in H as [H|H]; [discriminate|]).
    inversion H.
  - unfold no_NUL. vm_compute. intros H.
    repeat (apply elem_of_cons in H as [H|H]; [discriminate|]).
    inversion H.
Defined.

End PathProps.


(* ================================================================== *)
(** * [OpenPath]: the walk from the root *)
(* ================================================================== *)

Module ResolveProps.
Import Machine FileHeader Disk Kernel FS Path Parent Dirs PathProps.

Section Walk.

Variable del : OpenFile -> State -> outcome State.















End Walk.



Ltac concrete_name :=
  let H := fresh in
  unfold plain, no_NUL; vm_compute; intros H;
  repeat (apply elem_of_cons in H as [H|H]; [discriminate|]);
  inversion H.











End ResolveProps.


(* ================================================================== *)
(** * Names under the root: create, open, remove *)
(* ================================================================== *)

Module NameProps.
Import Machine FileHeader Disk Kernel FS Path Parent Dirs Files.
Import AllocProps PathProps ResolveProps RoundTrip.

(** ** The free map *)






(** ** Directory tables *)








(** ** A name directly under the root *)



Lemma root_eq st : Directory_FetchFrom st (directoryFile st) = root st.
Proof. reflexivity. Qed.

Lemma State_eta st :
  mkState (synchDisk st) (freeMapStore st) (dirStore st) (filetable st)
    (currentPath st) (junk st) = st.
Proof. now destruct st. Qed.



Ltac concrete_name :=
  let H := fresh in
  unfold plain, no_NUL; vm_compute; intros H;
  repeat (apply elem_of_cons in H as [H|H]; [discriminate|]);
  inversion H.










End NameProps.


(* ================================================================== *)
(** * Directories under the root *)
(* ================================================================== *)

Module MakeDirProps.
Import Machine FileHeader Disk Kernel FS Path Parent Dirs Files.
Import AllocProps PathProps ResolveProps RoundTrip NameProps.






(** ** A file in a directory under the root *)






(** ** [RemoveDir] *)






(** X27. When [MakeDir] answers false it has written nothing: the
    state is the one [OpenPath] left after the walk to the parent,
    and if no file is marked for removal the free map, the
    directories and the sectors on disk are those before the call.
    The entry and the bit taken for the header when the data sectors
    cannot be allocated are taken back on the copies in memory
    only. *)
Theorem makedir_failure_atomic fuel M st path st' :
  MakeDir fuel M st path = Ok (false, st') ->
  (exists p parent d,
     FS.CheckRoot st path = Ok p /\
     Dirs.getParent M p = Ok parent /\
     OpenPath (delete_OpenFile fuel) st parent = Ok (st', d)) /\
  (no_pending (filetable st) ->
   freeMapStore st' = freeMapStore st /\ dirStore st' = dirStore st /\
   synchDisk st' = synchDisk st).
Proof.
  intros H.
  assert (Hex : exists p parent d,
    FS.CheckRoot st path = Ok p /\
    Dirs.getParent M p = Ok parent /\
    OpenPath (delete_OpenFile fuel) st parent = Ok (st', d)).
  { unfold MakeDir, MakeDir_with in H.
    destruct (FS.CheckRoot st path) as [p| | | |] eqn:Ep; cbn [bind] in H;
      try discriminate.
    destruct (Dirs.getParent M p) as [parent| | | |] eqn:Eg; cbn in H;
      try discriminate.
    destruct (FS.getName _) as [name| | | |]; cbn in H; try discriminate.
    destruct (OpenPath _ st parent) as [[st1 d]| | | |] eqn:Eo; cbn in H;
      try discriminate.
    destruct d as [[dir ds]|]; [|injection H as <-; eauto 10].
    destruct (taken dir name); [injection H as <-; eauto 10|].
    destruct (Bitmap.Find (Bitmap_FetchFrom st1)) as [sec fm].
    destruct (sec =? -1); [injection H as <-; eauto 10|].
    destruct (Directory.Add _ _ _ _) as [added dir'].
    destruct added; cbn in H; [|injection H as <-; eauto 10].
    destruct (Allocate _ _) as [[fm' hd]|].
    - destruct (flush_directory _ _ _ _); cbn in H; discriminate.
    - destruct (Directory.Remove dir' name). injection H as <-. eauto 10. }
  split; [exact Hex|]. intros Hnp.
  destruct Hex as (p & parent & d & _ & _ & Hd).
  exact (FileSystemProps.OpenPath_no_pending fuel st parent st' d Hnp Hd).
Qed.

Lemma makedir_failure_atomic_witness :
  (exists p parent d,
     FS.CheckRoot Trees.usr_made "/usr" = Ok p /\
     Dirs.getParent 64 p = Ok parent /\
     OpenPath (delete_OpenFile 1) Trees.usr_made parent
     = Ok (Trees.usr_made, d)) /\
  (no_pending (filetable Trees.usr_made) ->
   freeMapStore Trees.usr_made = freeMapStore Trees.usr_made /\
   dirStore Trees.usr_made = dirStore Trees.usr_made /\
   synchDisk Trees.usr_made = synchDisk Trees.usr_made).
Proof.
  apply (makedir_failure_atomic 1 64 Trees.usr_made "/usr" Trees.usr_made).
  vm_compute. reflexivity.
Defined.

End MakeDirProps.


(* ================================================================== *)
(** * Reading: what [ReadAt] and [Read] hand out *)
(* ================================================================== *)

Module ReadProps.
Import Machine FileHeader Disk Kernel FS Files.
Import CoordinatorProps AllocProps SectorProps IOProps RoundTrip NameProps.

(** The exit section undoes the entry section. *)
Lemma reader_enter_exit (nd nd1 : Filetable.Filenode) :
  Coordinator.reader_enter nd = Some nd1 ->
  Coordinator.reader_exit nd1 = Some nd.
Proof.
  destruct nd as [nm sc us rm le cr cw].
  unfold Coordinator.reader_enter, Coordinator.reader_exit,
    Coordinator.P_Can_Read, Coordinator.P_Can_Write, Coordinator.V_Can_Read,
    Coordinator.V_Can_Write, Coordinator.inc_lectores,
    Coordinator.dec_lectores, Synch.P, Synch.V, Filetable.set_Can_Read,
    Filetable.set_Can_Write, Filetable.set_lectores.
  cbn. destruct (Z.ltb_spec 0 cr) as [Hcr|]; [|discriminate]. cbn.
  destruct (Z.eqb_spec (le + 1) 1) as [Hle|Hle].
  - destruct (Z.ltb_spec 0 cw) as [Hcw|]; [|discriminate]. cbn.
    intros [= <-]. cbn.
    replace (0 <? cr - 1 + 1) with true by (symmetry; apply Z.ltb_lt; lia).
    cbn. replace (le + 1 - 1 =? 0) with true
      by (symmetry; apply Z.eqb_eq; lia).
    cbn. do 2 f_equal; lia.
  - cbn. intros [= <-]. cbn.
    replace (0 <? cr - 1 + 1) with true by (symmetry; apply Z.ltb_lt; lia).
    cbn. replace (le + 1 - 1 =? 0) with false
      by (symmetry; apply Z.eqb_neq; lia).
    cbn. do 2 f_equal; lia.
Qed.

Lemma reader_enter_None (nd : Filetable.Filenode) :
  Coordinator.reader_enter nd = None <->
  Filetable.Can_Read nd <= 0 \/
  (Filetable.lectores nd = 0 /\ Filetable.Can_Write nd <= 0).
Proof.
  destruct nd as [nm sc us rm le cr cw].
  unfold Coordinator.reader_enter, Coordinator.P_Can_Read,
    Coordinator.P_Can_Write, Coordinator.V_Can_Read,
    Coordinator.inc_lectores, Synch.P, Synch.V, Filetable.set_Can_Read,
    Filetable.set_Can_Write, Filetable.set_lectores.
  cbn. destruct (Z.ltb_spec 0 cr) as [Hcr|Hcr]; cbn.
  - destruct (Z.eqb_spec (le + 1) 1) as [Hle|Hle]; cbn.
    + destruct (Z.ltb_spec 0 cw) as [Hcw|Hcw]; cbn; split;
        try discriminate; try lia; auto.
    + split; [discriminate|lia].
  - split; auto.
Qed.

Lemma Internal_ReadAt_cases st g n pos :
  (exists r, Internal_ReadAt st g n pos = Ok r) \/
  Internal_ReadAt st g n pos = MemFault.
Proof.
  unfold Internal_ReadAt.
  repeat match goal with
         | |- context [if ?b then _ else _] => destruct b
         end; eauto.
Qed.

(** X20. [ReadAt] changes nothing: whenever it returns, the state is
    the one it was called in, the exit section having undone what the
    entry section did to the node; the handle keeps its sector and
    position and holds the header as it is on disk.  It waits for ever
    exactly when the file has a node whose [Can_Read] is taken, or
    which has no reader while [Can_Write] is taken. *)
Theorem ReadAt_leaves_state st f n pos :
  (forall st' f' r,
     ReadAt st f n pos = Ok (st', f', r) ->
     st' = st /\ sector f' = sector f /\ seekPosition f' = seekPosition f /\
     hdr f' = FetchFrom (synchDisk st) (sector f)) /\
  (ReadAt st f n pos = Blocked <->
   exists nd,
     filetable st !! sector f = Some nd /\
     (Filetable.Can_Read nd <= 0 \/
      (Filetable.lectores nd = 0 /\ Filetable.Can_Write nd <= 0))).
Proof.
  unfold ReadAt, on_node, Filetable.find, Filetable.store.
  cbn [sector set_hdr].
  set (g := set_hdr _ f).
  destruct (filetable st !! sector f) as [nd|] eqn:End.
  - destruct (Coordinator.reader_enter nd) as [nd1|] eqn:Een; cbn [bind].
    + destruct (Internal_ReadAt_cases
                  (set_filetable (<[sector f := nd1]> (filetable st)) st)
                  g n pos) as [[r Er]|Er];
        rewrite Er; cbn [bind filetable set_filetable].
      * rewrite lookup_insert_eq, (reader_enter_exit _ _ Een).
        rewrite insert_insert_eq, (insert_id _ _ _ End).
        split.
        -- intros st' f' r' [= <- <- <-]. split; [now destruct st|].
           auto.
        -- split; [discriminate|].
           intros (nd' & [= <-] & H). apply reader_enter_None in H.
           congruence.
      * split; [discriminate|]. split; [discriminate|].
        intros (nd' & [= <-] & H). apply reader_enter_None in H.
        congruence.
    + split; [discriminate|]. split; [|reflexivity].
      intros _. exists nd. split; [reflexivity|].
      now apply reader_enter_None.
  - cbn [bind].
    destruct (Internal_ReadAt_cases st g n pos) as [[r Er]|Er];
      rewrite Er; cbn [bind]; rewrite ?End; cbn [bind].
    + split.
      * intros st' f' r' [= <- <- <-]. auto.
      * split; [discriminate|intros (nd & E & _); discriminate].
    + split; [discriminate|].
      split; [discriminate|intros (nd & E & _); discriminate].
Qed.

Lemma ReadAt_leaves_state_witness :
  match ReadAt (fst Trees.notes_opened) (snd Trees.notes_opened) 10 0 with
  | Ok (st', _, _) => st' = fst Trees.notes_opened
  | _ => False
  end.
Proof.
  destruct (ReadAt (fst Trees.notes_opened) (snd Trees.notes_opened) 10 0)
    as [[[st' f'] r]| | | |] eqn:E;
    try (vm_compute in E; discriminate).
  exact (proj1 (proj1 (ReadAt_leaves_state _ _ _ _) st' f' r E)).
Defined.

(** ** The bytes of a file *)

Lemma file_sectors_range (f : OpenFile) a cnt :
  Z.of_nat (length (dataSectors (hdr f))) <= NUM_DIRECT ->
  0 <= a -> 0 <= cnt ->
  a + cnt <= Z.of_nat (length (dataSectors (hdr f))) ->
  (fun i => ByteToSector (hdr f) (u32 (i * SECTOR_SIZE))) <$> seqZ a cnt
  = take (Z.to_nat cnt) (drop (Z.to_nat a) (dataSectors (hdr f))).
Proof.
  intros Hmax Ha Hc Hlen. apply list_eq. intros j.
  rewrite list_lookup_fmap.
  destruct (decide (Z.of_nat j < cnt)) as [Hj|Hj].
  - rewrite lookup_seqZ_lt by exact Hj. cbn.
    rewrite lookup_take_lt by lia. rewrite lookup_drop.
    pose proof (ByteToSector_index f Hmax (a + Z.of_nat j) ltac:(lia)) as E.
    replace (Z.to_nat a + j)%nat with (Z.to_nat (a + Z.of_nat j)) by lia.
    now rewrite E.
  - rewrite lookup_seqZ_ge by lia. cbn.
    now rewrite lookup_take_ge by lia.
Qed.

Lemma read_sectors_range st (f : OpenFile) a b :
  Z.of_nat (length (dataSectors (hdr f))) <= NUM_DIRECT ->
  0 <= a -> a <= b + 1 ->
  b < Z.of_nat (length (dataSectors (hdr f))) ->
  read_sectors st f a b
  = flat_map (ReadSector (synchDisk st))
      (take (Z.to_nat (b - a + 1))
         (drop (Z.to_nat a) (dataSectors (hdr f)))).
Proof.
  intros Hmax Ha Hab Hb. unfold read_sectors.
  rewrite <- (file_sectors_range f a (b - a + 1)) by lia.
  now rewrite flat_map_fmap.
Qed.

Lemma length_flat_sectors d (l : list Z) :
  length (flat_map (ReadSector d) l)
  = (length l * Z.to_nat SECTOR_SIZE)%nat.
Proof. apply length_flat_map_const. intros x. apply length_ReadSector. Qed.

(** A run of sectors of the file is a slice of all its sectors. *)
Lemma flat_sectors_slice d (l : list Z) (a k : nat) :
  (a + k <= length l)%nat ->
  flat_map (ReadSector d) (take k (drop a l))
  = take (k * Z.to_nat SECTOR_SIZE)
      (drop (a * Z.to_nat SECTOR_SIZE) (flat_map (ReadSector d) l)).
Proof.
  intros H.
  rewrite <- (take_drop a l) at 2. rewrite flat_map_app.
  rewrite drop_app_length'
    by (rewrite length_flat_sectors, length_take; f_equal; lia).
  rewrite <- (take_drop k (drop a l)) at 2. rewrite flat_map_app.
  rewrite take_app_length'; [reflexivity|].
  rewrite length_flat_sectors, length_take, length_drop. f_equal. lia.
Qed.

Lemma take_drop_take {A} (l : list A) (nb off L : nat) :
  (off + nb <= L)%nat ->
  take nb (drop off (take L l)) = take nb (drop off l).
Proof.
  intros H. rewrite !take_drop_commute, take_take.
  now replace (Nat.min (off + nb) L) with (off + nb)%nat by lia.
Qed.

Lemma contents_all st h :
  header_ok h ->
  contents st h
  = take (Z.to_nat (numBytes h))
      (flat_map (ReadSector (synchDisk st)) (dataSectors h)).
Proof.
  intros (_ & _ & _ & Hlen & _). unfold contents.
  now rewrite (take_ge (dataSectors h)) by lia.
Qed.

(** [Internal_ReadAt] hands out a slice of the file. *)
Lemma Internal_ReadAt_slice st f n pos :
  header_ok (hdr f) -> 0 <= pos -> 0 <= n -> pos + n < 4294967296 ->
  let cnt := Z.max 0 (Z.min n (numBytes (hdr f) - pos)) in
  Internal_ReadAt st f n pos
  = Ok (take (Z.to_nat cnt) (drop (Z.to_nat pos) (contents st (hdr f))), cnt).
Proof.
  intros Hok Hpos Hn Hsum cnt.
  pose proof Hok as (Hnb & Hns & Hmax & Hlen & _).
  destruct (Z.eq_dec n 0) as [->|Hn0].
  { unfold Internal_ReadAt. cbn [Z.eqb].
    replace cnt with 0 by (subst cnt; lia). reflexivity. }
  destruct (Z_le_gt_dec (numBytes (hdr f)) pos) as [Hout|Hin].
  { unfold Internal_ReadAt, FileLength.
    replace (n =? 0) with false by (symmetry; apply Z.eqb_neq; lia).
    replace (numBytes (hdr f) <=? pos) with true
      by (symmetry; apply Z.leb_le; lia).
    replace cnt with 0 by (subst cnt; lia). reflexivity. }
  pose proof (header_ok_max _ Hok) as Hsz.
  rewrite Internal_ReadAt_inside by lia. cbv zeta.
  assert (Ecnt : cnt = Z.min n (numBytes (hdr f) - pos)) by (subst cnt; lia).
  rewrite <- Ecnt. f_equal. f_equal.
  assert (Hc : 0 < cnt <= numBytes (hdr f) - pos) by lia.
  set (first := pos / SECTOR_SIZE). set (last := (pos + cnt - 1) / SECTOR_SIZE).
  assert (Hf : 0 <= first <= last /\ last < numSectors (hdr f) /\
               first * SECTOR_SIZE <= pos /\
               pos + cnt <= (last + 1) * SECTOR_SIZE).
  { subst first last. rewrite Hns. unfold DivRoundUp, SECTOR_SIZE in *. lia. }
  destruct Hf as (Hfl & Hlast & Hfp & Hpl).
  rewrite read_sectors_range by lia.
  rewrite flat_sectors_slice by lia.
  rewrite contents_all by exact Hok.
  rewrite take_drop_take.
  2:{ unfold SECTOR_SIZE in *. lia. }
  rewrite drop_drop.
  rewrite take_drop_take by lia.
  do 2 f_equal. unfold SECTOR_SIZE in *. lia.
Qed.

Lemma Internal_ReadAt_ext st1 st2 g1 g2 n pos :
  synchDisk st1 = synchDisk st2 -> hdr g1 = hdr g2 ->
  Internal_ReadAt st1 g1 n pos = Internal_ReadAt st2 g2 n pos.
Proof.
  intros Hd Hh. unfold Internal_ReadAt. rewrite Hh.
  now rewrite (read_sectors_ext st1 st2 g1 g2 _ _ Hd Hh).
Qed.

Lemma reader_enter_Some (nd : Filetable.Filenode) :
  lets_read nd -> exists nd1, Coordinator.reader_enter nd = Some nd1.
Proof.
  intros [Hr Hw]. destruct (Coordinator.reader_enter nd) as [nd1|] eqn:E;
    [eauto|].
  apply reader_enter_None in E as [E|[E1 E2]]; [lia|].
  specialize (Hw E1). lia.
Qed.

(** With a node that lets the reader in, [ReadAt] is
    [Internal_ReadAt] on the header as it is on disk. *)
Lemma ReadAt_eq st f n pos :
  (forall nd, filetable st !! sector f = Some nd -> lets_read nd) ->
  let g := set_hdr (FetchFrom (synchDisk st) (sector f)) f in
  ReadAt st f n pos = (r <- Internal_ReadAt st g n pos ;; Ok (st, g, r)).
Proof.
  intros Hnode g. unfold ReadAt, on_node, Filetable.find, Filetable.store.
  cbn [sector set_hdr]. fold g.
  destruct (filetable st !! sector f) as [nd|] eqn:End.
  - destruct (reader_enter_Some nd (Hnode nd eq_refl)) as [nd1 Een].
    rewrite Een. cbn [bind].
    rewrite (Internal_ReadAt_ext (set_filetable _ st) st g g n pos
               eq_refl eq_refl).
    destruct (Internal_ReadAt st g n pos) as [r| | | |]; cbn [bind];
      try reflexivity.
    cbn [filetable set_filetable].
    rewrite lookup_insert_eq, (reader_enter_exit _ _ Een).
    rewrite insert_insert_eq, (insert_id _ _ _ End).
    do 3 f_equal. now destruct st.
  - cbn [bind].
    destruct (Internal_ReadAt st g n pos) as [r| | | |]; cbn [bind];
      try reflexivity.
    now rewrite End.
Qed.

(** [ReadAt] in terms of the bytes of the file. *)
Lemma ReadAt_contents st f n pos :
  let h := FetchFrom (synchDisk st) (sector f) in
  header_ok h -> 0 <= pos -> 0 <= n -> pos + n < 4294967296 ->
  (forall nd, filetable st !! sector f = Some nd -> lets_read nd) ->
  let cnt := Z.max 0 (Z.min n (numBytes h - pos)) in
  ReadAt st f n pos
  = Ok (st, set_hdr h f,
        (take (Z.to_nat cnt) (drop (Z.to_nat pos) (contents st h)), cnt)).
Proof.
  intros h Hok Hpos Hn Hsum Hnode cnt.
  rewrite ReadAt_eq by exact Hnode. cbv zeta. fold h.
  rewrite (Internal_ReadAt_slice st (set_hdr h f) n pos Hok Hpos Hn Hsum).
  reflexivity.
Qed.

Lemma length_contents st h :
  header_ok h -> length (contents st h) = Z.to_nat (numBytes h).
Proof.
  intros Hok. rewrite contents_all by exact Hok.
  destruct Hok as (Hnb & Hns & _ & Hlen & _).
  rewrite length_take, length_flat_sectors, Hlen, Hns.
  unfold DivRoundUp, SECTOR_SIZE. lia.
Qed.

(** X21. [ReadAt] hands out a slice of the file and never more: for a
    file whose header on disk is well formed, and a node that lets
    the reader in, [ReadAt(into, n, position)] hands out the first
    [n] of the bytes of the file from [position] on, or all of them
    when they are fewer, none when [position] is at or past the end;
    it returns their number and leaves the state as it was. *)
Theorem ReadAt_slice st f n pos :
  let h := FetchFrom (synchDisk st) (sector f) in
  header_ok h -> 0 <= pos -> 0 <= n -> pos + n < 4294967296 ->
  (forall nd, filetable st !! sector f = Some nd -> lets_read nd) ->
  exists bytes cnt,
    ReadAt st f n pos = Ok (st, set_hdr h f, (bytes, cnt)) /\
    bytes = take (Z.to_nat n) (drop (Z.to_nat pos) (contents st h)) /\
    cnt = Z.of_nat (length bytes) /\
    cnt = Z.max 0 (Z.min n (numBytes h - pos)).
Proof.
  intros h Hok Hpos Hn Hsum Hnode.
  pose proof (length_contents st h Hok) as HC.
  pose proof Hok as (Hnb & _).
  set (cnt := Z.max 0 (Z.min n (numBytes h - pos))).
  assert (E : take (Z.to_nat cnt) (drop (Z.to_nat pos) (contents st h))
              = take (Z.to_nat n) (drop (Z.to_nat pos) (contents st h))).
  { destruct (decide (n <= numBytes h - pos)) as [Hle|Hgt].
    - f_equal. lia.
    - rewrite !take_ge; [reflexivity|rewrite length_drop; lia..]. }
  exists (take (Z.to_nat n) (drop (Z.to_nat pos) (contents st h))), cnt.
  split_and!.
  - rewrite <- E. exact (ReadAt_contents st f n pos Hok Hpos Hn Hsum Hnode).
  - reflexivity.
  - rewrite length_take, length_drop, HC. lia.
  - reflexivity.
Qed.

Lemma ReadAt_slice_witness :
  let st := fst Trees.notes_opened in
  let f := snd Trees.notes_opened in
  let h := FetchFrom (synchDisk st) (sector f) in
  exists bytes cnt,
    ReadAt st f 400 100 = Ok (st, set_hdr h f, (bytes, cnt)) /\
    bytes = take 400 (drop 100 (contents st h)) /\
    cnt = Z.of_nat (length bytes) /\
    cnt = Z.max 0 (Z.min 400 (numBytes h - 100)).
Proof.
  intros st f h.
  apply (ReadAt_slice (fst Trees.notes_opened) (snd Trees.notes_opened)
           400 100); try lia.
  - vm_compute. split_and!; try discriminate; try reflexivity.
    repeat constructor; intros H;
      repeat (apply elem_of_cons in H as [H|H]; [discriminate|]);
      inversion H.
  - intros nd H. vm_compute in H. injection H as <-.
    split; [reflexivity|]. intros _. reflexivity.
Defined.

(** X22. [Read] moves the position by the count it returns, so two
    calls in a row hand out what one call for both counts hands out:
    the bytes of the first followed by the bytes of the second, and
    the position ends where the single call leaves it. *)
Theorem reads_in_a_row st f n1 n2 :
  let h := FetchFrom (synchDisk st) (sector f) in
  header_ok h -> 0 < n1 -> 0 < n2 -> 0 <= seekPosition f ->
  seekPosition f + n1 + n2 < 4294967296 ->
  (forall nd, filetable st !! sector f = Some nd -> lets_read nd) ->
  exists f1 f2 b1 c1 b2 c2,
    Read st f n1 = Ok (st, f1, (b1, c1)) /\
    Read st f1 n2 = Ok (st, f2, (b2, c2)) /\
    Read st f (n1 + n2) = Ok (st, f2, (b1 ++ b2, c1 + c2)) /\
    seekPosition f2 = seekPosition f + c1 + c2.
Proof.
  intros h Hok H1 H2 Hp Hsum Hnode.
  pose proof Hok as (Hnb & _).
  set (p := seekPosition f) in *.
  set (c1 := Z.max 0 (Z.min n1 (numBytes h - p))).
  set (f1 := Seek (set_hdr h f) (u32 (p + c1))).
  assert (Ep1 : u32 (p + c1) = p + c1) by (apply u32_small; lia).
  set (c2 := Z.max 0 (Z.min n2 (numBytes h - (p + c1)))).
  set (f2 := Seek (set_hdr h f1) (u32 (seekPosition f1 + c2))).
  exists f1, f2,
    (take (Z.to_nat c1) (drop (Z.to_nat p) (contents st h))), c1,
    (take (Z.to_nat c2) (drop (Z.to_nat (p + c1)) (contents st h))), c2.
  assert (E1 : Read st f n1
    = Ok (st, f1,
          (take (Z.to_nat c1) (drop (Z.to_nat p) (contents st h)), c1))).
  { unfold Read, ASSERT.
    replace (0 <? n1) with true by (symmetry; apply Z.ltb_lt; lia).
    cbn [bind]. fold p.
    rewrite (ReadAt_contents st f n1 p Hok) by (auto; lia).
    cbn [bind snd seekPosition set_hdr]. reflexivity. }
  assert (E2 : Read st f1 n2
    = Ok (st, f2,
          (take (Z.to_nat c2) (drop (Z.to_nat (p + c1)) (contents st h)),
           c2))).
  { unfold Read, ASSERT.
    replace (0 <? n2) with true by (symmetry; apply Z.ltb_lt; lia).
    cbn [bind].
    replace (seekPosition f1) with (p + c1) by (symmetry; exact Ep1).
    rewrite (ReadAt_contents st f1 n2 (p + c1) Hok) by (auto; lia).
    cbn [bind snd]. subst f2. reflexivity. }
  split; [exact E1|]. split; [exact E2|]. split.
  - unfold Read, ASSERT.
    replace (0 <? n1 + n2) with true by (symmetry; apply Z.ltb_lt; lia).
    cbn [bind]. fold p.
    rewrite (ReadAt_contents st f (n1 + n2) p Hok) by (auto; lia).
    cbn [bind snd seekPosition set_hdr].
    assert (Ec : Z.max 0 (Z.min (n1 + n2) (numBytes h - p)) = c1 + c2)
      by (subst c1 c2; lia).
    fold h. rewrite Ec. do 3 f_equal.
    + subst f2 f1. unfold Seek, set_hdr. cbn. f_equal.
      rewrite Ep1. f_equal. lia.
    + replace (Z.to_nat (p + c1)) with (Z.to_nat p + Z.to_nat c1)%nat by lia.
      rewrite <- drop_drop, take_take_drop. f_equal. lia.
  - subst f2. cbn. rewrite Ep1. rewrite u32_small by lia. lia.
Qed.

Lemma reads_in_a_row_witness :
  exists f1 f2 b1 c1 b2 c2,
    Read (fst Trees.notes_opened) (snd Trees.notes_opened) 100
    = Ok (fst Trees.notes_opened, f1, (b1, c1)) /\
    Read (fst Trees.notes_opened) f1 300
    = Ok (fst Trees.notes_opened, f2, (b2, c2)) /\
    Read (fst Trees.notes_opened) (snd Trees.notes_opened) (100 + 300)
    = Ok (fst Trees.notes_opened, f2, (b1 ++ b2, c1 + c2)) /\
    seekPosition f2 = seekPosition (snd Trees.notes_opened) + c1 + c2.
Proof.
  apply (reads_in_a_row (fst Trees.notes_opened) (snd Trees.notes_opened)
           100 300); try lia.
  - vm_compute. split_and!; try discriminate; try reflexivity.
    repeat constructor; intros H;
      repeat (apply elem_of_cons in H as [H|H]; [discriminate|]);
      inversion H.
  - vm_compute. discriminate.
  - vm_compute. reflexivity.
  - intros nd H. vm_compute in H. injection H as <-.
    split; [reflexivity|]. intros _. reflexivity.
Defined.

End ReadProps.


(* ================================================================== *)
(** * Writing: what [WriteAt] and [Expand] leave in the file *)
(* ================================================================== *)

Module WriteProps.
Import Machine FileHeader Disk Kernel FS Files.
Import CoordinatorProps AllocProps SectorProps IOProps RoundTrip NameProps.
Import ReadProps.

Lemma ReadSector_ext (d d' : Disk.t) s :
  d' !! s = d !! s -> ReadSector d' s = ReadSector d s.
Proof. intros E. unfold ReadSector. now rewrite E. Qed.

Lemma flat_sectors_ext (d d' : Disk.t) (l : list Z) :
  (forall s, s ∈ l -> d' !! s = d !! s) ->
  flat_map (ReadSector d') l = flat_map (ReadSector d) l.
Proof.
  intros H. apply flat_map_ext_elem. intros s Hs.
  now apply ReadSector_ext, H.
Qed.

Lemma flat_sectors_take d (l : list Z) (a : nat) :
  flat_map (ReadSector d) (take a l)
  = take (a * Z.to_nat SECTOR_SIZE) (flat_map (ReadSector d) l).
Proof.
  destruct (decide (a <= length l)%nat) as [Hle|Hgt].
  - rewrite <- (take_drop a l) at 2. rewrite flat_map_app.
    rewrite take_app_length'; [reflexivity|].
    rewrite length_flat_sectors, length_take. f_equal. lia.
  - rewrite (take_ge l a) by lia.
    rewrite (take_ge (flat_map _ _)); [reflexivity|].
    rewrite length_flat_sectors. apply Nat.mul_le_mono_r. lia.
Qed.

Lemma flat_sectors_drop d (l : list Z) (a : nat) :
  flat_map (ReadSector d) (drop a l)
  = drop (a * Z.to_nat SECTOR_SIZE) (flat_map (ReadSector d) l).
Proof.
  destruct (decide (a <= length l)%nat) as [Hle|Hgt].
  - rewrite <- (take_drop a l) at 2. rewrite flat_map_app.
    rewrite drop_app_length'; [reflexivity|].
    rewrite length_flat_sectors, length_take. f_equal. lia.
  - rewrite (drop_ge l a) by lia.
    rewrite (drop_ge (flat_map _ _)); [reflexivity|].
    rewrite length_flat_sectors. apply Nat.mul_le_mono_r. lia.
Qed.

(** All the sectors of the file after [write_sectors]: those before
    the first and behind the last sector written are as they were,
    those in between hold the buffer. *)
Lemma whole_after_write (f : OpenFile) (d : Disk.t) (buf : list byte)
    first last :
  NoDup (dataSectors (hdr f)) ->
  Z.of_nat (length (dataSectors (hdr f))) <= NUM_DIRECT ->
  0 <= first <= last -> last < Z.of_nat (length (dataSectors (hdr f))) ->
  length buf = Z.to_nat ((last - first + 1) * SECTOR_SIZE) ->
  let W := flat_map (ReadSector d) (dataSectors (hdr f)) in
  flat_map (ReadSector (write_sectors f buf first last d))
    (dataSectors (hdr f))
  = take (Z.to_nat (first * SECTOR_SIZE)) W ++ buf
    ++ drop (Z.to_nat ((last + 1) * SECTOR_SIZE)) W.
Proof.
  intros Hnd Hmax Hfl Hlast Hlen W.
  set (ds := dataSectors (hdr f)) in *.
  set (a := Z.to_nat first). set (k := Z.to_nat (last - first + 1)).
  set (d' := write_sectors f buf first last d).
  assert (Hds : ds = take a ds ++ take k (drop a ds) ++ drop (a + k) ds).
  { rewrite <- drop_drop, (take_drop k), take_drop. reflexivity. }
  assert (Hmid : (fun i => ByteToSector (hdr f) (u32 (i * SECTOR_SIZE)))
                   <$> seqZ first (last - first + 1)
                 = take k (drop a ds)).
  { apply file_sectors_range; fold ds; lia. }
  assert (Hout : forall s, s ∈ take a ds \/ s ∈ drop (a + k) ds ->
                           d' !! s = d !! s).
  { intros s Hs. subst d'. unfold write_sectors.
    apply (write_fold_other _
             (fun i => ByteToSector (hdr f) (u32 (i * SECTOR_SIZE)))
             (fun i => take (Z.to_nat SECTOR_SIZE)
                         (drop (Z.to_nat ((i - first) * SECTOR_SIZE)) buf))).
    rewrite Hmid. rewrite Hds in Hnd.
    apply NoDup_app in Hnd as (_ & H1 & Hnd).
    apply NoDup_app in Hnd as (_ & H2 & _).
    destruct Hs as [Hs|Hs]; [|intros Hin; exact (H2 _ Hin Hs)].
    intros Hin. apply (H1 _ Hs). apply elem_of_app. now left. }
  rewrite Hds at 1. rewrite !flat_map_app.
  f_equal; [|f_equal].
  - rewrite (flat_sectors_ext d d') by (intros s Hs; apply Hout; now left).
    rewrite flat_sectors_take. subst W a. f_equal.
    unfold SECTOR_SIZE. lia.
  - pose proof (read_after_write f Hnd Hmax (mkState d [] ∅ ∅ "" []) buf
                  first last Hfl Hlast Hlen) as E.
    cbn [synchDisk set_synchDisk] in E. fold d' in E.
    rewrite read_sectors_range in E by (fold ds; lia).
    cbn [synchDisk] in E. exact E.
  - rewrite (flat_sectors_ext d d') by (intros s Hs; apply Hout; now right).
    rewrite flat_sectors_drop. subst W a k. f_equal.
    unfold SECTOR_SIZE. lia.
Qed.

(** ** The buffer of [Internal_WriteAt] *)

Lemma overlay_eq (buf : list byte) off data :
  overlay buf off data
  = take (Z.to_nat off) buf ++ data
    ++ drop (Z.to_nat off + length data) buf.
Proof. reflexivity. Qed.

Lemma take_overlay (buf data : list byte) (off m : nat) :
  (off + length data <= m)%nat -> (m <= length buf)%nat ->
  take m (take off buf ++ data ++ drop (off + length data) buf)
  = take off buf ++ data ++ drop (off + length data) (take m buf).
Proof.
  intros H1 H2.
  rewrite take_app_ge by (rewrite length_take; lia).
  rewrite length_take. replace (off `min` length buf)%nat with off by lia.
  f_equal.
  rewrite take_app_ge by lia. f_equal.
  rewrite take_drop_commute. f_equal. f_equal. lia.
Qed.

Lemma Internal_ReadAt_whole_sector st f k :
  header_ok (hdr f) -> 0 <= k -> k * SECTOR_SIZE < numBytes (hdr f) ->
  Internal_ReadAt st f SECTOR_SIZE (k * SECTOR_SIZE)
  = Ok (take (Z.to_nat (Z.min SECTOR_SIZE (numBytes (hdr f) - k * SECTOR_SIZE)))
          (drop (Z.to_nat (k * SECTOR_SIZE)) (contents st (hdr f))),
        Z.min SECTOR_SIZE (numBytes (hdr f) - k * SECTOR_SIZE)).
Proof.
  intros Hok Hk Hlt. pose proof (header_ok_max _ Hok) as Hmax.
  rewrite Internal_ReadAt_slice; try exact Hok;
    try (unfold SECTOR_SIZE, NUM_DIRECT in *; lia).
  cbv zeta.
  replace (Z.max 0 (Z.min SECTOR_SIZE (numBytes (hdr f) - k * SECTOR_SIZE)))
    with (Z.min SECTOR_SIZE (numBytes (hdr f) - k * SECTOR_SIZE))
    by (unfold SECTOR_SIZE in *; lia).
  reflexivity.
Qed.

(** A write that ends inside the file writes [write_buffer] back. *)
Lemma Internal_WriteAt_buffer heap st f from n pos :
  header_ok (hdr f) ->
  0 <= pos -> 0 < n -> pos + n <= numBytes (hdr f) ->
  (Z.to_nat n <= length from)%nat ->
  let buf := write_buffer heap (contents st (hdr f)) (numBytes (hdr f))
               pos n from in
  length buf
  = Z.to_nat (((pos + n - 1) / SECTOR_SIZE - pos / SECTOR_SIZE + 1)
              * SECTOR_SIZE) /\
  Internal_WriteAt heap st f from n pos
  = Ok (set_synchDisk
          (write_sectors f buf (pos / SECTOR_SIZE)
             ((pos + n - 1) / SECTOR_SIZE) (synchDisk st)) st, n).
Proof.
  intros Hok Hpos Hn HL Hfrom.
  pose proof (header_ok_max _ Hok) as Hmax.
  pose proof (Internal_ReadAt_whole_sector st f) as Hsec.
  pose proof (length_contents st (hdr f) Hok) as HC.
  unfold write_buffer.
  unfold Internal_WriteAt, FileLength, DivRoundDown, ASSERT.
  replace (0 <? n) with true by (symmetry; apply Z.ltb_lt; lia).
  cbn [bind].
  replace (numBytes (hdr f) <=? pos) with false
    by (symmetry; apply Z.leb_gt; lia).
  unfold NUM_DIRECT in *. unfold SECTOR_SIZE in Hmax, Hsec |- *.
  rewrite (u32_small (pos + n)) by lia.
  replace (numBytes (hdr f) <? pos + n) with false
    by (symmetry; apply Z.ltb_ge; lia).
  cbv iota beta.
  rewrite (u32_small (pos + n - 1)) by lia.
  set (first := pos / 128). set (last := (pos + n - 1) / 128).
  assert (Hfl : 0 <= first <= last /\ last < 30) by (subst first last; lia).
  assert (Hoff : 0 <= pos - first * 128 < 128) by (subst first; lia).
  assert (Hend : pos - first * 128 + n <= (last - first + 1) * 128)
    by (subst first last; lia).
  assert (Hlast : last * 128 < numBytes (hdr f)) by (subst last; lia).
  assert (Hfirst : first * 128 < numBytes (hdr f)) by (subst first; lia).
  rewrite (u32_small (1 + last - first)) by lia.
  rewrite (u32_small ((1 + last - first) * 128)) by lia.
  rewrite (u32_small (first * 128)) by lia.
  rewrite (u32_small ((last + 1) * 128)) by lia.
  rewrite (u32_small (last * 128)) by lia.
  rewrite (u32_small ((last - first) * 128)) by lia.
  rewrite (u32_small (pos - first * 128)) by lia.
  rewrite (Hsec first) by (auto; lia).
  rewrite (Hsec last) by (auto; lia).
  set (len := Z.to_nat ((last - first + 1) * 128)).
  set (junk := new_char heap ((1 + last - first) * 128)).
  assert (H0 : length junk = len)
    by (subst junk; rewrite length_new_char; subst len; f_equal; lia).
  set (s1 := take (Z.to_nat (Z.min 128 (numBytes (hdr f) - first * 128)))
               (drop (Z.to_nat (first * 128)) (contents st (hdr f)))).
  set (s2 := take (Z.to_nat (Z.min 128 (numBytes (hdr f) - last * 128)))
               (drop (Z.to_nat (last * 128)) (contents st (hdr f)))).
  assert (Hs1 : (length s1 <= 128)%nat) by (subst s1; rewrite length_take; lia).
  assert (Hs2 : (length s2 <= 128)%nat) by (subst s2; rewrite length_take; lia).
  assert (Hdata : length (take (Z.to_nat n) from) = Z.to_nat n)
    by (rewrite length_take; lia).
  assert (Hov : forall (b : list byte) o (x : list byte),
            length b = len -> 0 <= o ->
            (Z.to_nat o + length x <= len)%nat ->
            length (overlay b o x) = len).
  { intros b o x Hb Ho Hx. rewrite length_overlay; [exact Hb|exact Ho|].
    now rewrite Hb. }
  rewrite ?(u32_small (pos + n)) by lia.
  destruct (pos =? first * 128) eqn:Efa;
    destruct (pos + n =? (last + 1) * 128) eqn:Ela;
    destruct (first =? last) eqn:Esame;
    cbn [negb andb orb bind fst];
    match goal with
    | |- length (overlay ?b _ _) = _ /\ _ =>
        assert (Hb : length b = len)
          by (repeat first [exact H0 | apply Hov; [|lia|subst len; lia]]);
        replace (pos - first * 128 + n <=? Z.of_nat (length b)) with true
          by (symmetry; apply Z.leb_le; rewrite Hb; subst len; lia);
        split; [|reflexivity];
        rewrite (Hov _ _ _ Hb) by (rewrite ?Hdata; subst len; lia);
        subst len; f_equal; lia
    end.
Qed.

(** ** What the buffer holds of the file *)

Lemma splice_head (junk X : list byte) (off c1 : nat) :
  (off <= c1)%nat -> (c1 <= length X)%nat ->
  take off (take 0 junk ++ take c1 X ++ drop (0 + length (take c1 X)) junk)
  = take off X.
Proof.
  intros H1 H2. rewrite take_0. cbn [app].
  rewrite take_app_le by (rewrite length_take; lia).
  rewrite take_take. f_equal. lia.
Qed.

Lemma splice_tail (b0 X : list byte) (D c2 e : nat) :
  (D <= length b0)%nat -> (D + c2 <= length X)%nat -> (D <= e)%nat ->
  drop e (take (D + c2)
            (take D b0 ++ take c2 (drop D X)
             ++ drop (D + length (take c2 (drop D X))) b0))
  = drop e (take (D + c2) X).
Proof.
  intros H1 H2 H3.
  assert (Hl : length (take c2 (drop D X)) = c2)
    by (rewrite length_take, length_drop; lia).
  rewrite app_assoc.
  rewrite take_app_length' by (rewrite length_app, length_take, Hl; lia).
  rewrite <- (take_take_drop X D c2).
  rewrite !drop_app_ge by (rewrite length_take; lia).
  rewrite !length_take. f_equal. lia.
Qed.

(** Up to the end of the file, the buffer holds the sectors of the
    range as they were, with the bytes of [from] in their place. *)
Lemma write_buffer_visible heap (C : list byte) len pos n from :
  length C = Z.to_nat len ->
  0 <= pos -> 0 < n -> pos + n <= len ->
  (Z.to_nat n <= length from)%nat ->
  let first := pos / SECTOR_SIZE in
  let last := (pos + n - 1) / SECTOR_SIZE in
  let off := Z.to_nat (pos - first * SECTOR_SIZE) in
  let m := Z.to_nat (Z.min ((last - first + 1) * SECTOR_SIZE)
                       (len - first * SECTOR_SIZE)) in
  let X := drop (Z.to_nat (first * SECTOR_SIZE)) C in
  take m (write_buffer heap C len pos n from)
  = take off X ++ take (Z.to_nat n) from
    ++ drop (off + Z.to_nat n) (take m X).
Proof.
  intros HC Hpos Hn HL Hfrom first last off m X.
  unfold write_buffer. cbv zeta. fold first last.
  unfold SECTOR_SIZE in *.
  assert (Hfl : 0 <= first <= last) by (subst first last; lia).
  assert (Hoff : 0 <= pos - first * 128 < 128) by (subst first; lia).
  assert (Hend : pos - first * 128 + n <= (last - first + 1) * 128)
    by (subst first last; lia).
  assert (Hin : last * 128 <= pos + n - 1) by (subst last; lia).
  assert (HX : length X = Z.to_nat (len - first * 128))
    by (subst X; rewrite length_drop, HC; lia).
  set (junk := new_char heap ((1 + last - first) * 128)).
  assert (H0 : length junk = Z.to_nat ((last - first + 1) * 128))
    by (subst junk; rewrite length_new_char; f_equal; lia).
  set (D := Z.to_nat ((last - first) * 128)).
  set (c1 := Z.to_nat (Z.min 128 (len - first * 128))).
  set (c2 := Z.to_nat (Z.min 128 (len - last * 128))).
  assert (Hdata : length (take (Z.to_nat n) from) = Z.to_nat n)
    by (rewrite length_take; lia).
  assert (HX2 : drop (Z.to_nat (last * 128)) C = drop D X).
  { subst X D. rewrite drop_drop. f_equal. lia. }
  rewrite HX2. fold X.
  set (s1 := take c1 X). set (s2 := take c2 (drop D X)).
  assert (Hs1 : length s1 = c1) by (subst s1; rewrite length_take; lia).
  assert (Hs2 : length s2 = c2)
    by (subst s2; rewrite length_take, length_drop; lia).
  set (buf0 := if negb (pos =? first * 128) then overlay junk 0 s1 else junk).
  assert (Hlen0 : length buf0 = Z.to_nat ((last - first + 1) * 128)).
  { subst buf0. destruct (negb _); [|exact H0].
    rewrite length_overlay; [exact H0|lia|]. rewrite H0, Hs1. lia. }
  set (buf1 := if negb (pos + n =? (last + 1) * 128)
                  && (negb (first =? last) || (pos =? first * 128))
               then overlay buf0 ((last - first) * 128) s2 else buf0).
  assert (Hlen1 : length buf1 = Z.to_nat ((last - first + 1) * 128)).
  { subst buf1. destruct (_ && _); [|exact Hlen0].
    rewrite length_overlay; [exact Hlen0|lia|]. rewrite Hlen0, Hs2. lia. }
  rewrite (overlay_eq buf1). fold off.
  rewrite take_overlay by (rewrite ?Hdata, ?Hlen1; lia).
  rewrite Hdata.
  assert (ED : D = Z.to_nat ((last - first) * 128)) by reflexivity.
  assert (Eo : off = Z.to_nat (pos - first * 128)) by reflexivity.
  assert (Em : m = Z.to_nat (Z.min ((last - first + 1) * 128)
                               (len - first * 128))) by reflexivity.
  assert (E1 : c1 = Z.to_nat (Z.min 128 (len - first * 128)))
    by reflexivity.
  assert (E2 : c2 = Z.to_nat (Z.min 128 (len - last * 128)))
    by reflexivity.
  assert (Hhead : take off buf1 = take off X).
  { subst buf1 buf0.
    destruct (pos =? first * 128) eqn:Efa;
      [apply Z.eqb_eq in Efa|apply Z.eqb_neq in Efa].
    { replace off with O by lia. now rewrite !take_0. }
    cbn [negb orb].
    assert (Hh0 : take off (overlay junk 0 s1) = take off X).
    { rewrite overlay_eq. change (Z.to_nat 0) with O. subst s1.
      apply splice_head; lia. }
    destruct (negb (pos + n =? (last + 1) * 128) && _) eqn:Ec; [|exact Hh0].
    apply andb_true_iff in Ec as [_ Ec]. rewrite orb_false_r in Ec.
    apply negb_true_iff, Z.eqb_neq in Ec.
    assert (Hl : length (overlay junk 0 s1)
                 = Z.to_nat ((last - first + 1) * 128)).
    { rewrite length_overlay; [exact H0|lia|]. rewrite H0, Hs1. lia. }
    rewrite (overlay_eq (overlay junk 0 s1)). fold D.
    rewrite take_app_le by (rewrite length_take, Hl; lia).
    rewrite take_take. replace (off `min` D)%nat with off by lia.
    exact Hh0. }
  assert (Htail : drop (off + Z.to_nat n) (take m buf1)
                  = drop (off + Z.to_nat n) (take m X)).
  { destruct (pos + n =? (last + 1) * 128) eqn:Ela;
      [apply Z.eqb_eq in Ela|apply Z.eqb_neq in Ela].
    { rewrite !drop_ge; [reflexivity|rewrite length_take; lia..]. }
    subst buf1. rewrite ?(proj2 (Z.eqb_neq _ _) Ela). cbn [negb andb].
    destruct (negb (first =? last) || (pos =? first * 128)) eqn:Ec.
    - rewrite (overlay_eq buf0). fold D. subst s2.
      replace m with (D + c2)%nat by lia.
      apply splice_tail; lia.
    - apply orb_false_iff in Ec as [Ec1 Ec2].
      apply negb_false_iff, Z.eqb_eq in Ec1.
      subst buf0. rewrite Ec2. apply Z.eqb_neq in Ec2.
      cbn [negb]. rewrite overlay_eq.
      change (Z.to_nat 0) with O. rewrite take_0. cbn [app].
      rewrite Hs1. replace m with c1 by lia.
      rewrite take_app_length' by (symmetry; exact Hs1).
      subst s1. reflexivity. }
  now rewrite Hhead, Htail.
Qed.

(** The bytes of the file once the buffer is written back. *)
Lemma contents_after_write heap st (f : OpenFile) from n pos :
  header_ok (hdr f) ->
  0 <= pos -> 0 < n -> pos + n <= numBytes (hdr f) ->
  (Z.to_nat n <= length from)%nat ->
  let C := contents st (hdr f) in
  let buf := write_buffer heap C (numBytes (hdr f)) pos n from in
  let d' := write_sectors f buf (pos / SECTOR_SIZE)
              ((pos + n - 1) / SECTOR_SIZE) (synchDisk st) in
  contents (set_synchDisk d' st) (hdr f)
  = take (Z.to_nat pos) C ++ take (Z.to_nat n) from
    ++ drop (Z.to_nat (pos + n)) C.
Proof.
  intros Hok Hpos Hn HL Hfrom C buf d'.
  pose proof Hok as (Hnb & Hns & Hmax & Hlen & Hnd).
  pose proof (length_contents st (hdr f) Hok) as HC. fold C in HC.
  pose proof (Internal_WriteAt_buffer heap st f from n pos Hok Hpos Hn HL
                Hfrom) as [Hbuf _]. fold C buf in Hbuf.
  pose proof (write_buffer_visible heap C (numBytes (hdr f)) pos n from HC
                Hpos Hn HL Hfrom) as Hvis.
  cbv zeta in Hvis. fold buf in Hvis.
  unfold SECTOR_SIZE in *.
  set (first := pos / 128) in *. set (last := (pos + n - 1) / 128) in *.
  assert (Hfl : 0 <= first <= last /\ last < numSectors (hdr f) /\
                first * 128 <= pos /\ pos + n <= (last + 1) * 128 /\
                last * 128 <= pos + n - 1).
  { subst first last. rewrite Hns. unfold DivRoundUp, SECTOR_SIZE. lia. }
  destruct Hfl as (Hfl & Hlast & Hfp & Hpl & Hlp).
  set (W := flat_map (ReadSector (synchDisk st)) (dataSectors (hdr f))).
  assert (HW : length W = Z.to_nat (numSectors (hdr f) * 128)).
  { subst W. rewrite length_flat_sectors, Hlen. unfold SECTOR_SIZE. lia. }
  assert (HCW : C = take (Z.to_nat (numBytes (hdr f))) W).
  { subst C W. now apply contents_all. }
  rewrite contents_all by exact Hok. cbn [synchDisk set_synchDisk].
  subst d'.
  rewrite (whole_after_write f (synchDisk st) buf first last Hnd)
    by (unfold NUM_DIRECT, SECTOR_SIZE in *; lia).
  cbv zeta. fold W. unfold SECTOR_SIZE.
  set (A := Z.to_nat (first * 128)) in *.
  set (off := Z.to_nat (pos - first * 128)) in *.
  set (m := Z.to_nat (Z.min ((last - first + 1) * 128)
                        (numBytes (hdr f) - first * 128))) in *.
  set (nb := Z.to_nat (numBytes (hdr f))) in *.
  set (L := Z.to_nat ((last - first + 1) * 128)) in *.
  assert (EA : A = Z.to_nat (first * 128)) by reflexivity.
  assert (Eo : off = Z.to_nat (pos - first * 128)) by reflexivity.
  assert (Em : m = Z.to_nat (Z.min ((last - first + 1) * 128)
                               (numBytes (hdr f) - first * 128)))
    by reflexivity.
  assert (Enb : nb = Z.to_nat (numBytes (hdr f))) by reflexivity.
  assert (EL : L = Z.to_nat ((last - first + 1) * 128)) by reflexivity.
  replace (Z.to_nat ((last + 1) * 128)) with (A + L)%nat by lia.
  replace (Z.to_nat pos) with (A + off)%nat by lia.
  replace (Z.to_nat (pos + n)) with (A + (off + Z.to_nat n))%nat by lia.
  set (X := drop A C) in *.
  assert (HX : length X = (nb - A)%nat)
    by (subst X; rewrite length_drop, HC; lia).
  (* the left-hand side *)
  rewrite take_app_ge by (rewrite length_take, HW; lia).
  rewrite length_take, HW.
  replace (A `min` Z.to_nat (numSectors (hdr f) * 128))%nat with A by lia.
  rewrite take_app, Hbuf.
  replace (take (nb - A) buf) with (take m buf)
    by (rewrite <- (take_ge buf L) by lia; rewrite !take_take;
        f_equal; lia).
  rewrite Hvis.
  (* the right-hand side *)
  rewrite <- (take_take_drop C A off). fold X.
  rewrite <- (drop_drop C (off + Z.to_nat n) A). fold X.
  replace (take A C) with (take A W)
    by (rewrite HCW, take_take; f_equal; lia).
  rewrite <- !app_assoc. do 3 f_equal.
  rewrite <- (take_drop m X) at 2.
  rewrite drop_app_le by (rewrite length_take; lia). f_equal.
  subst X. rewrite drop_drop, HCW, take_drop_commute.
  destruct (decide (nb - A <= L)%nat) as [Hle|Hgt].
  - rewrite !drop_ge; [reflexivity|rewrite length_take; lia..].
  - replace m with L by lia. do 2 f_equal. lia.
Qed.

(** ** [WriteAt] inside the file *)

Lemma P_Can_Write_Some (nd : Filetable.Filenode) :
  lets_write nd -> exists nd1, Coordinator.P_Can_Write nd = Some nd1.
Proof.
  unfold lets_write, Coordinator.P_Can_Write, Synch.P. intros H.
  replace (0 <? Filetable.Can_Write nd) with true
    by (symmetry; apply Z.ltb_lt; lia).
  cbn. eauto.
Qed.

(** A write that ends inside the file, on a node that lets the writer
    in: the sectors of the range are written from [write_buffer] and
    nothing else changes. *)
Lemma WriteAt_inside_eq heap st f from n pos :
  let h := FetchFrom (synchDisk st) (sector f) in
  header_ok h ->
  0 <= pos -> 0 < n -> pos + n <= numBytes h ->
  (Z.to_nat n <= length from)%nat ->
  (forall nd, filetable st !! sector f = Some nd -> lets_write nd) ->
  let g := set_hdr h f in
  let buf := write_buffer heap (contents st h) (numBytes h) pos n from in
  WriteAt heap st f from n pos
  = Ok (set_synchDisk
          (write_sectors g buf (pos / SECTOR_SIZE)
             ((pos + n - 1) / SECTOR_SIZE) (synchDisk st)) st, g, n).
Proof.
  intros h Hok Hpos Hn HL Hfrom Hnode g buf.
  pose proof (header_ok_max _ Hok) as Hmax.
  unfold WriteAt, Length, FileLength. cbn [hdr set_hdr sector]. fold h.
  rewrite (u32_small (pos + n))
    by (unfold NUM_DIRECT, SECTOR_SIZE in *; lia).
  replace (numBytes h <? pos + n) with false
    by (symmetry; apply Z.ltb_ge; lia).
  unfold WriteAt_checked, Length, FileLength, ASSERT.
  cbn [hdr set_hdr sector]. fold h.
  rewrite (u32_small (pos + n))
    by (unfold NUM_DIRECT, SECTOR_SIZE in *; lia).
  replace (pos + n <=? numBytes h) with true
    by (symmetry; apply Z.leb_le; lia).
  cbn [bind]. change (set_hdr h (set_hdr h (set_hdr h f))) with g.
  unfold on_node, Filetable.find, Filetable.store.
  destruct (filetable st !! sector f) as [nd|] eqn:End.
  - destruct (P_Can_Write_Some nd (Hnode nd eq_refl)) as [nd1 Ep].
    rewrite Ep. cbn [bind].
    set (st1 := set_filetable (<[sector f := nd1]> (filetable st)) st).
    destruct (Internal_WriteAt_buffer heap st1 g from n pos Hok Hpos Hn HL
                Hfrom) as [_ E].
    rewrite E. cbn [bind fst snd filetable set_synchDisk set_filetable].
    subst st1. cbn [filetable set_filetable].
    rewrite lookup_insert_eq.
    destruct (write_then_signal nd nd1 Ep) as [_ ->].
    rewrite insert_insert_eq, (insert_id _ _ _ End). cbn [bind synchDisk].
    do 3 f_equal.
  - cbn [bind].
    destruct (Internal_WriteAt_buffer heap st g from n pos Hok Hpos Hn HL
                Hfrom) as [_ E].
    rewrite E. cbn [bind fst snd filetable set_synchDisk].
    rewrite End. reflexivity.
Qed.

(** X23. A write that ends inside the file, [WriteAt(from, n, pos)]
    with [pos + n <= Length], replaces the [n] bytes at [pos] by those
    of [from] and changes no other byte of the file, whatever the
    alignment of [pos] and [pos + n] on the sectors: the sectors only
    partly covered are read in and written back.  The header, the
    free map, the directories, the open-file table and every sector
    outside the file stay as they were. *)
Theorem WriteAt_splices heap st f from n pos :
  let h := FetchFrom (synchDisk st) (sector f) in
  file_ok st (sector f) h ->
  0 <= pos -> 0 < n -> pos + n <= numBytes h ->
  (Z.to_nat n <= length from)%nat ->
  (forall nd, filetable st !! sector f = Some nd -> lets_write nd) ->
  exists st',
    WriteAt heap st f from n pos = Ok (st', set_hdr h f, n) /\
    contents st' h
    = take (Z.to_nat pos) (contents st h) ++ take (Z.to_nat n) from
      ++ drop (Z.to_nat (pos + n)) (contents st h) /\
    (forall s, s ∉ dataSectors h -> synchDisk st' !! s = synchDisk st !! s) /\
    freeMapStore st' = freeMapStore st /\ dirStore st' = dirStore st /\
    filetable st' = filetable st.
Proof.
  intros h (Hdisk & Hok & Hsec & _) Hpos Hn HL Hfrom Hnode.
  pose proof Hok as (Hnb & Hns & Hmax & Hlen & Hnd).
  eexists. split; [apply WriteAt_inside_eq; assumption|].
  split; [|split; [|split_and!; reflexivity]].
  - exact (contents_after_write heap st (set_hdr h f) from n pos Hok Hpos Hn
             HL Hfrom).
  - intros s Hs. cbn [synchDisk set_synchDisk].
    assert (Hns0 : 0 <= numSectors h)
      by (rewrite Hns; unfold DivRoundUp, SECTOR_SIZE; apply Z.div_pos; lia).
    apply (write_sectors_other (set_hdr h f)); cbn [hdr set_hdr];
      try assumption; try (rewrite Hlen; lia).
    + unfold SECTOR_SIZE; apply Z.div_pos; lia.
    + rewrite Hlen, Hns, Z2Nat.id by (rewrite <- Hns; exact Hns0).
      unfold DivRoundUp, SECTOR_SIZE.
      apply Z.div_lt_upper_bound; [lia|].
      pose proof (Z.mod_pos_bound (numBytes h + (128 - 1)) 128 ltac:(lia)).
      pose proof (Z.div_mod (numBytes h + (128 - 1)) 128 ltac:(lia)).
      lia.
Qed.

Lemma WriteAt_splices_witness :
  let st := fst Trees.notes_opened in
  let f := snd Trees.notes_opened in
  let h := FetchFrom (synchDisk st) (sector f) in
  let from := byte_of_Z <$> [104; 101; 108; 108; 111; 33] in
  exists st',
    WriteAt [] st f from 5 126 = Ok (st', set_hdr h f, 5) /\
    contents st' h
    = take 126 (contents st h) ++ take 5 from ++ drop 131 (contents st h) /\
    (forall s, s ∉ dataSectors h -> synchDisk st' !! s = synchDisk st !! s) /\
    freeMapStore st' = freeMapStore st /\ dirStore st' = dirStore st /\
    filetable st' = filetable st.
Proof.
  intros st f h from.
  apply (WriteAt_splices [] st f from 5 126); try lia.
  - vm_compute. split_and!; try discriminate; try reflexivity.
    + repeat constructor; intros H;
        repeat (apply elem_of_cons in H as [H|H]; [discriminate|]);
        inversion H.
    + intros H.
      repeat (apply elem_of_cons in H as [H|H]; [discriminate|]);
        inversion H.
    + intros s H.
      repeat (apply elem_of_cons in H as [->|H]; [reflexivity|]);
        inversion H.
  - vm_compute. discriminate.
  - vm_compute. lia.
  - intros nd H. vm_compute in H. injection H as <-.
    unfold lets_write. reflexivity.
Defined.

End WriteProps.


(* ================================================================== *)
(** * The consistency check: what passing it means *)
(* ================================================================== *)

Module CheckProps.
Import Machine FileHeader Disk Files Checker Directory.

(** ** The shadow bitmap *)

Lemma Test_Mark_eq (m : Bitmap.t) s :
  0 <= s < Z.of_nat (length m) -> Bitmap.Test (Bitmap.Mark s m) s = true.
Proof.
  intros H. unfold Bitmap.Test, Bitmap.Mark.
  replace (s <? 0) with false by (symmetry; apply Z.ltb_ge; lia).
  rewrite list_lookup_insert_eq by lia. reflexivity.
Qed.

Lemma Test_Mark_ne (m : Bitmap.t) s x :
  x <> s -> Bitmap.Test (Bitmap.Mark s m) x = Bitmap.Test m x.
Proof.
  intros H. unfold Bitmap.Test, Bitmap.Mark.
  destruct (s <? 0) eqn:Es; [reflexivity|].
  destruct (x <? 0) eqn:Ex; [reflexivity|].
  apply Z.ltb_ge in Es, Ex.
  rewrite list_lookup_insert_ne by lia. reflexivity.
Qed.

Lemma length_Mark (m : Bitmap.t) s : length (Bitmap.Mark s m) = length m.
Proof.
  unfold Bitmap.Mark. destruct (s <? 0); [reflexivity|].
  apply length_insert.
Qed.

Lemma Test_Mark (m : Bitmap.t) s x :
  0 <= s < Z.of_nat (length m) ->
  Bitmap.Test (Bitmap.Mark s m) x = Bitmap.Test m x || bool_decide (x = s).
Proof.
  intros H. destruct (decide (x = s)) as [->|Hne].
  - rewrite Test_Mark_eq by exact H. rewrite bool_decide_eq_true_2 by easy.
    now rewrite orb_true_r.
  - rewrite Test_Mark_ne by exact Hne.
    rewrite bool_decide_eq_false_2 by easy. now rewrite orb_false_r.
Qed.

(** ** One sector *)

Lemma CheckSector_cases s (m : Bitmap.t) :
  0 <= s -> length m = Z.to_nat NUM_SECTORS ->
  (s < NUM_SECTORS /\ Bitmap.Test m s = false /\
   CheckSector s m = (false, Bitmap.Mark s m)) \/
  (exists m', CheckSector s m = (true, m') /\ length m' = length m /\
     (forall x, Bitmap.Test m x = true -> Bitmap.Test m' x = true) /\
     (NUM_SECTORS <= s \/ Bitmap.Test m s = true)).
Proof.
  intros H0 Hlen. unfold CheckSector, AddToShadowBitmap, CheckForError.
  destruct (Bitmap.Test m s) eqn:Et.
  - right. exists m. rewrite orb_true_r. split_and!; auto.
  - destruct (s <? NUM_SECTORS) eqn:Es.
    + left. apply Z.ltb_lt in Es. split_and!; auto.
    + right. apply Z.ltb_ge in Es. exists (Bitmap.Mark s m). cbn.
      split_and!; auto using length_Mark.
      intros x Hx. rewrite Test_Mark_ne; [exact Hx|].
      intros ->. congruence.
Qed.

(** ** The sectors of one header *)

Lemma CheckFileHeader_loop_sound rh : forall idx e (m : Bitmap.t) e' m',
  Forall (fun i => 0 <= default 0 (dataSectors rh !! Z.to_nat i)) idx ->
  length m = Z.to_nat NUM_SECTORS ->
  CheckFileHeader_loop rh idx e m = Ok (e', m') ->
  let secs := (fun i => default 0 (dataSectors rh !! Z.to_nat i)) <$> idx in
  length m' = length m /\
  (forall x, Bitmap.Test m x = true -> Bitmap.Test m' x = true) /\
  (e' = false ->
   e = false /\ Forall (fun i => i < NUM_DIRECT) idx /\ NoDup secs /\
   (forall s, s ∈ secs -> s < NUM_SECTORS /\ Bitmap.Test m s = false) /\
   forall x, Bitmap.Test m' x = Bitmap.Test m x || bool_decide (x ∈ secs)).
Proof.
  induction idx as [|i idx IH]; intros e m e' m' Hpos Hlen Hrun; cbn in *.
  - injection Hrun as <- <-. split_and!; auto.
    intros ->. split_and!; auto using NoDup_nil_2.
    + intros s Hs. inversion Hs.
    + intros x. rewrite bool_decide_eq_false_2 by (intros H; inversion H).
      now rewrite orb_false_r.
  - apply Forall_cons in Hpos as [Hi Hpos].
    unfold dataSector in Hrun.
    destruct (i <? NUM_DIRECT) eqn:Ei; [|discriminate]. cbn [bind] in Hrun.
    apply Z.ltb_lt in Ei.
    set (s := default 0 (dataSectors rh !! Z.to_nat i)) in *.
    destruct (CheckSector_cases s m Hi Hlen)
      as [(Hs & Ht & E)|(m1 & E & Hl1 & Hmono & Hwhy)];
      rewrite E in Hrun.
    + rewrite orb_false_r in Hrun.
      destruct (IH _ _ _ _ Hpos ltac:(rewrite length_Mark; exact Hlen) Hrun)
        as (Hl & Hm & Hok).
      rewrite length_Mark in Hl.
      assert (Hin : 0 <= s < Z.of_nat (length m))
        by (rewrite Hlen; unfold NUM_SECTORS in *; lia).
      split_and!; auto.
      * intros x Hx. apply Hm. rewrite Test_Mark by exact Hin.
        now rewrite Hx.
      * intros He'. destruct (Hok He') as (He & Hd & Hnd & Hall & Hmarks).
        assert (Hnot : s ∉ (fun i => default 0 (dataSectors rh !! Z.to_nat i))
                           <$> idx).
        { intros Hmem. destruct (Hall _ Hmem) as [_ Hf].
          rewrite Test_Mark_eq in Hf by exact Hin. discriminate. }
        split_and!; auto.
        -- apply NoDup_cons. split; assumption.
        -- intros x Hx. apply elem_of_cons in Hx as [->|Hx]; [auto|].
           destruct (Hall _ Hx) as [Hlt Hf]. split; [exact Hlt|].
           rewrite Test_Mark_ne in Hf; [exact Hf|]. intros ->. auto.
        -- intros x. rewrite Hmarks, Test_Mark by exact Hin.
           rewrite <- orb_assoc. f_equal.
           destruct (decide (x = s)) as [->|Hne].
           ++ rewrite (bool_decide_eq_true_2 (s = s)) by reflexivity.
              rewrite (bool_decide_eq_true_2 (s ∈ _ :: _))
                by (apply elem_of_cons; auto).
              reflexivity.
           ++ rewrite (bool_decide_eq_false_2 (x = s)) by exact Hne.
              cbn [orb]. apply bool_decide_ext. rewrite elem_of_cons.
              tauto.
    + rewrite orb_true_r in Hrun.
      destruct (IH _ _ _ _ Hpos ltac:(rewrite Hl1; exact Hlen) Hrun)
        as (Hl & Hm & Hok).
      split_and!; auto; [congruence|].
      intros He'. destruct (Hok He') as [Hbad _]. discriminate.
Qed.

Lemma CheckFileHeader_loop_complete rh : forall idx (m : Bitmap.t),
  let secs := (fun i => default 0 (dataSectors rh !! Z.to_nat i)) <$> idx in
  Forall (fun i => i < NUM_DIRECT) idx ->
  Forall (fun s => 0 <= s) secs ->
  length m = Z.to_nat NUM_SECTORS ->
  NoDup secs ->
  (forall s, s ∈ secs -> s < NUM_SECTORS /\ Bitmap.Test m s = false) ->
  exists m', CheckFileHeader_loop rh idx false m = Ok (false, m').
Proof.
  induction idx as [|i idx IH]; intros m secs Hd Hpos Hlen Hnd Hall;
    subst secs; cbn in *.
  - eauto.
  - apply Forall_cons in Hd as [Hi Hd]. apply Forall_cons in Hpos as [Hs Hpos].
    apply NoDup_cons in Hnd as [Hnot Hnd].
    unfold dataSector.
    replace (i <? NUM_DIRECT) with true by (symmetry; apply Z.ltb_lt; lia).
    cbn [bind].
    set (s := default 0 (dataSectors rh !! Z.to_nat i)) in *.
    destruct (Hall s ltac:(apply elem_of_cons; auto)) as [Hlt Hf].
    destruct (CheckSector_cases s m Hs Hlen)
      as [(_ & _ & E)|(m1 & E & _ & _ & [Hwhy|Hwhy])];
      [|lia|congruence].
    rewrite E. cbn [orb].
    apply IH; auto.
    + rewrite length_Mark. exact Hlen.
    + intros x Hx. destruct (Hall x ltac:(apply elem_of_cons; auto)) as [H1 H2].
      split; [exact H1|]. rewrite Test_Mark_ne; [exact H2|].
      intros ->. auto.
Qed.

Lemma sectors_of_pos rh :
  Forall (fun s => 0 <= s) (sectors_of rh) ->
  Forall (fun i => 0 <= default 0 (dataSectors rh !! Z.to_nat i))
    (seqZ 0 (numSectors rh)).
Proof.
  intros Hpos. apply Forall_forall. intros i Hi.
  apply (proj1 (Forall_forall _ _) Hpos). unfold sectors_of.
  apply list_elem_of_fmap. eauto.
Qed.

Lemma CheckFileHeader_sound rh num (m : Bitmap.t) e' m' :
  Forall (fun s => 0 <= s) (sectors_of rh) ->
  length m = Z.to_nat NUM_SECTORS ->
  CheckFileHeader rh num m = Ok (e', m') ->
  length m' = length m /\
  (forall x, Bitmap.Test m x = true -> Bitmap.Test m' x = true) /\
  (e' = false ->
   NoDup (sectors_of rh) /\
   (forall s, s ∈ sectors_of rh ->
      s < NUM_SECTORS /\ Bitmap.Test m s = false) /\
   forall x, Bitmap.Test m' x
             = Bitmap.Test m x || bool_decide (x ∈ sectors_of rh)).
Proof.
  intros Hpos Hlen Hrun. unfold CheckFileHeader in Hrun.
  destruct (CheckFileHeader_loop_sound rh _ _ _ _ _ (sectors_of_pos rh Hpos)
              Hlen Hrun) as (Hl & Hm & Hok).
  split_and!; auto. intros He.
  destruct (Hok He) as (_ & _ & Hnd & Hall & Hmarks). auto.
Qed.

(** X24. [CheckFileHeader] answers "no error" exactly for a header
    whose count of sectors covers its length in bytes, is less than
    [NUM_DIRECT], and whose sectors are below [NUM_SECTORS], all
    different and none marked in the shadow bitmap yet; it then hands
    the bitmap back with just these sectors marked besides.  So a
    file that fills all its [NUM_DIRECT] sectors never passes. *)
Theorem CheckFileHeader_passes rh num (m : Bitmap.t) :
  Forall (fun s => 0 <= s) (sectors_of rh) ->
  length m = Z.to_nat NUM_SECTORS ->
  ((exists m', CheckFileHeader rh num m = Ok (false, m')) <->
   DivRoundUp (numBytes rh) SECTOR_SIZE <= numSectors rh /\
   numSectors rh < NUM_DIRECT /\
   NoDup (sectors_of rh) /\
   (forall s, s ∈ sectors_of rh ->
      s < NUM_SECTORS /\ Bitmap.Test m s = false)) /\
  (forall m', CheckFileHeader rh num m = Ok (false, m') ->
     forall x, Bitmap.Test m' x
               = Bitmap.Test m x || bool_decide (x ∈ sectors_of rh)).
Proof.
  intros Hpos Hlen.
  pose proof (sectors_of_pos rh Hpos) as Hpos'.
  unfold CheckFileHeader, CheckForError. cbn [orb].
  split; [split|].
  - intros [m' Hrun].
    destruct (CheckFileHeader_loop_sound rh _ _ _ _ _ Hpos' Hlen Hrun)
      as (_ & _ & Hok).
    destruct (Hok eq_refl) as (He & _ & Hnd & Hall & _).
    apply orb_false_iff in He as [He1 He2].
    apply negb_false_iff in He1, He2.
    apply Z.leb_le in He1. apply Z.ltb_lt in He2.
    split_and!; assumption.
  - intros (H1 & H2 & Hnd & Hall).
    replace (DivRoundUp (numBytes rh) SECTOR_SIZE <=? numSectors rh)
      with true by (symmetry; apply Z.leb_le; exact H1).
    replace (numSectors rh <? NUM_DIRECT)
      with true by (symmetry; apply Z.ltb_lt; exact H2).
    cbn [negb orb].
    apply CheckFileHeader_loop_complete; auto.
    apply Forall_forall. intros i Hi. apply elem_of_seqZ in Hi. lia.
  - intros m' Hrun.
    destruct (CheckFileHeader_loop_sound rh _ _ _ _ _ Hpos' Hlen Hrun)
      as (_ & _ & Hok).
    destruct (Hok eq_refl) as (_ & _ & _ & _ & Hmarks). exact Hmarks.
Qed.

Lemma CheckFileHeader_passes_witness :
  let rh := mkRaw 300 3 [4; 5; 6] in
  let m := Bitmap.new NUM_SECTORS in
  ((exists m', CheckFileHeader rh 2 m = Ok (false, m')) <->
   DivRoundUp (numBytes rh) SECTOR_SIZE <= numSectors rh /\
   numSectors rh < NUM_DIRECT /\
   NoDup (sectors_of rh) /\
   (forall s, s ∈ sectors_of rh ->
      s < NUM_SECTORS /\ Bitmap.Test m s = false)) /\
  (forall m', CheckFileHeader rh 2 m = Ok (false, m') ->
     forall x, Bitmap.Test m' x
               = Bitmap.Test m x || bool_decide (x ∈ sectors_of rh)).
Proof.
  apply (CheckFileHeader_passes (mkRaw 300 3 [4; 5; 6]) 2
           (Bitmap.new NUM_SECTORS)).
  - change (sectors_of (mkRaw 300 3 [4; 5; 6])) with [4; 5; 6].
    repeat constructor; lia.
  - reflexivity.
Defined.

(** ** The two bitmaps *)

Lemma fold_or {A} (f : A -> bool) (l : list A) (e : bool) :
  fold_left (fun error i => error || f i) l e = e || existsb f l.
Proof.
  revert e. induction l as [|a l IH]; intros e; cbn.
  - now rewrite orb_false_r.
  - rewrite IH. now rewrite orb_assoc.
Qed.

(** X25. [CheckBitmaps] answers "no error" exactly when the free map
    and the shadow bitmap agree on every one of the [NUM_SECTORS]
    sectors. *)
Theorem CheckBitmaps_agree (freeMap shadowMap : Bitmap.t) :
  CheckBitmaps freeMap shadowMap = false <->
  forall i, 0 <= i < NUM_SECTORS ->
    Bitmap.Test freeMap i = Bitmap.Test shadowMap i.
Proof.
  unfold CheckBitmaps, CheckForError.
  rewrite (fold_or (fun i => negb (eqb (Bitmap.Test freeMap i)
                                     (Bitmap.Test shadowMap i)))).
  cbn [orb]. split.
  - intros H i Hi.
    destruct (eqb (Bitmap.Test freeMap i) (Bitmap.Test shadowMap i)) eqn:E;
      [now apply eqb_prop|].
    assert (Hex : existsb
              (fun i => negb (eqb (Bitmap.Test freeMap i)
                                (Bitmap.Test shadowMap i)))
              (seqZ 0 NUM_SECTORS) = true).
    { apply existsb_exists. exists i. split.
      - apply list_elem_of_In, elem_of_seqZ. lia.
      - now rewrite E. }
    congruence.
  - intros H.
    destruct (existsb _ _) eqn:E; [|reflexivity].
    apply existsb_exists in E as (i & Hi & Hne).
    apply list_elem_of_In, elem_of_seqZ in Hi.
    rewrite (H i) in Hne by lia. now rewrite eqb_reflx in Hne.
Qed.

(** ** A whole directory *)

Lemma table_slots (rd : Directory.t) :
  (fun i => default free_slot (rd !! i)) <$> seq 0 (length rd) = rd.
Proof.
  apply list_eq. intros i. rewrite list_lookup_fmap.
  destruct (rd !! i) as [e|] eqn:E.
  - rewrite lookup_seq_lt by (apply lookup_lt_Some in E; lia).
    cbn. now rewrite E.
  - rewrite lookup_seq_ge by (apply lookup_ge_None in E; lia).
    reflexivity.
Qed.

Lemma known_name (n : string) (known : list string) :
  existsb (String.eqb n) known = false -> n ∉ known.
Proof.
  intros H Hin. apply list_elem_of_In in Hin.
  assert (existsb (String.eqb n) known = true); [|congruence].
  apply existsb_exists. exists n. split; [exact Hin|apply String.eqb_refl].
Qed.

Lemma CheckDirectory_loop_sound d rd :
  forall idx e known (m : Bitmap.t) e' m',
  let es := filter (fun e => inUse e = true)
              ((fun i => default free_slot (rd !! i)) <$> idx) in
  let secs := flat_map
                (fun e => sector e :: sectors_of (FetchFrom d (sector e)))
                es in
  Forall (fun s => 0 <= s) secs ->
  length m = Z.to_nat NUM_SECTORS ->
  CheckDirectory_loop d rd idx e known m = Ok (e', m') ->
  length m' = length m /\
  (forall x, Bitmap.Test m x = true -> Bitmap.Test m' x = true) /\
  (e' = false ->
   e = false /\
   NoDup (name <$> es) /\
   (forall n, n ∈ name <$> es -> n ∉ known) /\
   Forall (fun n => Z.of_nat (String.length n) <= FILE_NAME_MAX_LEN)
     (name <$> es) /\
   NoDup secs /\
   (forall s, s ∈ secs -> s < NUM_SECTORS /\ Bitmap.Test m s = false) /\
   forall x, Bitmap.Test m' x = Bitmap.Test m x || bool_decide (x ∈ secs)).
Proof.
  induction idx as [|i idx IH]; intros e known m e' m' es secs Hpos Hlen Hrun.
  - cbn in Hrun. injection Hrun as <- <-. subst es secs. cbn.
    split_and!; auto. intros ->.
    split_and!; auto using NoDup_nil_2.
    + intros n Hn. inversion Hn.
    + intros s Hs. inversion Hs.
    + intros x. rewrite bool_decide_eq_false_2 by (intros H; inversion H).
      now rewrite orb_false_r.
  - cbn [CheckDirectory_loop] in Hrun.
    subst es secs. rewrite fmap_cons, filter_cons in *.
    set (en := default free_slot (rd !! i)) in *.
    destruct (inUse en) eqn:Eu.
    2:{ rewrite decide_False in * by congruence.
        exact (IH _ _ _ _ _ Hpos Hlen Hrun). }
    rewrite decide_True in * by reflexivity.
    cbn [flat_map] in Hpos. rewrite fmap_cons. cbn [flat_map].
    set (rest := filter (fun e => inUse e = true)
                   ((fun i => default free_slot (rd !! i)) <$> idx)) in *.
    set (rsecs := flat_map
                    (fun e => sector e
                              :: sectors_of (FetchFrom d (sector e)))
                    rest) in *.
    set (h := FetchFrom d (sector en)) in *.
    apply Forall_cons in Hpos as [Hs0 Hpos].
    apply Forall_app in Hpos as [Hhp Hrp].
    destruct (CheckSector_cases (sector en) m Hs0 Hlen)
      as [(Hs & Ht & E)|(m1 & E & Hl1 & Hmono1 & _)];
      rewrite E in Hrun.
    2:{ destruct (CheckFileHeader h (sector en) m1)
          as [[e2 m2]| | | |] eqn:Eh; try discriminate.
        cbn [bind] in Hrun.
        destruct (CheckFileHeader_sound h _ m1 e2 m2 Hhp
                    ltac:(rewrite Hl1; exact Hlen) Eh) as (Hl2 & Hmono2 & _).
        destruct (IH _ _ _ _ _ Hrp ltac:(rewrite Hl2, Hl1; exact Hlen) Hrun)
          as (Hl & Hm & Hok).
        split_and!; auto; [congruence|].
        intros He'. destruct (Hok He') as [Hbad _].
        rewrite orb_true_r in Hbad. discriminate. }
    assert (Hin : 0 <= sector en < Z.of_nat (length m))
      by (rewrite Hlen; unfold NUM_SECTORS in *; lia).
    destruct (CheckFileHeader h (sector en) (Bitmap.Mark (sector en) m))
      as [[e2 m2]| | | |] eqn:Eh; try discriminate.
    cbn [bind] in Hrun.
    destruct (CheckFileHeader_sound h _ _ e2 m2 Hhp
                ltac:(rewrite length_Mark; exact Hlen) Eh)
      as (Hl2 & Hmono2 & Hok2).
    rewrite length_Mark in Hl2.
    destruct (IH _ _ _ _ _ Hrp ltac:(rewrite Hl2; exact Hlen) Hrun)
      as (Hl & Hm & Hok).
    split_and!; auto; [congruence| |].
    { intros x Hx. apply Hm, Hmono2. rewrite Test_Mark by exact Hin.
      now rewrite Hx. }
    intros He'.
    destruct (Hok He') as (He & Hnames & Hknown & Hshort & Hnd & Hall & Hmarks).
    rewrite orb_false_r in He.
    apply orb_false_iff in He as [He He2].
    apply orb_false_iff in He as [He Hrep].
    apply orb_false_iff in He as [He Hlong].
    rewrite Hrep in Hknown.
    apply Z.ltb_ge in Hlong.
    destruct (Hok2 He2) as (Hnd2 & Hall2 & Hmarks2).
    assert (Hfresh2 : forall s, s ∈ sectors_of h ->
              s <> sector en /\ Bitmap.Test m s = false).
    { intros s Hs'. destruct (Hall2 _ Hs') as [_ Hf].
      rewrite Test_Mark in Hf by exact Hin.
      apply orb_false_iff in Hf as [Hf Hne].
      apply bool_decide_eq_false in Hne. auto. }
    assert (Hfresh3 : forall s, s ∈ rsecs ->
              s <> sector en /\ (s ∉ sectors_of h) /\
              Bitmap.Test m s = false).
    { intros s Hs'. destruct (Hall _ Hs') as [_ Hf].
      rewrite Hmarks2, Test_Mark in Hf by exact Hin.
      apply orb_false_iff in Hf as [Hf Hn2].
      apply orb_false_iff in Hf as [Hf Hne].
      apply bool_decide_eq_false in Hne, Hn2. auto. }
    split_and!.
    + exact He.
    + apply NoDup_cons. split; [|exact Hnames].
      intros Hmem. apply (Hknown _ Hmem).
      apply elem_of_app. right. apply list_elem_of_singleton. reflexivity.
    + intros n Hn Hk. apply elem_of_cons in Hn as [->|Hn].
      * exact (known_name _ _ Hrep Hk).
      * apply (Hknown _ Hn). apply elem_of_app. now left.
    + apply Forall_cons. split; [lia|exact Hshort].
    + apply NoDup_cons. split.
      * intros Hmem. apply elem_of_app in Hmem as [Hmem|Hmem].
        -- now destruct (Hfresh2 _ Hmem).
        -- now destruct (Hfresh3 _ Hmem).
      * apply NoDup_app. split_and!; [exact Hnd2| |exact Hnd].
        intros s Hs2 Hs3. now destruct (Hfresh3 _ Hs3) as (_ & ? & _).
    + intros s Hmem. apply elem_of_cons in Hmem as [->|Hmem]; [auto|].
      apply elem_of_app in Hmem as [Hmem|Hmem].
      * destruct (Hall2 _ Hmem) as [? _]. destruct (Hfresh2 _ Hmem). auto.
      * destruct (Hall _ Hmem) as [? _].
        destruct (Hfresh3 _ Hmem) as (_ & _ & ?).
        auto.
    + intros x. rewrite Hmarks, Hmarks2, Test_Mark by exact Hin.
      rewrite <- !orb_assoc. f_equal.
      fold rsecs.
      apply eq_true_iff_eq. rewrite !orb_true_iff, !bool_decide_eq_true.
      rewrite elem_of_app, elem_of_cons. tauto.
Qed.

(** X26. When [CheckDirectory] answers "no error" for a table, no two
    entries in use of the table have the same name, no name is longer
    than [FILE_NAME_MAX_LEN], and no sector is laid claim to twice:
    the header sectors of the entries in use and the data sectors
    their headers list are all different, below [NUM_SECTORS] and
    were not marked in the shadow bitmap, which comes back with just
    these sectors marked besides. *)
Theorem CheckDirectory_passes d (rd : Directory.t) (m m' : Bitmap.t) :
  length rd = NUM_DIR_ENTRIES ->
  Forall (fun s => 0 <= s) (claimed d rd) ->
  length m = Z.to_nat NUM_SECTORS ->
  CheckDirectory d rd m = Ok (false, m') ->
  unique_names rd /\
  Forall (fun n => Z.of_nat (String.length n) <= FILE_NAME_MAX_LEN)
    (names rd) /\
  NoDup (claimed d rd) /\
  (forall s, s ∈ claimed d rd ->
     s < NUM_SECTORS /\ Bitmap.Test m s = false) /\
  forall x, Bitmap.Test m' x
            = Bitmap.Test m x || bool_decide (x ∈ claimed d rd).
Proof.
  intros Hsz Hpos Hlen Hrun. unfold CheckDirectory in Hrun.
  rewrite <- Hsz in Hrun.
  pose proof (CheckDirectory_loop_sound d rd (seq 0 (length rd)) false []
                m false m') as H.
  cbv zeta in H. rewrite table_slots in H.
  destruct (H Hpos Hlen Hrun) as (_ & _ & Hok).
  destruct (Hok eq_refl) as (_ & Hn & _ & Hshort & Hnd & Hall & Hmarks).
  unfold unique_names, names, claimed. split_and!; assumption.
Qed.

Lemma CheckDirectory_passes_witness :
  let d := Kernel.synchDisk Trees.notes_created in
  let rd := Dirs.root Trees.notes_created in
  let m := Bitmap.Mark 1 (Bitmap.Mark 0 (Bitmap.new NUM_SECTORS)) in
  let m' := match CheckDirectory d rd m with
            | Ok (_, m') => m'
            | _ => m
            end in
  unique_names rd /\
  Forall (fun n => Z.of_nat (String.length n) <= FILE_NAME_MAX_LEN)
    (names rd) /\
  NoDup (claimed d rd) /\
  (forall s, s ∈ claimed d rd ->
     s < NUM_SECTORS /\ Bitmap.Test m s = false) /\
  forall x, Bitmap.Test m' x
            = Bitmap.Test m x || bool_decide (x ∈ claimed d rd).
Proof.
  intros d rd m m'.
  apply (CheckDirectory_passes d rd m m').
  - reflexivity.
  - assert (E : claimed d rd = [5; 6; 7; 8]) by (vm_compute; reflexivity).
    rewrite E. repeat constructor; lia.
  - reflexivity.
  - vm_compute. reflexivity.
Defined.

End CheckProps.

